(** * Partitioned dense matrix multiply-and-reduce: the gprof examples

    A shallow embedding of [src/gprof/mpi_example.c] and
    [src/gprof/serial_example.c].

    - C [int] values are integers in [Z]; [/] and [%] are C's truncating
      division and remainder ([Z.quot], [Z.rem]).
    - A [double**] matrix is a block: a list of rows, each a list of cells.
      Blocks live in a store indexed by pointers; the kernels take pointers,
      so two arguments may name the same block, as in C.
    - An access outside a block is undefined behaviour in C; the embedding
      makes it the outcome [Undefined], and [exit(1)] / [return 1] the
      outcome [Exit 1].
    - The kernels are written once over an arbitrary cell type with its
      [0.0], [+], [*] and [sqrt]; they are run on IEEE binary64 numbers
      ([PrimFloat.float]) and on the integers. *)

From Stdlib Require Import ZArith Lia List String.
From Stdlib Require Import Floats.PrimFloat.
From Stdlib Require Uint63.
From stdpp Require Import gmap list.

Open Scope Z_scope.

(** ** The row partitioner *)

Module Partition.

(** [int] is 32 bits wide on the platforms the examples target. *)
Definition INT_MAX : Z := 2147483647.

(** [compute_local_chunk], mpi_example.c lines 37-44; the two output
    parameters [*local_start] and [*local_end] are returned as a pair. *)
Definition compute_local_chunk (rank size global_n : Z) : Z * Z :=
  let rows_per_rank := global_n ÷ size in
  let remainder := Z.rem global_n size in
  let local_start :=
    rank * rows_per_rank + (if rank <? remainder then rank else remainder) in
  let local_end :=
    local_start + rows_per_rank + (if rank <? remainder then 1 else 0) in
  (local_start, local_end).

Definition local_start (rank size global_n : Z) : Z :=
  fst (compute_local_chunk rank size global_n).

Definition local_end (rank size global_n : Z) : Z :=
  snd (compute_local_chunk rank size global_n).

(** [local_rows = local_end - local_start], mpi_example.c line 178. *)
Definition local_rows (rank size global_n : Z) : Z :=
  local_end rank size global_n - local_start rank size global_n.

(** Row [i] belongs to the range of [rank]. *)
Definition owns (rank size global_n i : Z) : Prop :=
  local_start rank size global_n <= i < local_end rank size global_n.

(** The row indices of a half-open range, in increasing order. *)
Definition rows_of (range : Z * Z) : list Z :=
  seqZ (fst range) (snd range - fst range).

(** The ranges of all ranks [0 .. size-1], concatenated in rank order. *)
Definition all_rows (size global_n : Z) : list Z :=
  concat (map (fun rank => rows_of (compute_local_chunk rank size global_n))
              (seqZ 0 size)).

(** The first row of each rank as a natural number, for cutting lists. *)
Definition cut (size global_n : Z) (rank : nat) : nat :=
  Z.to_nat (local_start (Z.of_nat rank) size global_n).

End Partition.

(** ** Cells

    The arithmetic the kernels use on cells: the constants [0.0], [1.0] and
    [2.0] of the two programs, [+], [*] and [sqrt]. *)

Class Scalar (T : Type) : Type := {
  s_zero : T;
  s_one : T;
  s_two : T;
  s_add : T -> T -> T;
  s_mul : T -> T -> T;
  s_sqrt : T -> T
}.

Declare Scope cell_scope.
Delimit Scope cell_scope with cell.
Infix "⊕" := s_add (at level 50, left associativity) : cell_scope.
Infix "⊗" := s_mul (at level 40, left associativity) : cell_scope.

(** C [double] on the targeted platforms: IEEE 754 binary64. *)
#[export] Instance double : Scalar float := {|
  s_zero := 0%float;
  s_one := 1%float;
  s_two := 2%float;
  s_add := PrimFloat.add;
  s_mul := PrimFloat.mul;
  s_sqrt := PrimFloat.sqrt
|}.

(** Exact integer cells, where addition is associative. *)
#[export] Instance exact : Scalar Z := {|
  s_zero := 0;
  s_one := 1;
  s_two := 2;
  s_add := Z.add;
  s_mul := Z.mul;
  s_sqrt := Z.sqrt
|}.

(** ** The machine *)

(** A [double**] matrix: the rows it points to. *)
Abbreviation block T := (list (list T)) (only parsing).

(** A store to one cell: the block, the row, the column, the value. *)
Abbreviation write_event T := (nat * nat * nat * T)%type (only parsing).

Section Machine.
Context {T : Type} `{Scalar T}.
Open Scope cell_scope.

(** What the programs print that depends on their input: the error lines
    on [stderr] and the norm lines on [stdout]. The banners, the timing
    line and [print_matrix]'s dump are not recorded. *)
Inductive console : Type :=
| Stderr (msg : string)
| PrintNorm (label : string) (value : T).

(** The state of one process.
    - [blocks]: the matrices that are allocated, by pointer.
    - [heap]: what [malloc] will do at its k-th call: fail ([None]), or
      hand out storage whose cells hold [g 0], [g 1], ... ([Some g]);
      [malloc] does not clear what it returns.
    - [brk]: the number of [malloc] calls made so far.
    - [writes]: the stores to matrix cells, oldest first.
    - [console_out]: the lines printed, oldest first. *)
Record state : Type := State {
  blocks : gmap nat (block T);
  heap : nat -> option (nat -> T);
  brk : nat;
  writes : list (write_event T);
  console_out : list console
}.

(** A process starts with nothing allocated. *)
Definition initial (h : nat -> option (nat -> T)) : state :=
  State ∅ h 0 [] [].

(** How a computation ends: with a value, by leaving the process
    ([exit(status)], or [return status] from [main] before the end), or in
    undefined behaviour (an access outside a block). *)
Inductive outcome (A : Type) : Type :=
| Done (a : A)
| Exit (status : Z) (w : state)
| Undefined.
Arguments Done {A} a.
Arguments Exit {A} status w.
Arguments Undefined {A}.

Definition bind {A B : Type} (c : outcome A) (k : A -> outcome B) : outcome B :=
  match c with
  | Done a => k a
  | Exit status w => Exit status w
  | Undefined => Undefined
  end.

Notation "'let!' x ':=' c 'in' k" := (bind c (fun x => k))
  (at level 10, x pattern, c at level 100, k at level 200).

(** [for (int i = i0; ...; i++) body], run for [count] iterations. *)
Fixpoint for_loop {St : Type} (count i0 : nat) (body : nat -> St -> outcome St)
    (s : St) : outcome St :=
  match count with
  | O => Done s
  | S count' => let! s' := body i0 s in for_loop count' (S i0) body s'
  end.

(** [for (int i = 0; i < bound; i++) body]: no iteration when
    [bound <= 0]. *)
Definition for_int {St : Type} (bound : Z) (body : nat -> St -> outcome St)
    (s : St) : outcome St :=
  for_loop (Z.to_nat bound) 0 body s.

(** [matrix[i][j]] read. *)
Definition load (matrix i j : nat) (w : state) : outcome T :=
  match blocks w !! matrix with
  | Some b =>
      match b !! i with
      | Some row =>
          match row !! j with
          | Some x => Done x
          | None => Undefined
          end
      | None => Undefined
      end
  | None => Undefined
  end.

(** [matrix[i][j] = v]. *)
Definition store (matrix i j : nat) (v : T) (w : state) : outcome state :=
  match blocks w !! matrix with
  | Some b =>
      match b !! i with
      | Some row =>
          if decide (j < length row)%nat
          then Done (State (<[matrix := <[i := <[j := v]> row]> b]> (blocks w))
                           (heap w) (brk w)
                           (writes w ++ [(matrix, i, j, v)])
                           (console_out w))
          else Undefined
      | None => Undefined
      end
  | None => Undefined
  end.

Definition print (line : console) (w : state) : state :=
  State (blocks w) (heap w) (brk w) (writes w) (console_out w ++ [line]).

(** *** mpi_example.c *)

(** [allocate_matrix_local], lines 49-66. The first [malloc] is the array
    of row pointers, whose address names the block; each row is then a
    [malloc] of its own and holds whatever that storage held. *)
Definition allocate_matrix_local (rows cols : Z) (w : state)
    : outcome (nat * state) :=
  let matrix := brk w in
  match heap w (brk w) with
  | None => Exit 1 (print (Stderr "Memory allocation failed") w)
  | Some _ =>
      let w := State (<[matrix := []]> (blocks w)) (heap w) (S (brk w))
                     (writes w) (console_out w) in
      let! w := for_int rows (fun i w =>
        match heap w (brk w) with
        | None => Exit 1 (print (Stderr "Memory allocation failed") w)
        | Some g =>
            Done (State (alter (fun b => b ++ [map g (seq 0 (Z.to_nat cols))])
                               matrix (blocks w))
                        (heap w) (S (brk w)) (writes w) (console_out w))
        end) w in
      Done (matrix, w)
  end.

(** [free_matrix_local], lines 71-77. *)
Definition free_matrix_local (matrix : nat) (rows : Z) (w : state)
    : outcome state :=
  match blocks w !! matrix with
  | Some b =>
      if decide (Z.to_nat rows <= length b)%nat
      then Done (State (delete matrix (blocks w)) (heap w) (brk w) (writes w)
                       (console_out w))
      else Undefined
  | None => Undefined
  end.

(** [initialize_matrix_local], lines 82-89. *)
Definition initialize_matrix_local (matrix : nat) (rows cols : Z) (value : T)
    : state -> outcome state :=
  for_int rows (fun i =>
    for_int cols (fun j w =>
      store matrix i j value w)).

(** [matrix_multiply_local], lines 96-106. *)
Definition matrix_multiply_local (A B C : nat) (rows n : Z)
    : state -> outcome state :=
  for_int rows (fun i =>
    for_int n (fun j w =>
      let! w := store C i j s_zero w in
      for_int n (fun k w =>
        let! c := load C i j w in
        let! a := load A i k w in
        let! b := load B k j w in
        store C i j (c ⊕ a ⊗ b) w) w)).

(** [matrix_add_local], lines 112-119. *)
Definition matrix_add_local (A B C : nat) (rows cols : Z)
    : state -> outcome state :=
  for_int rows (fun i =>
    for_int cols (fun j w =>
      let! a := load A i j w in
      let! b := load B i j w in
      store C i j (a ⊕ b) w)).

(** [compute_local_norm], lines 124-133: the memory is only read, the
    loops carry [sum]. *)
Definition compute_local_norm (A : nat) (rows cols : Z) (w : state)
    : outcome T :=
  for_int rows (fun i =>
    for_int cols (fun j sum =>
      let! a := load A i j w in
      Done (sum ⊕ a ⊗ a))) s_zero.

(** What [main] still needs after the reduction. *)
Record mpi_frame : Type := Frame {
  fr_global_n : Z;
  fr_local_rows : Z;
  fr_A_local : nat;
  fr_B : nat;
  fr_C_local : nat;
  fr_D_local : nat;
  fr_local_norm : T
}.

(** [main], lines 152-235: one rank, up to its call of [MPI_Reduce].
    [argn] is [atoi(argv[1])] when an argument was given. The barrier and
    the two clock readings leave the state as it is. *)
Definition mpi_main_compute (rank size : Z) (argn : option Z) (w : state)
    : outcome (mpi_frame * state) :=
  let! global_n :=
    match argn with
    | Some v =>
        if v <=? 0
        then Exit 1 (if rank =? 0
                     then print (Stderr "Matrix size must be positive") w
                     else w)
        else Done v
    | None => Done 500
    end in
  let (local_start, local_end) :=
    Partition.compute_local_chunk rank size global_n in
  let local_rows := local_end - local_start in
  let! (A_local, w) := allocate_matrix_local local_rows global_n w in
  let! (B, w) := allocate_matrix_local global_n global_n w in
  let! (C_local, w) := allocate_matrix_local local_rows global_n w in
  let! (D_local, w) := allocate_matrix_local local_rows global_n w in
  let! w := initialize_matrix_local A_local local_rows global_n s_one w in
  let! w := initialize_matrix_local B global_n global_n s_two w in
  let! w := initialize_matrix_local C_local local_rows global_n s_zero w in
  let! w := initialize_matrix_local D_local local_rows global_n s_zero w in
  let! w := matrix_multiply_local A_local B C_local local_rows global_n w in
  let! w := matrix_add_local C_local A_local D_local local_rows global_n w in
  let! local_norm := compute_local_norm C_local local_rows global_n w in
  Done (Frame global_n local_rows A_local B C_local D_local local_norm, w).

(** [MPI_Reduce] with [MPI_SUM]: the sum of the ranks' contributions,
    taken here in rank order; MPI leaves the order to the library. *)
Definition MPI_Reduce_SUM (sendbufs : list T) : T :=
  match sendbufs with
  | [] => s_zero
  | x :: rest => fold_left s_add rest x
  end.

(** [main], lines 240-274: after [MPI_Reduce]. [recv] is what the
    reduction delivered: the sum at rank 0, nothing elsewhere, where
    [global_norm] stays uninitialised and is not read. The busy loops
    work on a local variable only. *)
Definition mpi_main_finish (rank : Z) (fr : mpi_frame) (recv : option T)
    (w : state) : outcome (Z * state) :=
  let! w :=
    if rank =? 0
    then match recv with
         | Some global_norm =>
             let global_norm := s_sqrt global_norm in
             Done (print (PrintNorm "||C||_F" global_norm) w)
         | None => Undefined
         end
    else Done w in
  let! w := free_matrix_local (fr_A_local fr) (fr_local_rows fr) w in
  let! w := free_matrix_local (fr_B fr) (fr_global_n fr) w in
  let! w := free_matrix_local (fr_C_local fr) (fr_local_rows fr) w in
  let! w := free_matrix_local (fr_D_local fr) (fr_local_rows fr) w in
  Done (0, w).

(** How one rank of a run ends: [main] returned or the process left, or
    the rank waits in a collective that some other rank never enters. *)
Inductive rank_end : Type :=
| Ended (o : outcome (Z * state))
| Stalled (w : state).

Fixpoint gather {A : Type} (os : list (outcome A)) : option (list A) :=
  match os with
  | [] => Some []
  | Done a :: rest =>
      match gather rest with
      | Some l => Some (a :: l)
      | None => None
      end
  | _ :: _ => None
  end.

(** [srun -n size ./mpi_example [n]]: every rank runs [main] in a process
    of its own, with its own [malloc]; the ranks meet in [MPI_Reduce]. *)
Definition mpi_program (heaps : nat -> nat -> option (nat -> T)) (size : nat)
    (argn : option Z) : list rank_end :=
  let firsts :=
    map (fun rank => mpi_main_compute (Z.of_nat rank) (Z.of_nat size) argn
                                      (initial (heaps rank)))
        (seq 0 size) in
  match gather firsts with
  | Some reached =>
      let global_norm := MPI_Reduce_SUM (map (fun p => fr_local_norm (fst p)) reached) in
      imap (fun rank p =>
              Ended (mpi_main_finish (Z.of_nat rank) (fst p)
                       (match rank with O => Some global_norm | _ => None end)
                       (snd p)))
           reached
  | None =>
      map (fun o => match o with
                    | Done p => Stalled (snd p)
                    | Exit status w => Ended (Exit status w)
                    | Undefined => Ended Undefined
                    end)
          firsts
  end.

(** *** serial_example.c *)

(** [allocate_matrix], lines 32-49. *)
Definition allocate_matrix (n : Z) (w : state) : outcome (nat * state) :=
  let matrix := brk w in
  match heap w (brk w) with
  | None => Exit 1 (print (Stderr "Memory allocation failed") w)
  | Some _ =>
      let w := State (<[matrix := []]> (blocks w)) (heap w) (S (brk w))
                     (writes w) (console_out w) in
      let! w := for_int n (fun i w =>
        match heap w (brk w) with
        | None => Exit 1 (print (Stderr "Memory allocation failed") w)
        | Some g =>
            Done (State (alter (fun b => b ++ [map g (seq 0 (Z.to_nat n))])
                               matrix (blocks w))
                        (heap w) (S (brk w)) (writes w) (console_out w))
        end) w in
      Done (matrix, w)
  end.

(** [free_matrix], lines 54-60. *)
Definition free_matrix (matrix : nat) (n : Z) (w : state) : outcome state :=
  match blocks w !! matrix with
  | Some b =>
      if decide (Z.to_nat n <= length b)%nat
      then Done (State (delete matrix (blocks w)) (heap w) (brk w) (writes w)
                       (console_out w))
      else Undefined
  | None => Undefined
  end.

(** [initialize_matrix], lines 66-73. *)
Definition initialize_matrix (matrix : nat) (n : Z) (value : T)
    : state -> outcome state :=
  for_int n (fun i =>
    for_int n (fun j w =>
      store matrix i j value w)).

(** [matrix_multiply], lines 80-90. *)
Definition matrix_multiply (A B C : nat) (n : Z) : state -> outcome state :=
  for_int n (fun i =>
    for_int n (fun j w =>
      let! w := store C i j s_zero w in
      for_int n (fun k w =>
        let! c := load C i j w in
        let! a := load A i k w in
        let! b := load B k j w in
        store C i j (c ⊕ a ⊗ b) w) w)).

(** [matrix_add], lines 96-103. *)
Definition matrix_add (A B C : nat) (n : Z) : state -> outcome state :=
  for_int n (fun i =>
    for_int n (fun j w =>
      let! a := load A i j w in
      let! b := load B i j w in
      store C i j (a ⊕ b) w)).

(** [matrix_transpose], lines 109-116. *)
Definition matrix_transpose (A AT : nat) (n : Z) : state -> outcome state :=
  for_int n (fun i =>
    for_int n (fun j w =>
      let! a := load A j i w in
      store AT i j a w)).

(** [compute_frobenius_norm], lines 122-131. [sqrt] is the one of the C
    library, as in mpi_example.c, although this file does not include
    [math.h]. *)
Definition compute_frobenius_norm (A : nat) (n : Z) (w : state) : outcome T :=
  let! sum :=
    for_int n (fun i =>
      for_int n (fun j sum =>
        let! a := load A i j w in
        Done (sum ⊕ a ⊗ a))) s_zero in
  Done (s_sqrt sum).

(** [main], lines 182-258. [lightweight_function] and
    [busy_wait_function] work on local variables only. *)
Definition serial_main (argn : option Z) (w : state) : outcome (Z * state) :=
  let! n :=
    match argn with
    | Some v =>
        if v <=? 0
        then Exit 1 (print (Stderr "Matrix size must be positive") w)
        else Done v
    | None => Done 500
    end in
  let! (A, w) := allocate_matrix n w in
  let! (B, w) := allocate_matrix n w in
  let! (C, w) := allocate_matrix n w in
  let! (D, w) := allocate_matrix n w in
  let! (AT, w) := allocate_matrix n w in
  let! w := initialize_matrix A n s_one w in
  let! w := initialize_matrix B n s_two w in
  let! w := initialize_matrix C n s_zero w in
  let! w := initialize_matrix D n s_zero w in
  let! w := initialize_matrix AT n s_zero w in
  let! w := matrix_multiply A B C n w in
  let! w := matrix_add C A D n w in
  let! w := matrix_transpose A AT n w in
  let! norm_C := compute_frobenius_norm C n w in
  let! norm_D := compute_frobenius_norm D n w in
  let w := print (PrintNorm "||C||_F" norm_C) w in
  let w := print (PrintNorm "||D||_F" norm_D) w in
  let! w := free_matrix A n w in
  let! w := free_matrix B n w in
  let! w := free_matrix C n w in
  let! w := free_matrix D n w in
  let! w := free_matrix AT n w in
  Done (0, w).

(** [./serial_example [n]]: one process. *)
Definition serial_program (h : nat -> option (nat -> T)) (argn : option Z)
    : outcome (Z * state) :=
  serial_main argn (initial h).

End Machine.

Arguments state : clear implicits.
Arguments console : clear implicits.
Arguments outcome : clear implicits.
Arguments rank_end : clear implicits.
Arguments mpi_frame : clear implicits.
Arguments Done {T A} a.
Arguments Exit {T A} status w.
Arguments Undefined {T A}.

(** ** The helper functions

    The functions of the two files that work on local variables only or
    print a matrix. [int] arithmetic that leaves the range of [int] is
    undefined behaviour. *)

Section Helpers.
Context {T : Type}.

Notation "'let!' x ':=' c 'in' k" := (bind c (fun x => k))
  (at level 10, x pattern, c at level 100, k at level 200).

(** The value of an [int] expression. *)
Definition as_int (z : Z) : outcome T Z :=
  if (- Partition.INT_MAX - 1 <=? z) && (z <=? Partition.INT_MAX)
  then Done z
  else Undefined.

(** [lightweight_function], serial_example.c lines 171-177. The function
    returns nothing; the embedding returns the last value of [sum]. *)
Definition lightweight_function (iterations : Z) : outcome T Z :=
  for_int iterations (fun i sum => as_int (sum + Z.of_nat i)) 0.

(** What [print_matrix] writes: the one line for a large matrix, or the
    name followed by the cells, row by row. *)
Inductive matrix_dump : Type :=
| TooLarge (name : string) (n : Z)
| Cells (name : string) (rows : list (list T)).

(** [print_matrix], serial_example.c lines 137-151. *)
Definition print_matrix (matrix : nat) (n : Z) (name : string) (w : state T)
    : outcome T matrix_dump :=
  if 10 <? n
  then Done (TooLarge name n)
  else
    let! rows :=
      for_int n (fun i rows =>
        let! row :=
          for_int n (fun j row =>
            let! x := load matrix i j w in
            Done (row ++ [x])) [] in
        Done (rows ++ [row])) [] in
    Done (Cells name rows).

End Helpers.

Arguments matrix_dump : clear implicits.

(** The conversion of an [int] to [double]. *)
Definition double_of_int (z : Z) : float :=
  if z <? 0
  then PrimFloat.opp (PrimFloat.of_uint63 (Uint63.of_Z (- z)))
  else PrimFloat.of_uint63 (Uint63.of_Z z).

(** [busy_wait_compute], mpi_example.c lines 139-147: the product [i * j]
    is an [int], converted to [double] for the multiplication by 0.001
    (the nearest double, [0x1.0624dd2f1a9fcp-10]). The function returns
    nothing; the embedding returns the last value of [result]. *)
Definition busy_wait_compute (iterations : Z) : outcome float float :=
  for_int iterations (fun i =>
    for_int 1000 (fun j result =>
      bind (as_int (Z.of_nat i * Z.of_nat j)) (fun ij =>
        Done (result + double_of_int ij * 0x1.0624dd2f1a9fcp-10)%float)))
    0%float.

(** [busy_wait_function], serial_example.c lines 157-165. *)
Definition busy_wait_function (iterations : Z) : outcome float float :=
  for_int iterations (fun i =>
    for_int 1000 (fun j result =>
      bind (as_int (Z.of_nat i * Z.of_nat j)) (fun ij =>
        Done (result + double_of_int ij * 0x1.0624dd2f1a9fcp-10)%float)))
    0%float.

(** The inner loop of the two busy waits, for one value of [i]. *)
Definition busy_row (i : nat) : float -> outcome float float :=
  for_int 1000 (fun j result =>
    bind (as_int (Z.of_nat i * Z.of_nat j)) (fun ij =>
      Done (result + double_of_int ij * 0x1.0624dd2f1a9fcp-10)%float)).

(** ** Vocabulary of the statements *)

Section Vocabulary.
Context {T : Type} `{Scalar T}.
Open Scope cell_scope.

(** [b] has [rows] rows of [cols] cells each. *)
Definition shape (rows cols : nat) (b : block T) : Prop :=
  length b = rows /\ Forall (fun row => length row = cols) b.

(** The cell [b[i][j]] of a block ([0.0] outside of it). *)
Definition get (b : block T) (i j : nat) : T :=
  match b !! i with
  | Some row =>
      match row !! j with
      | Some x => x
      | None => s_zero
      end
  | None => s_zero
  end.

(** The [rows] x [cols] block whose cell [(i, j)] is [f i j]. *)
Definition table (rows cols : nat) (f : nat -> nat -> T) : block T :=
  map (fun i => map (f i) (seq 0 cols)) (seq 0 rows).

(** [w] with block [p] replaced by [b], after the stores [tr]. *)
Definition with_block (w : state T) (p : nat) (b : block T)
    (tr : list (write_event T)) : state T :=
  State (<[p := b]> (blocks w)) (heap w) (brk w) (writes w ++ tr)
        (console_out w).

(** The running sum of cell [(i, j)] of a product after the terms
    [0 .. k-1]: [((0.0 + a[i][0]*b[0][j]) + a[i][1]*b[1][j]) + ...]. *)
Definition dot_upto (a b : block T) (k i j : nat) : T :=
  fold_left (fun acc k => acc ⊕ get a i k ⊗ get b k j) (seq 0 k) s_zero.

(** The product of a [rows] x [n] block and an [n] x [n] block. *)
Definition product (a b : block T) (rows n : nat) : block T :=
  table rows n (dot_upto a b n).

(** The stores of a multiplication into block [C], in program order. *)
Definition product_writes (C : nat) (a b : block T) (rows n : nat)
    : list (write_event T) :=
  flat_map (fun i =>
    flat_map (fun j =>
      (C, i, j, s_zero)
        :: map (fun k => (C, i, j, dot_upto a b (S k) i j)) (seq 0 n))
      (seq 0 n))
    (seq 0 rows).

(** The sum of squares of a sequence of cells, accumulated left to
    right from [0.0]. *)
Definition sum_squares (cells : list T) : T :=
  fold_left (fun sum x => sum ⊕ x ⊗ x) cells s_zero.

(** The rows [start .. start+count-1] of a block. *)
Definition row_slice (start count : nat) (b : block T) : block T :=
  take count (drop start b).

(** The stores of an initialisation, in program order. *)
Definition fill_writes (M rows cols : nat) (v : T) : list (write_event T) :=
  flat_map (fun i => flat_map (fun j => [(M, i, j, v)]) (seq 0 cols)) (seq 0 rows).

(** The stores of a loop that stores [f i j] to every cell [(i, j)], in
    program order. *)
Definition fill_cells (M rows cols : nat) (f : nat -> nat -> T)
    : list (write_event T) :=
  flat_map (fun i => flat_map (fun j => [(M, i, j, f i j)]) (seq 0 cols)) (seq 0 rows).

(** The stores of an addition, in program order. *)
Definition sum_writes (C : nat) (a b : block T) (rows cols : nat)
    : list (write_event T) :=
  flat_map (fun i => flat_map (fun j => [(C, i, j, get a i j ⊕ get b i j)])
                       (seq 0 cols)) (seq 0 rows).

(** What the [k]-th [malloc] hands out for a row of [cols] cells. *)
Definition fresh_row (w : state T) (k cols : nat) : list T :=
  match heap w k with
  | Some g => map g (seq 0 cols)
  | None => []
  end.

(** The block an allocation made in [w] returns: its rows come from the
    [malloc] calls after the one for the row pointers. *)
Definition fresh_block (w : state T) (rows cols : nat) : block T :=
  map (fun i => fresh_row w (brk w + 1 + i) cols) (seq 0 rows).

(** [w] after a successful allocation of [rows] x [cols] cells. *)
Definition allocated (w : state T) (rows cols : nat) : state T :=
  State (<[brk w := fresh_block w rows cols]> (blocks w)) (heap w)
        (brk w + 1 + rows) (writes w) (console_out w).

(** The [malloc] calls of an allocation made in [w] all succeed. *)
Definition heap_serves (w : state T) (rows : nat) : Prop :=
  forall k, (brk w <= k <= brk w + rows)%nat -> is_Some (heap w k).

(** [w] after block [p] has been released. *)
Definition freed (w : state T) (p : nat) : state T :=
  State (delete p (blocks w)) (heap w) (brk w) (writes w) (console_out w).

(** The matrix size a run works with: the argument when it is positive,
    500 when there is none. *)
Definition size_arg (argn : option Z) (n : Z) : Prop :=
  (argn = Some n /\ 0 < n) \/ (argn = None /\ n = 500).

(** The operands as the programs initialise them. *)
Definition ones (rows cols : nat) : block T := table rows cols (fun _ _ => s_one).
Definition twos (rows cols : nat) : block T := table rows cols (fun _ _ => s_two).

(** The product the programs compute on [rows] rows. *)
Definition ones_times_twos (rows n : nat) : block T :=
  product (ones rows n) (twos n n) rows n.

(** The sum [C + A] the programs store in [D]. *)
Definition product_plus_ones (rows n : nat) : block T :=
  table rows n (fun i j => get (ones_times_twos rows n) i j ⊕ get (ones rows n) i j).

(** The sum of squares rank [rank] contributes to the reduction. *)
Definition contribution (size : nat) (n : Z) (rank : nat) : T :=
  sum_squares
    (concat (ones_times_twos
               (Z.to_nat (Partition.local_rows (Z.of_nat rank) (Z.of_nat size) n))
               (Z.to_nat n))).

(** The value of every cell of the product the programs compute: the
    running sum [((0.0 + 1.0*2.0) + 1.0*2.0) + ...] of [n] terms. *)
Definition constant_dot (n : nat) : T :=
  Nat.iter n (fun acc => acc ⊕ s_one ⊗ s_two) s_zero.

(** The running sum of [count] squares of [v], from [0.0]. *)
Definition square_sum (count : nat) (v : T) : T :=
  Nat.iter count (fun sum => sum ⊕ v ⊗ v) s_zero.

(** Block [c] while a kernel fills it row by row with [f]: the rows before
    [i] and the first [j] cells of row [i] are filled, the other cells are
    those of [c]. *)
Definition partly_filled (f : nat -> nat -> T) (c : block T) (cols i j : nat)
    : block T :=
  map (fun r => map (f r) (seq 0 cols)) (seq 0 i)
  ++ match c !! i with
     | Some row0 => (map (f i) (seq 0 j) ++ drop j row0) :: drop (S i) c
     | None => []
     end.

(** What [matrix_transpose] leaves in a block it is given as both its
    operand and its result: the cells on and below the diagonal are kept,
    the cells above it are overwritten with their mirror images. *)
Definition mirrored (a : block T) (n : nat) : block T :=
  table n n (fun i j => if (i <? j)%nat then get a j i else get a i j).

(** The rows rank [rank] owns, as a slice of a block. *)
Definition rank_slice (size : nat) (n : Z) (rank : nat) (m : block T) : block T :=
  row_slice (Partition.cut (Z.of_nat size) n rank)
            (Z.to_nat (Partition.local_rows (Z.of_nat rank) (Z.of_nat size) n)) m.

End Vocabulary.

(** The block a store goes to. *)
Definition write_target {T : Type} (e : write_event T) : nat := fst (fst (fst e)).

(** From [w] to [w'] only block [C] was stored to: every other block, the
    heap and the console are as they were, and every new store goes to
    [C]. *)
Definition touches_only {T : Type} (C : nat) (w w' : state T) : Prop :=
  (forall q, q <> C -> blocks w' !! q = blocks w !! q)
  /\ heap w' = heap w /\ brk w' = brk w /\ console_out w' = console_out w
  /\ exists tr, writes w' = writes w ++ tr
                /\ Forall (fun e => write_target e = C) tr.

(** What a rank has printed when it ends. *)
Definition printed {T : Type} (e : rank_end T) : list (console T) :=
  match e with
  | Ended (Done (_, w)) => console_out w
  | Ended (Exit _ w) => console_out w
  | Ended Undefined => []
  | Stalled w => console_out w
  end.

(** The line both programs print for a size that is not positive. *)
Definition size_error {T : Type} : console T := Stderr "Matrix size must be positive".

(** Nothing was allocated or released, and no cell was stored to. *)
Definition memory_untouched {T : Type} (w w' : state T) : Prop :=
  blocks w' = blocks w /\ brk w' = brk w /\ writes w' = writes w /\ heap w' = heap w.

(** The line both programs print when [malloc] fails. *)
Definition alloc_error {T : Type} : console T := Stderr "Memory allocation failed".

(** No block lives at or above the next [malloc] number: the pointers
    still to be handed out are free. *)
Definition below_brk {T : Type} (w : state T) : Prop :=
  forall q, (brk w <= q)%nat -> blocks w !! q = None.

(** [w] after the lines [lines] have been printed. *)
Definition print_lines {T : Type} (lines : list (console T)) (w : state T) : state T :=
  State (blocks w) (heap w) (brk w) (writes w) (console_out w ++ lines).

(** What a rank prints after the reduction: the norm at rank 0, where
    the sum was received, and nothing elsewhere. *)
Definition norm_lines {T : Type} `{Scalar T} (rank : Z) (recv : option T)
    : list (console T) :=
  match recv with
  | Some g => if rank =? 0 then [PrintNorm "||C||_F" (s_sqrt g)] else []
  | None => []
  end.


(** ** Sample processes *)

(** A process holding the 2 x 2 matrices of the smallest run: [A]
    (pointer 0) filled with 1.0, [B] (pointer 1) with 2.0, [C] (pointer 2)
    and [D] (pointer 3) with 0.0, as [main] initialises them. *)
Definition bench : state float :=
  State (<[3%nat := [[0; 0]; [0; 0]]%float]>
           (<[2%nat := [[0; 0]; [0; 0]]%float]>
              (<[1%nat := [[2; 2]; [2; 2]]%float]>
                 (<[0%nat := [[1; 1]; [1; 1]]%float]> ∅))))
        (fun _ => None) 4 [] [].

(** The same process before [main] has initialised anything: the blocks
    hold what [malloc] left there. *)
Definition bench_raw : state float :=
  State (<[3%nat := [[7; 0.5]; [-3; 1024]]%float]>
           (<[2%nat := [[9; 9]; [9; 9]]%float]>
              (<[1%nat := [[infinity; nan]; [0; -1]]%float]>
                 (<[0%nat := [[5; 6]; [7; 8]]%float]> ∅))))
        (fun _ => None) 4 [] [].

(** A [malloc] that never fails and hands out storage in which every
    cell holds 1.0. *)
Definition stale_heap : nat -> option (nat -> float) :=
  fun _ => Some (fun _ => 1%float).

(** A [malloc] for exact cells that never fails and hands out zeros. *)
Definition clean_heap : nat -> option (nat -> Z) := fun _ => Some (fun _ => 0).

(** ** Loops and memory *)

Section MachineFacts.
Context {T : Type} `{Scalar T}.
Open Scope cell_scope.
Implicit Types (w : state T) (b c : block T) (f : nat -> nat -> T).

Lemma for_loop_closed {St : Type} (f : nat -> St)
    (body : nat -> St -> outcome T St) count i0 :
  (forall i, (i0 <= i < i0 + count)%nat -> body i (f i) = Done (f (S i))) ->
  for_loop count i0 body (f i0) = Done (f (i0 + count)%nat).
Proof.
  revert i0. induction count as [|count IH]; intros i0 Hbody; simpl.
  - by rewrite Nat.add_0_r.
  - rewrite Hbody by lia. simpl.
    rewrite IH by (intros; apply Hbody; lia).
    f_equal. f_equal. lia.
Qed.

Lemma insert_prefix {X : Type} (f : nat -> X) (l : list X) (k : nat) :
  (k < length l)%nat ->
  <[k := f k]> (map f (seq 0 k) ++ drop k l) = map f (seq 0 (S k)) ++ drop (S k) l.
Proof.
  intros Hk. destruct (lookup_lt_is_Some_2 l k Hk) as [x Hx].
  rewrite seq_S, map_app, <- app_assoc.
  rewrite insert_app_r_alt; rewrite length_map, length_seq; [|lia].
  by rewrite Nat.sub_diag, (drop_S l x k Hx).
Qed.

Lemma lookup_prefix {X : Type} (f : nat -> X) (l : list X) (k : nat) :
  (map f (seq 0 k) ++ drop k l) !! k = l !! k.
Proof.
  rewrite lookup_app_r; rewrite length_map, length_seq; [|lia].
  rewrite Nat.sub_diag, lookup_drop. f_equal. lia.
Qed.

Lemma shape_lookup rows cols b i row :
  shape rows cols b -> b !! i = Some row -> length row = cols.
Proof. intros [_ Hall] Hi. by eapply (Forall_lookup_1 _ b i row) in Hall. Qed.

Lemma shape_row rows cols b i :
  shape rows cols b -> (i < rows)%nat -> exists row, b !! i = Some row /\ length row = cols.
Proof.
  intros Hs Hi. destruct (lookup_lt_is_Some_2 b i) as [row Hrow]; [destruct Hs; lia|].
  exists row. split; [done|]. by eapply shape_lookup.
Qed.

Lemma shape_insert rows cols b i row :
  shape rows cols b -> length row = cols -> shape rows cols (<[i := row]> b).
Proof.
  intros [Hl Hall] Hrow. split; [by rewrite length_insert|].
  by apply Forall_insert.
Qed.

Lemma shape_table rows cols f : shape rows cols (table rows cols f).
Proof.
  split; unfold table; [by rewrite length_map, length_seq|].
  apply Forall_forall. intros row Hin. apply list_elem_of_In, in_map_iff in Hin.
  destruct Hin as (i & <- & _). by rewrite length_map, length_seq.
Qed.

Lemma get_table rows cols f i j :
  (i < rows)%nat -> (j < cols)%nat -> get (table rows cols f) i j = f i j.
Proof.
  intros Hi Hj. unfold get, table.
  rewrite list_lookup_fmap, lookup_seq_lt by done. simpl.
  by rewrite list_lookup_fmap, lookup_seq_lt.
Qed.

Lemma get_lookup b i j row x :
  b !! i = Some row -> row !! j = Some x -> get b i j = x.
Proof. intros Hi Hj. unfold get. by rewrite Hi, Hj. Qed.

Lemma with_block_id w p b : blocks w !! p = Some b -> with_block w p b [] = w.
Proof.
  intros Hp. destruct w as [bs h k ws out]. unfold with_block. simpl in *.
  by rewrite insert_id, app_nil_r.
Qed.

Lemma load_get w p b rows cols i j :
  blocks w !! p = Some b -> shape rows cols b -> (i < rows)%nat -> (j < cols)%nat ->
  load p i j w = Done (get b i j).
Proof.
  intros Hp Hs Hi Hj. destruct (shape_row _ _ _ i Hs Hi) as (row & Hrow & Hlen).
  destruct (lookup_lt_is_Some_2 row j) as [x Hx]; [lia|].
  unfold load, get. by rewrite Hp, Hrow, Hx.
Qed.

Lemma load_with_block_ne w p q b tr i j :
  q <> p -> load q i j (with_block w p b tr) = load q i j w.
Proof. intros Hne. unfold load, with_block. simpl. by rewrite lookup_insert_ne. Qed.

Lemma load_with_block_eq w p b tr i j row x :
  b !! i = Some row -> row !! j = Some x ->
  load p i j (with_block w p b tr) = Done x.
Proof.
  intros Hi Hj. unfold load, with_block. simpl.
  by rewrite lookup_insert_eq, Hi, Hj.
Qed.

Lemma store_with_block w p b tr i j v row :
  b !! i = Some row -> (j < length row)%nat ->
  store p i j v (with_block w p b tr)
  = Done (with_block w p (<[i := <[j := v]> row]> b) (tr ++ [(p, i, j, v)])).
Proof.
  intros Hi Hj. unfold store, with_block. simpl.
  rewrite lookup_insert_eq, Hi. rewrite decide_True by done.
  by rewrite insert_insert_eq, app_assoc.
Qed.

Lemma flat_map_seq_S {X : Type} (g : nat -> list X) (k : nat) :
  flat_map g (seq 0 (S k)) = flat_map g (seq 0 k) ++ g k.
Proof. rewrite seq_S, flat_map_app. simpl. by rewrite app_nil_r. Qed.

Lemma shape_prefix rows cols c (rowf : nat -> list T) i :
  shape rows cols c -> (forall i, length (rowf i) = cols) -> (i <= rows)%nat ->
  shape rows cols (map rowf (seq 0 i) ++ drop i c).
Proof.
  intros [Hl Hall] Hrow Hi. split.
  - rewrite length_app, length_map, length_seq, length_drop. lia.
  - apply Forall_app. split; [|by apply Forall_drop].
    apply Forall_forall. intros row Hin.
    apply list_elem_of_In, in_map_iff in Hin. by destruct Hin as (k & <- & _).
Qed.

(** One row of such a nest. *)
Lemma fill_row w C rows cols (body : nat -> state T -> outcome T (state T))
    (f : nat -> T) (ev : nat -> list (write_event T)) i b tr row :
  (forall b tr j row,
      shape rows cols b -> b !! i = Some row -> (j < cols)%nat ->
      body j (with_block w C b tr)
      = Done (with_block w C (<[i := <[j := f j]> row]> b) (tr ++ ev j))) ->
  shape rows cols b -> b !! i = Some row ->
  for_loop cols 0 body (with_block w C b tr)
  = Done (with_block w C (<[i := map f (seq 0 cols)]> b)
            (tr ++ flat_map ev (seq 0 cols))).
Proof.
  intros Hbody Hb Hrow.
  pose proof (shape_lookup _ _ _ _ _ Hb Hrow) as Hlen.
  pose proof (lookup_lt_Some _ _ _ Hrow) as Hi.
  pose (st := fun j => with_block w C (<[i := map f (seq 0 j) ++ drop j row]> b)
                         (tr ++ flat_map ev (seq 0 j))).
  assert (H0 : st 0%nat = with_block w C b tr).
  { unfold st. simpl. by rewrite list_insert_id, app_nil_r. }
  assert (Hend : st cols = with_block w C (<[i := map f (seq 0 cols)]> b)
                             (tr ++ flat_map ev (seq 0 cols))).
  { unfold st. by rewrite drop_ge, app_nil_r by lia. }
  rewrite <- H0, <- Hend. apply (for_loop_closed st body cols 0).
  intros j Hj. unfold st.
  erewrite Hbody; [| |by apply list_lookup_insert_eq|lia].
  - rewrite list_insert_insert_eq, insert_prefix by lia.
    by rewrite flat_map_seq_S, app_assoc.
  - apply shape_insert; [done|].
    rewrite length_app, length_map, length_seq, length_drop. lia.
Qed.

(** A loop nest that stores [f i j] into every cell [(i, j)] of block [C],
    row by row, leaves the table of [f] there. *)
Lemma fill_rows w C rows cols (body : nat -> nat -> state T -> outcome T (state T))
    (f : nat -> nat -> T) (ev : nat -> nat -> list (write_event T)) c :
  (forall b tr i j row,
      shape rows cols b -> b !! i = Some row -> (i < rows)%nat -> (j < cols)%nat ->
      body i j (with_block w C b tr)
      = Done (with_block w C (<[i := <[j := f i j]> row]> b) (tr ++ ev i j))) ->
  blocks w !! C = Some c -> shape rows cols c ->
  for_loop rows 0 (fun i => for_loop cols 0 (body i)) w
  = Done (with_block w C (table rows cols f)
            (flat_map (fun i => flat_map (ev i) (seq 0 cols)) (seq 0 rows))).
Proof.
  intros Hbody HC Hc.
  set (rowf := fun i => map (f i) (seq 0 cols)).
  set (rowev := fun i => flat_map (ev i) (seq 0 cols)).
  pose (st := fun i => with_block w C (map rowf (seq 0 i) ++ drop i c)
                         (flat_map rowev (seq 0 i))).
  assert (Hrowf : forall i, length (rowf i) = cols).
  { intros i. unfold rowf. by rewrite length_map, length_seq. }
  assert (H0 : st 0%nat = w).
  { unfold st. simpl. by apply with_block_id. }
  assert (Hend : st rows = with_block w C (table rows cols f) (flat_map rowev (seq 0 rows))).
  { unfold st. destruct Hc as [Hl _]. by rewrite drop_ge, app_nil_r by lia. }
  rewrite <- H0 at 1. rewrite <- Hend.
  apply (for_loop_closed st _ rows 0).
  intros i Hi. unfold st.
  pose proof (shape_prefix rows cols c rowf i Hc Hrowf ltac:(lia)) as Hs.
  destruct (shape_row _ _ _ i Hc ltac:(lia)) as (row & Hrow & Hlen).
  rewrite (fill_row w C rows cols (body i) (f i) (ev i) i _ _ row).
  - fold (rowf i). fold (rowev i).
    rewrite (insert_prefix rowf) by (destruct Hc; lia).
    by rewrite flat_map_seq_S.
  - intros b' tr' j row' Hb' Hrow' Hj. apply Hbody; [done..|lia|done].
  - done.
  - by rewrite lookup_prefix.
Qed.

End MachineFacts.

(** ** The kernels *)

Section KernelFacts.
Context {T : Type} `{Scalar T}.
Open Scope cell_scope.
Implicit Types (w : state T) (a b c : block T).

Lemma dot_upto_S a b k i j :
  dot_upto a b (S k) i j = dot_upto a b k i j ⊕ get a i k ⊗ get b k j.
Proof. unfold dot_upto. by rewrite seq_S, fold_left_app. Qed.

Lemma initialize_matrix_local_run w M rows cols v c :
  blocks w !! M = Some c -> shape (Z.to_nat rows) (Z.to_nat cols) c ->
  initialize_matrix_local M rows cols v w
  = Done (with_block w M (table (Z.to_nat rows) (Z.to_nat cols) (fun _ _ => v))
            (fill_writes M (Z.to_nat rows) (Z.to_nat cols) v)).
Proof.
  intros HM Hc. unfold initialize_matrix_local, for_int.
  apply (fill_rows w M _ _ (fun i j w => store M i j v w)
           (fun _ _ => v) (fun i j => [(M, i, j, v)]) c); [|done..].
  intros b' tr i j row Hb' Hrow Hi Hj.
  apply store_with_block; [done|]. by rewrite (shape_lookup _ _ _ _ _ Hb' Hrow).
Qed.

Lemma matrix_add_local_run w A B C rows cols a b c :
  blocks w !! A = Some a -> blocks w !! B = Some b -> blocks w !! C = Some c ->
  shape (Z.to_nat rows) (Z.to_nat cols) a ->
  shape (Z.to_nat rows) (Z.to_nat cols) b ->
  shape (Z.to_nat rows) (Z.to_nat cols) c ->
  A <> C -> B <> C ->
  matrix_add_local A B C rows cols w
  = Done (with_block w C
            (table (Z.to_nat rows) (Z.to_nat cols) (fun i j => get a i j ⊕ get b i j))
            (sum_writes C a b (Z.to_nat rows) (Z.to_nat cols))).
Proof.
  intros HA HB HC Ha Hb Hc HAC HBC. unfold matrix_add_local, for_int.
  apply (fill_rows w C _ _
           (fun i j w => bind (load A i j w) (fun x =>
                         bind (load B i j w) (fun y => store C i j (x ⊕ y) w)))
           (fun i j => get a i j ⊕ get b i j)
           (fun i j => [(C, i, j, get a i j ⊕ get b i j)]) c); [|done..].
  intros b' tr i j row Hb' Hrow Hi Hj.
  rewrite !load_with_block_ne by done.
  rewrite (load_get w A a _ _ i j HA Ha Hi Hj).
  rewrite (load_get w B b _ _ i j HB Hb Hi Hj). cbn [bind].
  apply store_with_block; [done|]. by rewrite (shape_lookup _ _ _ _ _ Hb' Hrow).
Qed.

Lemma matrix_multiply_local_run w A B C rows n a b c :
  blocks w !! A = Some a -> blocks w !! B = Some b -> blocks w !! C = Some c ->
  shape (Z.to_nat rows) (Z.to_nat n) a ->
  shape (Z.to_nat n) (Z.to_nat n) b ->
  shape (Z.to_nat rows) (Z.to_nat n) c ->
  A <> C -> B <> C ->
  matrix_multiply_local A B C rows n w
  = Done (with_block w C (product a b (Z.to_nat rows) (Z.to_nat n))
            (product_writes C a b (Z.to_nat rows) (Z.to_nat n))).
Proof.
  intros HA HB HC Ha Hb Hc HAC HBC. unfold matrix_multiply_local, for_int.
  set (nn := Z.to_nat n) in *. set (nr := Z.to_nat rows) in *.
  apply (fill_rows w C nr nn
           (fun i j w =>
              bind (store C i j s_zero w) (fun w =>
              for_loop nn 0 (fun k w =>
                bind (load C i j w) (fun x =>
                bind (load A i k w) (fun y =>
                bind (load B k j w) (fun z => store C i j (x ⊕ y ⊗ z) w)))) w))
           (dot_upto a b nn)
           (fun i j => (C, i, j, s_zero)
                         :: map (fun k => (C, i, j, dot_upto a b (S k) i j)) (seq 0 nn))
           c); [|done..].
  intros b' tr i j row Hb' Hrow Hi Hj.
  pose proof (shape_lookup _ _ _ _ _ Hb' Hrow) as Hlen.
  pose proof (lookup_lt_Some _ _ _ Hrow) as Hib.
  rewrite (store_with_block w C b' tr i j s_zero row) by (done || lia). cbn [bind].
  pose (st := fun k => with_block w C (<[i := <[j := dot_upto a b k i j]> row]> b')
                (tr ++ (C, i, j, s_zero)
                       :: map (fun k => (C, i, j, dot_upto a b (S k) i j)) (seq 0 k))).
  change (with_block w C (<[i := <[j := s_zero]> row]> b') (tr ++ [(C, i, j, s_zero)]))
    with (st 0%nat).
  apply (for_loop_closed st _ nn 0).
  intros k Hk. unfold st.
  erewrite load_with_block_eq;
    [|by apply list_lookup_insert_eq|apply list_lookup_insert_eq; lia].
  rewrite !load_with_block_ne by done.
  rewrite (load_get w A a _ _ i k HA Ha) by lia.
  rewrite (load_get w B b _ _ k j HB Hb) by lia. cbn [bind].
  erewrite store_with_block;
    [|by apply list_lookup_insert_eq|rewrite length_insert; lia].
  rewrite !list_insert_insert_eq, <- dot_upto_S.
  by rewrite seq_S, map_app, <- app_assoc.
Qed.

(** The inner loop of the norm adds the squares of one row. *)
Lemma norm_row w A a rows cols i row (sum : T) :
  blocks w !! A = Some a -> shape rows cols a -> a !! i = Some row ->
  for_loop cols 0 (fun j sum => bind (load A i j w) (fun x => Done (sum ⊕ x ⊗ x))) sum
  = Done (fold_left (fun sum x => sum ⊕ x ⊗ x) row sum).
Proof.
  intros HA Ha Hrow.
  pose proof (shape_lookup _ _ _ _ _ Ha Hrow) as Hlen.
  pose (st := fun j => fold_left (fun sum x => sum ⊕ x ⊗ x) (take j row) sum).
  transitivity (Done (T:=T) (st cols));
    [|unfold st; by rewrite take_ge by lia].
  apply (for_loop_closed st _ cols 0). intros j Hj. unfold st.
  destruct (lookup_lt_is_Some_2 row j) as [x Hx]; [lia|].
  unfold load. rewrite HA, Hrow, Hx. cbn [bind].
  by rewrite (take_S_r row j x Hx), fold_left_app.
Qed.

Lemma compute_local_norm_run w A rows cols a :
  blocks w !! A = Some a -> shape (Z.to_nat rows) (Z.to_nat cols) a ->
  compute_local_norm A rows cols w = Done (sum_squares (concat a)).
Proof.
  intros HA Ha. unfold compute_local_norm, for_int, sum_squares.
  pose (st := fun i => fold_left (fun sum x => sum ⊕ x ⊗ x) (concat (take i a)) s_zero).
  transitivity (Done (T:=T) (st (Z.to_nat rows)));
    [|unfold st; destruct Ha; by rewrite take_ge by lia].
  apply (for_loop_closed st _ (Z.to_nat rows) 0). intros i Hi. unfold st.
  destruct (shape_row _ _ _ i Ha ltac:(lia)) as (row & Hrow & Hlen).
  rewrite (norm_row w A a _ _ i row _ HA Ha Hrow).
  by rewrite (take_S_r a i row Hrow), concat_app, fold_left_app; simpl;
    rewrite app_nil_r.
Qed.

Lemma matrix_transpose_run w A AT n a c :
  blocks w !! A = Some a -> blocks w !! AT = Some c ->
  shape (Z.to_nat n) (Z.to_nat n) a -> shape (Z.to_nat n) (Z.to_nat n) c ->
  A <> AT ->
  matrix_transpose A AT n w
  = Done (with_block w AT (table (Z.to_nat n) (Z.to_nat n) (fun i j => get a j i))
            (flat_map (fun i => flat_map (fun j => [(AT, i, j, get a j i)])
                                  (seq 0 (Z.to_nat n))) (seq 0 (Z.to_nat n)))).
Proof.
  intros HA HAT Ha Hc Hne. unfold matrix_transpose, for_int.
  apply (fill_rows w AT _ _
           (fun i j w => bind (load A j i w) (fun x => store AT i j x w))
           (fun i j => get a j i) (fun i j => [(AT, i, j, get a j i)]) c); [|done..].
  intros b' tr i j row Hb' Hrow Hi Hj.
  rewrite load_with_block_ne by done.
  rewrite (load_get w A a _ _ j i HA Ha Hj Hi). cbn [bind].
  apply store_with_block; [done|]. by rewrite (shape_lookup _ _ _ _ _ Hb' Hrow).
Qed.

End KernelFacts.

(** ** Allocation *)

Section AllocationFacts.
Context {T : Type} `{Scalar T}.
Implicit Types (w : state T) (b c : block T).

Lemma fresh_row_Some w k cols g :
  heap w k = Some g -> fresh_row w k cols = map g (seq 0 cols).
Proof. intros Hg. unfold fresh_row. by rewrite Hg. Qed.

Lemma allocate_matrix_local_succeeds w rows cols :
  heap_serves w (Z.to_nat rows) ->
  allocate_matrix_local rows cols w
  = Done (brk w, allocated w (Z.to_nat rows) (Z.to_nat cols)).
Proof.
  intros Hheap. unfold allocate_matrix_local.
  destruct (Hheap (brk w) ltac:(lia)) as [g0 ->].
  set (p := brk w) in *.
  pose (st := fun i =>
    State (<[p := map (fun i => fresh_row w (p + 1 + i) (Z.to_nat cols)) (seq 0 i)]>
             (blocks w))
          (heap w) (S p + i) (writes w) (console_out w)).
  unfold for_int.
  replace (State (<[p:=[]]> (blocks w)) (heap w) (S p) (writes w) (console_out w))
    with (st 0%nat) by (unfold st; simpl; by rewrite Nat.add_0_r).
  rewrite (for_loop_closed st _ (Z.to_nat rows) 0).
  - cbn [bind]. unfold st, allocated, fresh_block. fold p.
    do 2 f_equal. f_equal. lia.
  - intros i Hi. unfold st. cbn [heap brk blocks writes console_out].
    destruct (Hheap (S p + i)%nat ltac:(lia)) as [g Hg]. rewrite Hg.
    rewrite alter_insert_eq, seq_S, map_app. cbn [map].
    rewrite (fresh_row_Some w (p + 1 + (0 + i)) (Z.to_nat cols) g)
      by (rewrite <- Hg; f_equal; lia).
    do 2 f_equal. lia.
Qed.

Lemma allocate_matrix_local_run w rows cols :
  (forall k, is_Some (heap w k)) ->
  allocate_matrix_local rows cols w
  = Done (brk w, allocated w (Z.to_nat rows) (Z.to_nat cols)).
Proof. intros Hheap. apply allocate_matrix_local_succeeds. by intros k _. Qed.

(** The rows of an allocation that returns were all handed out. *)
Lemma allocation_loop_served (matrix cols count i0 : nat) w w' :
  for_loop count i0 (fun (i : nat) w =>
    match heap w (brk w) with
    | None => Exit 1 (print (Stderr "Memory allocation failed") w)
    | Some g =>
        Done (State (alter (fun b => b ++ [map g (seq 0 cols)]) matrix (blocks w))
                    (heap w) (S (brk w)) (writes w) (console_out w))
    end) w = Done w' ->
  forall k, (brk w <= k < brk w + count)%nat -> is_Some (heap w k).
Proof.
  revert i0 w. induction count as [|count IH]; intros i0 w Hrun k Hk; [lia|].
  simpl in Hrun. destruct (heap w (brk w)) as [g|] eqn:Hg; [|done].
  cbn [bind] in Hrun. destruct (decide (k = brk w)) as [->|Hne]; [by eexists|].
  apply (IH _ _ Hrun k). cbn [brk]. lia.
Qed.

Lemma allocate_matrix_local_served w rows cols p w' :
  allocate_matrix_local rows cols w = Done (p, w') ->
  heap_serves w (Z.to_nat rows).
Proof.
  unfold allocate_matrix_local. intros Hrun k Hk.
  destruct (heap w (brk w)) as [g0|] eqn:Hg0; [|done].
  destruct (decide (k = brk w)) as [->|Hne]; [by eexists|].
  unfold for_int in Hrun.
  destruct (for_loop (Z.to_nat rows) 0 _ _) as [w1| |] eqn:Hloop; [|done..].
  apply (allocation_loop_served _ _ _ _ _ _ Hloop k). cbn [brk]. lia.
Qed.

Lemma shape_fresh_block_served w rows cols :
  heap_serves w rows -> shape rows cols (fresh_block w rows cols).
Proof.
  intros Hheap. split; unfold fresh_block; [by rewrite length_map, length_seq|].
  apply Forall_forall. intros row Hin. apply list_elem_of_In, in_map_iff in Hin.
  destruct Hin as (i & <- & Hi%in_seq). unfold fresh_row.
  destruct (Hheap (brk w + 1 + i)%nat ltac:(lia)) as [g ->].
  by rewrite length_map, length_seq.
Qed.

Lemma shape_fresh_block w rows cols :
  (forall k, is_Some (heap w k)) -> shape rows cols (fresh_block w rows cols).
Proof. intros Hheap. apply shape_fresh_block_served. by intros k _. Qed.

(** [malloc] failing at the first call: the program leaves with status 1. *)
Lemma allocate_matrix_local_fails w rows cols :
  heap w (brk w) = None ->
  allocate_matrix_local rows cols w
  = Exit 1 (print (Stderr "Memory allocation failed") w).
Proof. intros Hnone. unfold allocate_matrix_local. by rewrite Hnone. Qed.

Lemma allocate_matrix_eq n w :
  allocate_matrix n w = allocate_matrix_local n n w.
Proof. reflexivity. Qed.

Lemma free_matrix_local_run w p rows b rows' cols :
  blocks w !! p = Some b -> shape rows' cols b -> (Z.to_nat rows <= rows')%nat ->
  free_matrix_local p rows w = Done (freed w p).
Proof.
  intros Hp [Hlen _] Hle. unfold free_matrix_local. rewrite Hp.
  by rewrite decide_True by lia.
Qed.

End AllocationFacts.

(** ** Slices and sums *)

Section SliceFacts.
Context {T : Type} `{Scalar T}.
Open Scope cell_scope.
Implicit Types (a b c : block T) (f : nat -> nat -> T).

Lemma table_ext rows cols f g :
  (forall i j, (i < rows)%nat -> (j < cols)%nat -> f i j = g i j) ->
  table rows cols f = table rows cols g.
Proof.
  intros Hfg. unfold table. apply map_ext_in. intros i Hi%in_seq.
  apply map_ext_in. intros j Hj%in_seq. apply Hfg; lia.
Qed.

Lemma row_slice_table rows cols f start count :
  (start + count <= rows)%nat ->
  row_slice start count (table rows cols f)
  = table count cols (fun i => f (start + i)%nat).
Proof.
  intros Hle. unfold row_slice, table. apply list_eq. intros i.
  destruct (decide (i < count)%nat) as [Hi|Hi].
  - rewrite lookup_take_lt, lookup_drop by done.
    rewrite !list_lookup_fmap, !lookup_seq_lt by lia. done.
  - rewrite lookup_take_ge by lia. symmetry. apply lookup_ge_None.
    rewrite length_map, length_seq. lia.
Qed.

Lemma get_row_slice a start count i k :
  (i < count)%nat -> get (row_slice start count a) i k = get a (start + i) k.
Proof.
  intros Hi. unfold get, row_slice. by rewrite lookup_take_lt, lookup_drop.
Qed.

Lemma dot_upto_ext a a' b k i i' j :
  (forall k', (k' < k)%nat -> get a i k' = get a' i' k') ->
  dot_upto a b k i j = dot_upto a' b k i' j.
Proof.
  induction k as [|k IH]; intros Hget; [done|].
  rewrite !dot_upto_S, IH, Hget by (intros; try apply Hget; lia). done.
Qed.

(** A worker's product is its rows of the whole product. *)
Lemma product_row_slice a b rows n start count :
  (start + count <= rows)%nat ->
  product (row_slice start count a) b count n
  = row_slice start count (product a b rows n).
Proof.
  intros Hle. unfold product. rewrite row_slice_table by done.
  apply table_ext. intros i j Hi Hj. apply dot_upto_ext.
  intros k' _. by apply get_row_slice.
Qed.

(** Consecutive slices laid end to end. *)
Lemma slices_concat {X : Type} (m : list X) (cut : nat -> nat) (k : nat) :
  cut 0%nat = 0%nat ->
  (forall r, (r < k)%nat -> (cut r <= cut (S r))%nat) ->
  concat (map (fun r => take (cut (S r) - cut r) (drop (cut r) m)) (seq 0 k))
  = take (cut k) m.
Proof.
  intros H0 Hmono. induction k as [|k IH].
  - by rewrite H0.
  - rewrite seq_S, map_app, concat_app, IH by (intros; apply Hmono; lia).
    cbn [map concat Nat.add]. rewrite app_nil_r, take_take_drop.
    f_equal. pose proof (Hmono k). lia.
Qed.

End SliceFacts.

Section ReductionFacts.
Context {T : Type} `{Scalar T}.
Open Scope cell_scope.

Hypothesis add_assoc : forall x y z : T, x ⊕ (y ⊕ z) = (x ⊕ y) ⊕ z.
Hypothesis add_zero_l : forall x : T, s_zero ⊕ x = x.
Hypothesis add_zero_r : forall x : T, x ⊕ s_zero = x.
Hypothesis add_comm : forall x y : T, x ⊕ y = y ⊕ x.

Lemma fold_squares_from (acc : T) (l : list T) :
  fold_left (fun sum x => sum ⊕ x ⊗ x) l acc = acc ⊕ sum_squares l.
Proof.
  unfold sum_squares. revert acc. induction l as [|x l IH]; intros acc; simpl.
  - by rewrite add_zero_r.
  - rewrite IH, (IH (s_zero ⊕ x ⊗ x)), add_zero_l. by rewrite add_assoc.
Qed.

Lemma sum_squares_app (l1 l2 : list T) :
  sum_squares (l1 ++ l2) = sum_squares l1 ⊕ sum_squares l2.
Proof.
  unfold sum_squares at 1. rewrite fold_left_app.
  by rewrite fold_squares_from.
Qed.

Lemma reduce_from (ls : list (list T)) (l0 : list T) :
  fold_left s_add (map sum_squares ls) (sum_squares l0)
  = sum_squares (l0 ++ concat ls).
Proof.
  revert l0. induction ls as [|l ls IH]; intros l0; simpl.
  - by rewrite app_nil_r.
  - by rewrite <- sum_squares_app, IH, <- app_assoc.
Qed.

(** Summing the workers' sums of squares gives the sum of squares of
    the whole, when there is a worker. *)
Lemma reduce_sum_squares (ls : list (list T)) :
  ls <> [] -> MPI_Reduce_SUM (map sum_squares ls) = sum_squares (concat ls).
Proof.
  destruct ls as [|l ls]; [done|]. intros _. simpl. apply reduce_from.
Qed.

Lemma reduce_as_fold (sendbufs : list T) :
  MPI_Reduce_SUM sendbufs = fold_left s_add sendbufs s_zero.
Proof. destruct sendbufs as [|x rest]; [done|]. simpl. by rewrite add_zero_l. Qed.

Lemma fold_add_permutation (l l' : list T) :
  Permutation l l' -> forall acc, fold_left s_add l acc = fold_left s_add l' acc.
Proof.
  induction 1 as [|x l l' _ IH|x y l|l l' l'' _ IH1 _ IH2]; intros acc; simpl.
  - done.
  - apply IH.
  - f_equal. by rewrite <- !add_assoc, (add_comm x y).
  - by rewrite IH1, IH2.
Qed.

(** With a commutative sum, the order in which the library combines
    the contributions does not matter. *)
Lemma reduce_permutation (l l' : list T) :
  Permutation l l' -> MPI_Reduce_SUM l = MPI_Reduce_SUM l'.
Proof. intros Hperm. rewrite !reduce_as_fold. by apply fold_add_permutation. Qed.

End ReductionFacts.

(** ** The partition *)

Module PartitionFacts.
Import Partition.

Section Facts.
Variables size global_n : Z.
Hypothesis size_pos : 1 <= size.
Hypothesis n_nonneg : 0 <= global_n.

Let q := global_n ÷ size.
Let m := Z.rem global_n size.

Lemma quot_rem_split : global_n = size * q + m /\ 0 <= m < size /\ 0 <= q.
Proof.
  subst q m. split; [apply Z.quot_rem'; lia|].
  split; [apply Z.rem_bound_pos; lia|].
  apply Z.quot_pos; lia.
Qed.

Lemma local_start_eq rank :
  local_start rank size global_n =
  rank * q + (if rank <? m then rank else m).
Proof. reflexivity. Qed.

Lemma local_end_eq rank :
  local_end rank size global_n =
  rank * q + (if rank <? m then rank else m) + q + (if rank <? m then 1 else 0).
Proof. reflexivity. Qed.

Lemma local_start_0 : local_start 0 size global_n = 0.
Proof.
  rewrite local_start_eq. destruct quot_rem_split as (_ & ? & _).
  destruct (Z.ltb_spec 0 m); lia.
Qed.

Lemma local_end_next rank :
  local_end rank size global_n = local_start (rank + 1) size global_n.
Proof.
  rewrite local_end_eq, local_start_eq.
  destruct (Z.ltb_spec rank m), (Z.ltb_spec (rank + 1) m); lia.
Qed.

Lemma local_start_size : local_start size size global_n = global_n.
Proof.
  rewrite local_start_eq. destruct quot_rem_split as (? & ? & _).
  destruct (Z.ltb_spec size m); lia.
Qed.

Lemma local_start_le_end rank :
  local_start rank size global_n <= local_end rank size global_n.
Proof.
  rewrite local_end_eq, local_start_eq. destruct quot_rem_split as (_ & _ & ?).
  destruct (Z.ltb_spec rank m); lia.
Qed.

Lemma local_start_mono r r' :
  r <= r' -> local_start r size global_n <= local_start r' size global_n.
Proof.
  intros Hle. rewrite !local_start_eq. destruct quot_rem_split as (_ & _ & ?).
  assert (r * q <= r' * q) by nia.
  destruct (Z.ltb_spec r m), (Z.ltb_spec r' m); lia.
Qed.

Lemma local_start_nonneg r : 0 <= r -> 0 <= local_start r size global_n.
Proof. intros. rewrite <- local_start_0. apply local_start_mono; lia. Qed.

Lemma local_end_le_n r : r < size -> local_end r size global_n <= global_n.
Proof.
  intros. rewrite local_end_next. rewrite <- local_start_size at 2.
  apply local_start_mono; lia.
Qed.

(** No intermediate value of [compute_local_chunk] leaves the range of
    [int] when [global_n] is an [int]: the signed arithmetic of the source
    never overflows on valid input. *)
Lemma chunk_within_int rank :
  0 <= rank < size -> global_n <= INT_MAX ->
  0 <= q <= INT_MAX /\ 0 <= m <= INT_MAX
  /\ 0 <= rank * q <= INT_MAX
  /\ 0 <= local_start rank size global_n <= INT_MAX
  /\ 0 <= local_start rank size global_n + q <= INT_MAX
  /\ 0 <= local_end rank size global_n <= INT_MAX.
Proof.
  intros Hrank Hmax. destruct quot_rem_split as (Hsplit & Hm & Hq).
  pose proof (local_start_nonneg rank ltac:(lia)) as Hs.
  pose proof (local_end_le_n rank ltac:(lia)) as He.
  pose proof (local_start_le_end rank) as Hle.
  assert (0 <= rank * q <= size * q) by nia.
  assert (local_start rank size global_n + q <= local_end rank size global_n).
  { rewrite local_end_eq, local_start_eq. destruct (Z.ltb_spec rank m); lia. }
  lia.
Qed.

(** Every row below the start of rank [k] lies in the range of an
    earlier rank. *)
Lemma owner_below (k : nat) i :
  0 <= i < local_start (Z.of_nat k) size global_n ->
  exists r, 0 <= r < Z.of_nat k /\ owns r size global_n i.
Proof.
  induction k as [|k IH]; intros Hi.
  - change (Z.of_nat 0) with 0 in Hi. rewrite local_start_0 in Hi. lia.
  - destruct (Z.lt_ge_cases i (local_start (Z.of_nat k) size global_n)) as [Hlt|Hge].
    + destruct IH as (r & ? & ?); [lia|]. exists r. split; [lia|done].
    + exists (Z.of_nat k). split; [lia|]. unfold owns.
      rewrite local_end_next. replace (Z.of_nat k + 1) with (Z.of_nat (S k)) by lia.
      lia.
Qed.

Lemma owns_unique r r' i :
  owns r size global_n i -> owns r' size global_n i -> r = r'.
Proof.
  unfold owns. rewrite !local_end_next. intros [? ?] [? ?].
  destruct (Z.lt_trichotomy r r') as [Hlt|[->|Hgt]]; [|done|].
  - pose proof (local_start_mono (r + 1) r'). lia.
  - pose proof (local_start_mono (r' + 1) r). lia.
Qed.

(** The ranges of ranks [0 .. k-1] laid end to end are the rows below
    the start of rank [k]. *)
Lemma rows_prefix (k : nat) :
  concat (map (fun rank => rows_of (compute_local_chunk rank size global_n))
              (seqZ 0 (Z.of_nat k)))
  = seqZ 0 (local_start (Z.of_nat k) size global_n).
Proof.
  induction k as [|k IH].
  - change (Z.of_nat 0) with 0. by rewrite local_start_0.
  - replace (Z.of_nat (S k)) with (Z.of_nat k + 1) by lia.
    rewrite seqZ_app by lia. rewrite map_app, concat_app, IH. simpl.
    rewrite app_nil_r. change (Z.of_nat 0 + Z.of_nat k) with (Z.of_nat k).
    unfold rows_of.
    change (compute_local_chunk (Z.of_nat k) size global_n).1
      with (local_start (Z.of_nat k) size global_n).
    change (compute_local_chunk (Z.of_nat k) size global_n).2
      with (local_end (Z.of_nat k) size global_n).
    pose proof (local_start_le_end (Z.of_nat k)).
    pose proof (local_start_nonneg (Z.of_nat k)).
    rewrite <- (local_end_next (Z.of_nat k)).
    set (s := local_start (Z.of_nat k) size global_n) in *.
    set (e := local_end (Z.of_nat k) size global_n) in *.
    transitivity (seqZ 0 (s + (e - s))); [|f_equal; lia].
    rewrite (seqZ_app 0) by lia. by rewrite Z.add_0_l.
Qed.

End Facts.

Lemma cut_0 size global_n : 1 <= size -> 0 <= global_n -> cut size global_n 0 = 0%nat.
Proof. intros. unfold cut. change (Z.of_nat 0) with 0. by rewrite local_start_0. Qed.

Lemma cut_size (size : nat) global_n :
  (1 <= size)%nat -> 0 <= global_n ->
  cut (Z.of_nat size) global_n size = Z.to_nat global_n.
Proof. intros. unfold cut. rewrite local_start_size; lia. Qed.

Lemma cut_S size global_n rank :
  1 <= size -> 0 <= global_n ->
  (cut size global_n rank <= cut size global_n (S rank))%nat.
Proof.
  intros. unfold cut. apply Z2Nat.inj_le.
  - apply local_start_nonneg; lia.
  - apply local_start_nonneg; lia.
  - apply local_start_mono; lia.
Qed.

Lemma local_rows_cut size global_n rank :
  1 <= size -> 0 <= global_n ->
  Z.to_nat (local_rows (Z.of_nat rank) size global_n)
  = (cut size global_n (S rank) - cut size global_n rank)%nat.
Proof.
  intros. unfold local_rows, cut. rewrite local_end_next by done.
  replace (Z.of_nat rank + 1) with (Z.of_nat (S rank)) by lia.
  rewrite Z2Nat.inj_sub; [done|]. apply local_start_nonneg; lia.
Qed.

Lemma cut_le_size (size : nat) global_n rank :
  (1 <= size)%nat -> 0 <= global_n -> (rank <= size)%nat ->
  (cut (Z.of_nat size) global_n rank <= Z.to_nat global_n)%nat.
Proof.
  intros. rewrite <- (cut_size size global_n) by done. unfold cut.
  apply Z2Nat.inj_le.
  - apply local_start_nonneg; lia.
  - apply local_start_nonneg; lia.
  - apply local_start_mono; lia.
Qed.

End PartitionFacts.

(** ** The two programs *)

Section ProgramFacts.
Context {T : Type} `{Scalar T}.
Open Scope cell_scope.
Implicit Types (w : state T) (a b c : block T).

Lemma lookup_with_block_eq w p b tr : blocks (with_block w p b tr) !! p = Some b.
Proof. apply lookup_insert_eq. Qed.

Lemma lookup_with_block_ne w p q b tr :
  p <> q -> blocks (with_block w p b tr) !! q = blocks w !! q.
Proof. intros. by apply lookup_insert_ne. Qed.

Lemma lookup_allocated_eq w rows cols :
  blocks (allocated w rows cols) !! brk w = Some (fresh_block w rows cols).
Proof. apply lookup_insert_eq. Qed.

Lemma lookup_allocated_ne w rows cols q :
  brk w <> q -> blocks (allocated w rows cols) !! q = blocks w !! q.
Proof. intros. by apply lookup_insert_ne. Qed.

Lemma shape_length rows cols b : shape rows cols b -> length b = rows.
Proof. by intros [? _]. Qed.

Lemma lookup_with_block_at w p q b tr :
  q = p -> blocks (with_block w p b tr) !! q = Some b.
Proof. intros ->. apply lookup_insert_eq. Qed.

Lemma lookup_allocated_at w rows cols q :
  q = brk w -> blocks (allocated w rows cols) !! q = Some (fresh_block w rows cols).
Proof. intros ->. apply lookup_insert_eq. Qed.

Lemma lookup_freed_ne w p q : p <> q -> blocks (freed w p) !! q = blocks w !! q.
Proof. intros. by apply lookup_delete_ne. Qed.

Lemma lookup_print w line q : blocks (print line w) !! q = blocks w !! q.
Proof. reflexivity. Qed.

Ltac ptr := cbv [allocated with_block freed print brk]; lia.

Ltac blk :=
  repeat first
    [ rewrite lookup_print
    | rewrite lookup_with_block_at by ptr
    | rewrite lookup_allocated_at by ptr
    | rewrite lookup_with_block_ne by ptr
    | rewrite lookup_allocated_ne by ptr
    | rewrite lookup_freed_ne by ptr ];
  reflexivity.

Ltac shp :=
  first [ apply shape_table
        | apply shape_fresh_block; assumption ].

Lemma chunk_eq rank size n :
  Partition.compute_local_chunk rank size n
  = (Partition.local_start rank size n, Partition.local_end rank size n).
Proof. reflexivity. Qed.

Lemma mpi_main_compute_run rank size argn n w :
  size_arg argn n -> (forall k, is_Some (heap w k)) ->
  let lr := Z.to_nat (Partition.local_rows rank size n) in
  let nn := Z.to_nat n in
  let pA := brk w in
  let pB := (pA + 1 + lr)%nat in
  let pC := (pB + 1 + nn)%nat in
  let pD := (pC + 1 + lr)%nat in
  exists w',
    mpi_main_compute rank size argn w
    = Done (Frame n (Partition.local_rows rank size n) pA pB pC pD
                  (sum_squares (concat (ones_times_twos lr nn))), w')
    /\ console_out w' = console_out w
    /\ blocks w' !! pA = Some (ones lr nn)
    /\ blocks w' !! pB = Some (twos nn nn)
    /\ blocks w' !! pC = Some (ones_times_twos lr nn)
    /\ (exists d, blocks w' !! pD = Some d /\ shape lr nn d).
Proof.
  intros Hn Hheap lr nn pA pB pC pD. unfold mpi_main_compute.
  assert (Hparse : match argn with
                   | Some v => if v <=? 0
                               then Exit 1 (if rank =? 0
                                 then print (Stderr "Matrix size must be positive") w
                                 else w)
                               else Done v
                   | None => Done 500
                   end = Done (T:=T) n).
  { destruct Hn as [[-> Hpos]|[-> ->]]; [|done].
    destruct (Z.leb_spec n 0); [lia|done]. }
  rewrite Hparse. cbn [bind].
  rewrite chunk_eq. cbv beta iota zeta.
  fold (Partition.local_rows rank size n).
  subst pA pB pC pD.
  do 4 (rewrite allocate_matrix_local_run by exact Hheap; cbn [bind]).
  fold lr nn.
  erewrite initialize_matrix_local_run; [|blk|shp]. cbn [bind].
  erewrite initialize_matrix_local_run; [|blk|shp]. cbn [bind].
  erewrite initialize_matrix_local_run; [|blk|shp]. cbn [bind].
  erewrite initialize_matrix_local_run; [|blk|shp]. cbn [bind].
  erewrite matrix_multiply_local_run; [|blk|blk|blk|shp|shp|shp|ptr|ptr].
  cbn [bind].
  erewrite matrix_add_local_run; [|blk|blk|blk|shp|shp|shp|ptr|ptr].
  cbn [bind].
  erewrite compute_local_norm_run; [|blk|shp]. cbn [bind].
  eexists. split; [reflexivity|].
  split; [reflexivity|]. split; [blk|]. split; [blk|]. split; [blk|].
  eexists. split; [blk|shp].
Qed.

Lemma mpi_main_finish_run rank n lrZ pA pB pC pD norm recv w bA bB bC bD :
  blocks w !! pA = Some bA -> blocks w !! pB = Some bB ->
  blocks w !! pC = Some bC -> blocks w !! pD = Some bD ->
  shape (Z.to_nat lrZ) (Z.to_nat n) bA -> shape (Z.to_nat n) (Z.to_nat n) bB ->
  shape (Z.to_nat lrZ) (Z.to_nat n) bC -> shape (Z.to_nat lrZ) (Z.to_nat n) bD ->
  pA <> pB -> pA <> pC -> pA <> pD -> pB <> pC -> pB <> pD -> pC <> pD ->
  (rank = 0 -> is_Some recv) ->
  exists w',
    mpi_main_finish rank (Frame n lrZ pA pB pC pD norm) recv w = Done (0, w')
    /\ console_out w'
       = console_out w
         ++ match recv with
            | Some g => if rank =? 0 then [PrintNorm "||C||_F" (s_sqrt g)] else []
            | None => []
            end.
Proof.
  intros HA HB HC HD SA SB SC SD ? ? ? ? ? ? Hrecv. unfold mpi_main_finish.
  cbn [fr_A_local fr_B fr_C_local fr_D_local fr_local_rows fr_global_n].
  assert (exists w1, (if rank =? 0
                      then match recv with
                           | Some g => Done (print (PrintNorm "||C||_F" (s_sqrt g)) w)
                           | None => Undefined
                           end
                      else Done w) = Done w1
                     /\ blocks w1 = blocks w
                     /\ console_out w1
                        = console_out w
                          ++ match recv with
                             | Some g => if rank =? 0
                                         then [PrintNorm "||C||_F" (s_sqrt g)] else []
                             | None => []
                             end) as (w1 & -> & Hb1 & Hout).
  { destruct (Z.eqb_spec rank 0) as [Hr|Hr].
    - destruct (Hrecv Hr) as [g ->]. by eexists.
    - exists w. split; [done|]. split; [done|].
      destruct recv; by rewrite app_nil_r. }
  cbn [bind]. rewrite <- Hb1 in HA, HB, HC, HD.
  erewrite free_matrix_local_run; [|exact HA|exact SA|lia]. cbn [bind].
  erewrite free_matrix_local_run;
    [|rewrite lookup_freed_ne by done; exact HB|exact SB|lia]. cbn [bind].
  erewrite free_matrix_local_run;
    [|rewrite !lookup_freed_ne by done; exact HC|exact SC|lia]. cbn [bind].
  erewrite free_matrix_local_run;
    [|rewrite !lookup_freed_ne by done; exact HD|exact SD|lia]. cbn [bind].
  eexists. split; [reflexivity|]. exact Hout.
Qed.

Lemma initialize_matrix_eq M n v w :
  initialize_matrix M n v w = initialize_matrix_local M n n v w.
Proof. reflexivity. Qed.

Lemma matrix_multiply_eq A B C n w :
  matrix_multiply A B C n w = matrix_multiply_local A B C n n w.
Proof. reflexivity. Qed.

Lemma matrix_add_eq A B C n w :
  matrix_add A B C n w = matrix_add_local A B C n n w.
Proof. reflexivity. Qed.

Lemma compute_frobenius_norm_eq A n w :
  compute_frobenius_norm A n w
  = bind (compute_local_norm A n n w) (fun sum => Done (s_sqrt sum)).
Proof. reflexivity. Qed.

Lemma free_matrix_eq M n w : free_matrix M n w = free_matrix_local M n w.
Proof. reflexivity. Qed.

Lemma serial_main_run argn n w :
  size_arg argn n -> (forall k, is_Some (heap w k)) ->
  let nn := Z.to_nat n in
  exists w',
    serial_main argn w = Done (0, w')
    /\ console_out w'
       = console_out w
         ++ [PrintNorm "||C||_F" (s_sqrt (sum_squares (concat (ones_times_twos nn nn))));
             PrintNorm "||D||_F" (s_sqrt (sum_squares (concat (product_plus_ones nn nn))))].
Proof.
  intros Hn Hheap nn. unfold serial_main.
  assert (Hparse : match argn with
                   | Some v => if v <=? 0
                               then Exit 1 (print (Stderr "Matrix size must be positive") w)
                               else Done v
                   | None => Done 500
                   end = Done (T:=T) n).
  { destruct Hn as [[-> Hpos]|[-> ->]]; [|done].
    destruct (Z.leb_spec n 0); [lia|done]. }
  rewrite Hparse. cbn [bind].
  do 5 (rewrite allocate_matrix_eq, allocate_matrix_local_run by exact Hheap;
        cbn [bind]).
  fold nn.
  do 5 (rewrite initialize_matrix_eq;
        erewrite initialize_matrix_local_run; [|blk|shp]; cbn [bind]).
  rewrite matrix_multiply_eq.
  erewrite matrix_multiply_local_run; [|blk|blk|blk|shp|shp|shp|ptr|ptr].
  cbn [bind]. rewrite matrix_add_eq.
  erewrite matrix_add_local_run; [|blk|blk|blk|shp|shp|shp|ptr|ptr].
  cbn [bind].
  erewrite matrix_transpose_run; [|blk|blk|shp|shp|ptr]. cbn [bind].
  do 2 (rewrite compute_frobenius_norm_eq;
        erewrite compute_local_norm_run; [|blk|shp]; cbn [bind]).
  cbv zeta.
  do 5 (rewrite free_matrix_eq;
        erewrite free_matrix_local_run; [|blk|shp|fold nn; lia]; cbn [bind]).
  eexists. split; [reflexivity|].
  cbn [console_out freed print with_block allocated].
  by rewrite <- app_assoc.
Qed.

Lemma gather_Done {X A : Type} (f : X -> outcome T A) (P : X -> A -> Prop)
    (l : list X) :
  (forall x, In x l -> exists y, f x = Done y /\ P x y) ->
  exists l', gather (map f l) = Some l' /\ Forall2 P l l'.
Proof.
  induction l as [|x l IH]; intros Hall.
  - exists []. by split.
  - destruct (Hall x ltac:(by left)) as (y & Hfx & HP).
    destruct IH as (l' & Hg & HF); [intros x' Hx'; apply Hall; by right|].
    exists (y :: l'). split; [|by constructor].
    simpl. by rewrite Hfx, Hg.
Qed.

Lemma imap_choose {A B C : Type} (g : nat -> A -> B) (h : C -> B)
    (Q : nat -> C -> Prop) (l : list A) :
  (forall i y, l !! i = Some y -> exists z, g i y = h z /\ Q i z) ->
  exists zs, imap g l = map h zs /\ length zs = length l
             /\ forall i z, zs !! i = Some z -> Q i z.
Proof.
  revert g Q. induction l as [|y l IH]; intros g Q Hall.
  - exists []. by repeat split.
  - destruct (Hall 0%nat y eq_refl) as (z & Hz & HQ).
    destruct (IH (fun i => g (S i)) (fun i => Q (S i))) as (zs & Hzs & Hlen & HQs).
    { intros i y' Hi. by apply (Hall (S i)). }
    exists (z :: zs). split; [|split].
    + simpl. by rewrite Hz, <- Hzs.
    + simpl. by rewrite Hlen.
    + intros [|i] z' Hi; simpl in Hi; [by injection Hi as <-|by apply HQs].
Qed.

Lemma Forall2_map_eq {X A B : Type} (P : X -> A -> Prop) (h : A -> B) (k : X -> B)
    (l : list X) (l' : list A) :
  Forall2 P l l' -> (forall x y, P x y -> h y = k x) -> map h l' = map k l.
Proof.
  intros HF Hhk. induction HF as [|x y l l' HP _ IH]; [done|].
  simpl. by rewrite (Hhk x y HP), IH.
Qed.

(** A run of the distributed program in which every [malloc] succeeds:
    every rank returns 0, and rank 0 alone prints one line, the square
    root of the reduced sum. *)
Lemma mpi_program_run heaps (size : nat) argn n :
  size_arg argn n -> (forall rank k, is_Some (heaps rank k)) ->
  exists finals : list (state T),
    mpi_program heaps size argn = map (fun w => Ended (Done (0, w))) finals
    /\ length finals = size
    /\ forall rank w, finals !! rank = Some w ->
         console_out w
         = match rank with
           | O => [PrintNorm "||C||_F"
                     (s_sqrt (MPI_Reduce_SUM (map (contribution size n) (seq 0 size))))]
           | S _ => []
           end.
Proof.
  intros Hn Hheaps. unfold mpi_program.
  set (G := MPI_Reduce_SUM (map (contribution size n) (seq 0 size))).
  pose (ready := fun (rank : nat) (p : mpi_frame T * state T) =>
    exists pA pB pC pD bA bB bC bD,
      let lrZ := Partition.local_rows (Z.of_nat rank) (Z.of_nat size) n in
      fst p = Frame n lrZ pA pB pC pD (contribution size n rank)
      /\ console_out (snd p) = []
      /\ blocks (snd p) !! pA = Some bA /\ blocks (snd p) !! pB = Some bB
      /\ blocks (snd p) !! pC = Some bC /\ blocks (snd p) !! pD = Some bD
      /\ shape (Z.to_nat lrZ) (Z.to_nat n) bA /\ shape (Z.to_nat n) (Z.to_nat n) bB
      /\ shape (Z.to_nat lrZ) (Z.to_nat n) bC /\ shape (Z.to_nat lrZ) (Z.to_nat n) bD
      /\ pA <> pB /\ pA <> pC /\ pA <> pD /\ pB <> pC /\ pB <> pD /\ pC <> pD).
  destruct (gather_Done
              (fun rank => mpi_main_compute (Z.of_nat rank) (Z.of_nat size) argn
                                            (initial (heaps rank)))
              ready (seq 0 size)) as (reached & -> & Hready).
  { intros rank _.
    destruct (mpi_main_compute_run (Z.of_nat rank) (Z.of_nat size) argn n
                (initial (heaps rank)) Hn (Hheaps rank))
      as (w' & Hrun & Hout & HA & HB & HC & d & HD & Hd).
    eexists. split; [exact Hrun|].
    unfold ready. do 7 eexists. exists d.
    cbn [fst snd]. split; [reflexivity|]. split; [exact Hout|].
    split; [exact HA|]. split; [exact HB|]. split; [exact HC|]. split; [exact HD|].
    split; [apply shape_table|]. split; [apply shape_table|].
    split; [apply shape_table|]. split; [exact Hd|].
    cbn [initial brk]. repeat split; lia. }
  cbv zeta.
  rewrite (Forall2_map_eq ready (fun p => fr_local_norm (fst p)) (contribution size n)
             (seq 0 size) reached Hready).
  2:{ intros rank p (pA & pB & pC & pD & bA & bB & bC & bD & Hfr & _).
      by rewrite Hfr. }
  fold G.
  destruct (imap_choose
              (fun rank (p : mpi_frame T * state T) =>
                 Ended (mpi_main_finish (Z.of_nat rank) (fst p)
                          (match rank with O => Some G | S _ => None end) (snd p)))
              (fun w => Ended (Done (0, w)))
              (fun rank w => console_out w
                             = match rank with
                               | O => [PrintNorm "||C||_F" (s_sqrt G)]
                               | S _ => []
                               end)
              reached) as (finals & Hmap & Hlen & Hfinals).
  { intros rank p Hp.
    destruct (Forall2_lookup_r _ _ _ _ _ Hready Hp) as (rank' & Hrank' & Hp').
    apply lookup_seq in Hrank' as [-> _]. cbn [Nat.add] in Hp'.
    destruct Hp' as (pA & pB & pC & pD & bA & bB & bC & bD & Hfr & Hout & HA & HB
                     & HC & HD & SA & SB & SC & SD & ? & ? & ? & ? & ? & ?).
    rewrite Hfr.
    destruct (mpi_main_finish_run (Z.of_nat rank) n
                (Partition.local_rows (Z.of_nat rank) (Z.of_nat size) n)
                pA pB pC pD
                (contribution size n rank)
                (match rank with O => Some G | S _ => None end) (snd p)
                bA bB bC bD) as (w' & Hrun & Hout'); try done.
    { intros Hr. destruct rank; [by eexists|lia]. }
    exists w'. split; [by rewrite Hrun|].
    rewrite Hout', Hout. by destruct rank. }
  exists finals. split; [exact Hmap|]. split; [|exact Hfinals].
  rewrite Hlen, <- (Forall2_length _ _ _ Hready). apply length_seq.
Qed.

End ProgramFacts.

(** ** Partitioning does not change the sum *)

Section DistributedSum.
Context {T : Type} `{Scalar T}.
Open Scope cell_scope.
Import Partition PartitionFacts.

Hypothesis add_assoc : forall x y z : T, x ⊕ (y ⊕ z) = (x ⊕ y) ⊕ z.
Hypothesis add_zero_l : forall x : T, s_zero ⊕ x = x.
Hypothesis add_zero_r : forall x : T, x ⊕ s_zero = x.

Lemma concat_map_concat {X Y : Type} (g : X -> list (list Y)) (l : list X) :
  concat (map (fun x => concat (g x)) l) = concat (concat (map g l)).
Proof.
  induction l as [|x l IH]; [done|]. simpl. by rewrite concat_app, IH.
Qed.

Lemma rank_slices_concat (size : nat) (n : Z) (m : block T) :
  (1 <= size)%nat -> 0 <= n -> length m = Z.to_nat n ->
  concat (map (fun rank => rank_slice size n rank m) (seq 0 size)) = m.
Proof.
  intros Hsize Hn Hlen.
  transitivity (take (cut (Z.of_nat size) n size) m);
    [|apply take_ge; rewrite cut_size by done; lia].
  rewrite <- (slices_concat m (cut (Z.of_nat size) n) size).
  - f_equal. apply map_ext. intros rank.
    unfold rank_slice, row_slice. by rewrite local_rows_cut by lia.
  - apply cut_0; lia.
  - intros r _. apply cut_S; lia.
Qed.

(** Each worker multiplies its rows of [a] by [b] and sums the squares
    of its block; the reduction of these sums is the sum of squares of
    the whole product. *)
Lemma distributed_sum_squares (size : nat) (n : Z) (a b : block T) :
  (1 <= size)%nat -> 0 <= n ->
  MPI_Reduce_SUM
    (map (fun rank =>
            sum_squares
              (concat (product (rank_slice size n rank a) b
                         (Z.to_nat (Partition.local_rows (Z.of_nat rank)
                                      (Z.of_nat size) n))
                         (Z.to_nat n))))
         (seq 0 size))
  = sum_squares (concat (product a b (Z.to_nat n) (Z.to_nat n))).
Proof.
  intros Hsize Hn.
  set (whole := product a b (Z.to_nat n) (Z.to_nat n)).
  transitivity (MPI_Reduce_SUM
                  (map sum_squares
                     (map (fun rank => concat (rank_slice size n rank whole))
                          (seq 0 size)))).
  - f_equal. rewrite map_map. apply map_ext_in. intros rank Hrank%in_seq.
    unfold rank_slice. rewrite (product_row_slice a b (Z.to_nat n)); [done|].
    rewrite local_rows_cut by lia.
    pose proof (cut_S (Z.of_nat size) n rank ltac:(lia) Hn).
    pose proof (cut_le_size size n (S rank) Hsize Hn ltac:(lia)). lia.
  - rewrite reduce_sum_squares by (done || (destruct size; [lia|done])).
    rewrite concat_map_concat, rank_slices_concat; [done..|].
    apply shape_length with (cols := Z.to_nat n). apply shape_table.
Qed.

Lemma ones_rank_slice (size : nat) (n : Z) (rank : nat) :
  (1 <= size)%nat -> 0 <= n -> (rank < size)%nat ->
  ones (Z.to_nat (Partition.local_rows (Z.of_nat rank) (Z.of_nat size) n)) (Z.to_nat n)
  = rank_slice size n rank (ones (Z.to_nat n) (Z.to_nat n)).
Proof.
  intros Hsize Hn Hrank. unfold rank_slice, ones.
  rewrite row_slice_table; [done|].
  rewrite local_rows_cut by lia.
  pose proof (cut_S (Z.of_nat size) n rank ltac:(lia) Hn).
  pose proof (cut_le_size size n (S rank) Hsize Hn ltac:(lia)). lia.
Qed.

(** The reduced sum of the distributed program is the sum of the serial
    program. *)
Lemma reduced_contributions (size : nat) (n : Z) :
  (1 <= size)%nat -> 0 <= n ->
  MPI_Reduce_SUM (map (contribution size n) (seq 0 size))
  = sum_squares (concat (ones_times_twos (Z.to_nat n) (Z.to_nat n))).
Proof.
  intros Hsize Hn. unfold ones_times_twos at 1.
  rewrite <- (distributed_sum_squares size n (ones (Z.to_nat n) (Z.to_nat n))
                (twos (Z.to_nat n) (Z.to_nat n)) Hsize Hn).
  f_equal. apply map_ext_in. intros rank Hrank%in_seq.
  unfold contribution, ones_times_twos. by rewrite ones_rank_slice by lia.
Qed.

End DistributedSum.

(** ** What a kernel may change *)

Section FrameFacts.
Context {T : Type} `{Scalar T}.
Open Scope cell_scope.
Implicit Types (w : state T).

Lemma touches_only_refl C w : touches_only C w w.
Proof.
  repeat split; try done. exists []. split; [by rewrite app_nil_r|constructor].
Qed.

Lemma touches_only_trans C w1 w2 w3 :
  touches_only C w1 w2 -> touches_only C w2 w3 -> touches_only C w1 w3.
Proof.
  intros (Hb & Hh & Hk & Hc & tr & Hw & Htr) (Hb' & Hh' & Hk' & Hc' & tr' & Hw' & Htr').
  split; [intros q Hq; by rewrite Hb', Hb|]. repeat split; try congruence.
  exists (tr ++ tr'). split; [by rewrite Hw', Hw, app_assoc|by apply Forall_app].
Qed.

Lemma store_touches_only C i j v w w' :
  store C i j v w = Done w' -> touches_only C w w'.
Proof.
  unfold store. intros Hrun.
  destruct (blocks w !! C) as [b|]; [|done].
  destruct (b !! i) as [row|]; [|done].
  destruct (decide (j < length row)%nat); [|done].
  injection Hrun as <-. split; [intros q Hq; cbn; by rewrite lookup_insert_ne|].
  repeat split. exists [(C, i, j, v)]. split; [done|]. by repeat constructor.
Qed.

(** A loop whose body steps along a preorder steps along it as a whole. *)
Lemma for_loop_along {St : Type} (R : St -> St -> Prop)
    (body : nat -> St -> outcome T St) count i0 s s' :
  (forall s, R s s) -> (forall s1 s2 s3, R s1 s2 -> R s2 s3 -> R s1 s3) ->
  (forall i s s', body i s = Done s' -> R s s') ->
  for_loop count i0 body s = Done s' -> R s s'.
Proof.
  intros Hrefl Htrans Hbody. revert i0 s.
  induction count as [|count IH]; intros i0 s Hrun; simpl in Hrun.
  - injection Hrun as <-. apply Hrefl.
  - destruct (body i0 s) as [s1| |] eqn:Hstep; [|done..]. cbn [bind] in Hrun.
    eapply Htrans; [by eapply Hbody|by eapply IH].
Qed.

Ltac open_bind :=
  repeat match goal with
         | Hrun : bind ?c _ = Done _ |- _ =>
             let Hc := fresh "Hc" in
             destruct c eqn:Hc; cbn [bind] in Hrun; [|discriminate Hrun..]
         end.

Lemma matrix_multiply_local_touches A B C rows n w w' :
  matrix_multiply_local A B C rows n w = Done w' -> touches_only C w w'.
Proof.
  unfold matrix_multiply_local, for_int.
  apply for_loop_along;
    [apply touches_only_refl|apply touches_only_trans|intros i w1 w1'].
  apply for_loop_along;
    [apply touches_only_refl|apply touches_only_trans|intros j w2 w2' Hrun].
  open_bind. eapply touches_only_trans; [by eapply store_touches_only|].
  revert Hrun. apply for_loop_along;
    [apply touches_only_refl|apply touches_only_trans|intros k w3 w3' Hrun].
  open_bind. by eapply store_touches_only.
Qed.

Lemma matrix_add_local_touches A B C rows cols w w' :
  matrix_add_local A B C rows cols w = Done w' -> touches_only C w w'.
Proof.
  unfold matrix_add_local, for_int.
  apply for_loop_along;
    [apply touches_only_refl|apply touches_only_trans|intros i w1 w1'].
  apply for_loop_along;
    [apply touches_only_refl|apply touches_only_trans|intros j w2 w2' Hrun].
  open_bind. by eapply store_touches_only.
Qed.

End FrameFacts.

(** * The claims *)

(** ** The partitioner *)

Section PartitionClaims.
Import Partition PartitionFacts.

(** C1. For every [n >= 0] and [size >= 1] the row ranges that
  [compute_local_chunk] gives the ranks [0 .. size-1] lie inside
  [[0, n)], every row of [[0, n)] is in the range of exactly one rank, two
  different ranks share no row, and the ranges laid end to end in rank
  order are the rows [0, 1, ..., n-1], each once. When [n < size] the
  ranks from [n] on have an empty range, and when [n = 0] every range is
  empty. *)
Theorem chunks_partition_the_rows (n size : Z) :
0 <= n -> 1 <= size ->
(forall rank, 0 <= rank < size ->
   0 <= local_start rank size n <= local_end rank size n
   /\ local_end rank size n <= n)
/\ (forall i, 0 <= i < n ->
      exists rank, 0 <= rank < size /\ owns rank size n i
        /\ forall rank', owns rank' size n i -> rank' = rank)
/\ (forall rank rank' i,
      rank <> rank' -> ~ (owns rank size n i /\ owns rank' size n i))
/\ all_rows size n = seqZ 0 n
/\ (n < size -> forall rank, n <= rank < size ->
      local_start rank size n = local_end rank size n)
/\ (n = 0 -> forall rank, 0 <= rank < size ->
      local_start rank size n = local_end rank size n).
Proof.
intros Hn Hsize. repeat split.
- apply local_start_nonneg; lia.
- by apply local_start_le_end.
- apply local_end_le_n; lia.
- intros i Hi.
  destruct (owner_below size n Hsize Hn (Z.to_nat size) i) as (rank & Hrank & Hown).
  { rewrite Z2Nat.id by lia. rewrite local_start_size by done. lia. }
  exists rank. split; [lia|]. split; [done|].
  intros rank' Hown'. by apply (owns_unique size n Hsize Hn rank' rank i).
- intros rank rank' i Hne [Hown Hown']. apply Hne.
  by apply (owns_unique size n Hsize Hn rank rank' i).
- unfold all_rows. rewrite <- (Z2Nat.id size) by lia.
  rewrite (rows_prefix (Z.of_nat (Z.to_nat size)) n) by lia.
  by rewrite local_start_size by lia.
- intros Hlt rank Hrank.
  pose proof (local_start_le_end size n Hsize Hn rank) as Hle.
  pose proof (local_start_mono size n Hsize Hn n rank ltac:(lia)) as Hmono.
  pose proof (local_end_le_n size n Hsize Hn rank ltac:(lia)) as Hend.
  assert (local_start n size n = n); [|lia].
  rewrite local_start_eq.
  rewrite (Z.quot_small n size), (Z.rem_small n size) by lia.
  rewrite Z.ltb_irrefl. lia.
- intros -> rank Hrank.
  pose proof (local_start_le_end size 0 Hsize Hn rank).
  pose proof (local_start_nonneg size 0 Hsize Hn rank ltac:(lia)).
  pose proof (local_end_le_n size 0 Hsize Hn rank ltac:(lia)). lia.
Qed.

Lemma chunks_partition_the_rows_witness :
all_rows 3 4 = seqZ 0 4
/\ exists rank, 0 <= rank < 3 /\ owns rank 3 4 2.
Proof.
destruct (chunks_partition_the_rows 4 3 ltac:(lia) ltac:(lia))
  as (_ & Hcover & _ & Hall & _).
split; [exact Hall|].
destruct (Hcover 2 ltac:(lia)) as (rank & Hrank & Hown & _). by exists rank.
Defined.

(** C2. For [0 <= rank < size] and [n >= 0], [compute_local_chunk] returns
  [start = rank * (n / size) + min rank (n mod size)] and
  [end = start + n / size + (1 if rank < n mod size, else 0)]. So a rank
  below [n mod size] has [n / size + 1] rows and every other rank
  [n / size]: the counts of two ranks differ by at most one and do not
  grow with the rank. For [n = 4] and [size = 3] the ranges are
  [[0,2)], [[2,3)], [[3,4)]. *)
Theorem chunk_closed_form (rank size n : Z) :
0 <= rank < size -> 0 <= n ->
compute_local_chunk rank size n
= (rank * (n / size) + Z.min rank (n mod size),
   rank * (n / size) + Z.min rank (n mod size)
   + n / size + (if rank <? n mod size then 1 else 0))
/\ local_rows rank size n = n / size + (if rank <? n mod size then 1 else 0)
/\ (forall rank', 0 <= rank' < size ->
      Z.abs (local_rows rank size n - local_rows rank' size n) <= 1)
/\ (forall rank', rank <= rank' < size ->
      local_rows rank' size n <= local_rows rank size n)
/\ compute_local_chunk 0 3 4 = (0, 2)
/\ compute_local_chunk 1 3 4 = (2, 3)
/\ compute_local_chunk 2 3 4 = (3, 4).
Proof.
intros Hrank Hn.
assert (Hrows : forall r, 0 <= r < size ->
          local_rows r size n = n / size + (if r <? n mod size then 1 else 0)).
{ intros r Hr. unfold local_rows, local_end, local_start, compute_local_chunk.
  cbn [fst snd]. rewrite Z.quot_div_nonneg, Z.rem_mod_nonneg by lia. lia. }
split; [|split; [by apply Hrows|split; [|split; [|done]]]].
- unfold compute_local_chunk.
  rewrite Z.quot_div_nonneg, Z.rem_mod_nonneg by lia.
  destruct (Z.ltb_spec rank (n mod size)).
  + by rewrite Z.min_l by lia.
  + by rewrite Z.min_r by lia.
- intros rank' Hrank'. rewrite !Hrows by done.
  destruct (Z.ltb_spec rank (n mod size)), (Z.ltb_spec rank' (n mod size)); lia.
- intros rank' Hrank'. rewrite !Hrows by lia.
  destruct (Z.ltb_spec rank (n mod size)), (Z.ltb_spec rank' (n mod size)); lia.
Qed.

Lemma chunk_closed_form_witness :
compute_local_chunk 1 3 4 = (1 * (4 / 3) + Z.min 1 (4 mod 3),
                             1 * (4 / 3) + Z.min 1 (4 mod 3) + 4 / 3
                             + (if 1 <? 4 mod 3 then 1 else 0))
/\ local_rows 1 3 4 = 4 / 3 + (if 1 <? 4 mod 3 then 1 else 0).
Proof.
destruct (chunk_closed_form 1 3 4 ltac:(lia) ltac:(lia)) as (Hchunk & Hrows & _).
by split.
Defined.

End PartitionClaims.

(** ** The kernels *)

Lemma shape_2_2 (x00 x01 x10 x11 : float) : shape 2 2 [[x00; x01]; [x10; x11]].
Proof. split; [reflexivity|]. by repeat constructor. Qed.

Open Scope cell_scope.

(** C3. Let [A] point to a [rows] x [n] block [a], [B] to an [n] x [n]
    block [b] and [C] to a [rows] x [n] block other than these two. Then
    [matrix_multiply_local] returns, and afterwards every cell [C[i][j]]
    with [i < rows], [j < n] holds
    [((0.0 + a[i][0]*b[0][j]) + a[i][1]*b[1][j]) + ... + a[i][n-1]*b[n-1][j]],
    the terms added in increasing [k]. Its stores, in program order, are
    for each [i] in increasing order, for each [j] in increasing order, the
    store of [0.0] to [C[i][j]] followed by the stores of the running sums
    for [k = 0, 1, ..., n-1]. [matrix_multiply] of the serial program does
    the same with [rows = n]. Nothing is asked of the entries. *)
Theorem multiply_accumulates_in_order {T : Type} `{Scalar T} (w : state T)
    (A B C : nat) (rows n : Z) (a b c : block T) :
  blocks w !! A = Some a -> blocks w !! B = Some b -> blocks w !! C = Some c ->
  shape (Z.to_nat rows) (Z.to_nat n) a ->
  shape (Z.to_nat n) (Z.to_nat n) b ->
  shape (Z.to_nat rows) (Z.to_nat n) c ->
  A <> C -> B <> C ->
  exists w',
    matrix_multiply_local A B C rows n w = Done w'
    /\ (forall i j, (i < Z.to_nat rows)%nat -> (j < Z.to_nat n)%nat ->
          load C i j w'
          = Done (fold_left (fun acc k => acc ⊕ get a i k ⊗ get b k j)
                            (seq 0 (Z.to_nat n)) s_zero))
    /\ writes w'
       = writes w
         ++ flat_map (fun i =>
              flat_map (fun j =>
                (C, i, j, s_zero)
                  :: map (fun k =>
                            (C, i, j,
                             fold_left (fun acc k => acc ⊕ get a i k ⊗ get b k j)
                                       (seq 0 (S k)) s_zero))
                         (seq 0 (Z.to_nat n)))
                (seq 0 (Z.to_nat n)))
              (seq 0 (Z.to_nat rows))
    /\ (rows = n -> matrix_multiply A B C n w = Done w').
Proof.
  intros HA HB HC Ha Hb Hc HAC HBC.
  eexists. split; [by eapply matrix_multiply_local_run|]. split; [|split].
  - intros i j Hi Hj.
    erewrite load_get; [|apply lookup_with_block_eq|apply shape_table|done..].
    unfold product. by rewrite get_table.
  - reflexivity.
  - intros ->. rewrite matrix_multiply_eq. by eapply matrix_multiply_local_run.
Qed.

Lemma multiply_accumulates_in_order_witness :
  exists w',
    matrix_multiply_local 0 1 2 2 2 bench = Done w'
    /\ load 2 1 0 w' = Done 4%float
    /\ matrix_multiply 0 1 2 2 bench = Done w'.
Proof.
  destruct (multiply_accumulates_in_order bench 0 1 2 2 2
              [[1; 1]; [1; 1]]%float [[2; 2]; [2; 2]]%float [[0; 0]; [0; 0]]%float
              eq_refl eq_refl eq_refl (shape_2_2 _ _ _ _) (shape_2_2 _ _ _ _)
              (shape_2_2 _ _ _ _) ltac:(lia) ltac:(lia))
    as (w' & Hrun & Hcell & _ & Hserial).
  exists w'. split; [exact Hrun|]. split; [|by apply Hserial].
  rewrite (Hcell 1%nat 0%nat) by (simpl; lia). reflexivity.
Defined.

(** C8. Let [A], [B], [C], [D] point to blocks [a] ([rows] x [n]), [b]
    ([n] x [n]), [c] and [d] ([rows] x [n]), with [C] other than [A] and
    [B], and [D] other than [A] and [C]. Then
    - [matrix_multiply_local A B C] returns; afterwards [C] holds the
      product of [a] and [b], and [A] and [B] hold [a] and [b] as before;
    - [matrix_add_local C A D] returns; afterwards [D] holds the cell-wise
      sum of [c] and [a], and [C] and [A] hold [c] and [a] as before;
    - [compute_local_norm C] returns the sum of the squares of the cells of
      [c] in row-major order; it yields a value and no state.
    Each result is given by the contents of the input blocks alone. And
    whatever the three pointers of a multiplication or an addition are, in
    any state: when the call returns, every store it made went to its
    output block, and every other block, the heap and the console are as
    before. *)
Theorem kernels_write_only_their_output {T : Type} `{Scalar T} (w : state T)
    (A B C D : nat) (rows n : Z) (a b c d : block T) :
  blocks w !! A = Some a -> blocks w !! B = Some b ->
  blocks w !! C = Some c -> blocks w !! D = Some d ->
  shape (Z.to_nat rows) (Z.to_nat n) a ->
  shape (Z.to_nat n) (Z.to_nat n) b ->
  shape (Z.to_nat rows) (Z.to_nat n) c ->
  shape (Z.to_nat rows) (Z.to_nat n) d ->
  A <> C -> B <> C -> A <> D -> C <> D ->
  (exists w',
     matrix_multiply_local A B C rows n w = Done w'
     /\ blocks w' !! C = Some (product a b (Z.to_nat rows) (Z.to_nat n))
     /\ blocks w' !! A = Some a /\ blocks w' !! B = Some b
     /\ touches_only C w w')
  /\ (exists w',
        matrix_add_local C A D rows n w = Done w'
        /\ blocks w' !! D
           = Some (table (Z.to_nat rows) (Z.to_nat n)
                     (fun i j => get c i j ⊕ get a i j))
        /\ blocks w' !! C = Some c /\ blocks w' !! A = Some a
        /\ touches_only D w w')
  /\ compute_local_norm C rows n w
     = Done (fold_left (fun sum x => sum ⊕ x ⊗ x) (concat c) s_zero)
  /\ (forall (A' B' C' : nat) (rows' n' : Z) (u u' : state T),
        matrix_multiply_local A' B' C' rows' n' u = Done u' -> touches_only C' u u')
  /\ (forall (A' B' C' : nat) (rows' cols' : Z) (u u' : state T),
        matrix_add_local A' B' C' rows' cols' u = Done u' -> touches_only C' u u').
Proof.
  intros HA HB HC HD Ha Hb Hc Hd HAC HBC HAD HCD.
  split; [|split; [|split; [|split]]].
  - pose proof (matrix_multiply_local_run w A B C rows n a b c
                  HA HB HC Ha Hb Hc HAC HBC) as Hrun.
    eexists. split; [exact Hrun|].
    split; [apply lookup_with_block_eq|].
    split; [by rewrite lookup_with_block_ne|].
    split; [by rewrite lookup_with_block_ne|].
    by eapply matrix_multiply_local_touches.
  - pose proof (matrix_add_local_run w C A D rows n c a d
                  HC HA HD Hc Ha Hd HCD HAD) as Hrun.
    eexists. split; [exact Hrun|].
    split; [apply lookup_with_block_eq|].
    split; [by rewrite lookup_with_block_ne|].
    split; [by rewrite lookup_with_block_ne|].
    by eapply matrix_add_local_touches.
  - by eapply compute_local_norm_run.
  - intros A' B' C' rows' n' u u'. apply matrix_multiply_local_touches.
  - intros A' B' C' rows' cols' u u'. apply matrix_add_local_touches.
Qed.

Lemma kernels_write_only_their_output_witness :
  (exists w', matrix_multiply_local 0 1 2 2 2 bench = Done w'
              /\ blocks w' !! 0%nat = Some [[1; 1]; [1; 1]]%float
              /\ blocks w' !! 1%nat = Some [[2; 2]; [2; 2]]%float)
  /\ (exists w', matrix_add_local 2 0 3 2 2 bench = Done w'
                 /\ blocks w' !! 3%nat = Some [[1; 1]; [1; 1]]%float)
  /\ compute_local_norm 2 2 2 bench = Done 0%float.
Proof.
  destruct (kernels_write_only_their_output bench 0 1 2 3 2 2
              [[1; 1]; [1; 1]]%float [[2; 2]; [2; 2]]%float
              [[0; 0]; [0; 0]]%float [[0; 0]; [0; 0]]%float
              eq_refl eq_refl eq_refl eq_refl
              (shape_2_2 _ _ _ _) (shape_2_2 _ _ _ _) (shape_2_2 _ _ _ _)
              (shape_2_2 _ _ _ _) ltac:(lia) ltac:(lia) ltac:(lia) ltac:(lia))
    as ((w1 & Hmul & _ & HA1 & HB1 & _) & (w2 & Hadd & Hblock & _) & Hnorm & _).
  split; [|split; [|exact Hnorm]].
  - exists w1. split; [exact Hmul|]. split; [exact HA1|exact HB1].
  - exists w2. split; [exact Hadd|]. rewrite Hblock. reflexivity.
Defined.

(** When the output of a multiplication is one of its operands, the
    operand is overwritten while it is still being read: multiplying the
    2 x 2 block of ones by the block of twos into the block of ones itself
    does not leave 4.0 everywhere. *)
Remark multiply_into_its_operand :
  exists w',
    matrix_multiply_local 0 1 0 2 2 bench = Done w'
    /\ blocks w' !! 0%nat = Some [[2; 12]; [2; 12]]%float.
Proof. eexists. split; vm_compute; reflexivity. Qed.

Lemma table_get {T : Type} `{Scalar T} (rows cols : nat) (a : block T) :
  shape rows cols a -> table rows cols (get a) = a.
Proof.
  intros Ha. apply list_eq. intros i. unfold table.
  destruct (decide (i < rows)%nat) as [Hi|Hi].
  - destruct (shape_row _ _ _ i Ha Hi) as (row & Hrow & Hlen).
    rewrite list_lookup_fmap, lookup_seq_lt, Hrow by done. cbn [fmap option_fmap option_map Nat.add].
    f_equal. apply list_eq. intros j.
    destruct (decide (j < cols)%nat) as [Hj|Hj].
    + destruct (lookup_lt_is_Some_2 row j) as [x Hx]; [lia|].
      rewrite list_lookup_fmap, lookup_seq_lt, Hx by done.
      cbn [fmap option_fmap option_map Nat.add]. f_equal. by apply get_lookup with (row := row).
    + rewrite (lookup_ge_None_2 row) by lia. apply lookup_ge_None.
      rewrite length_map, length_seq. lia.
  - rewrite (lookup_ge_None_2 a) by (destruct Ha; lia). apply lookup_ge_None.
    rewrite length_map, length_seq. lia.
Qed.

(** C9. Let [A] point to an [n] x [n] block [a], [AT] to an [n] x [n]
    block other than [A], and [A2] to an [n] x [n] block other than [AT]
    ([A2] may be [A] itself). Then [matrix_transpose A AT] followed by
    [matrix_transpose AT A2] returns and leaves in [A2] the block [a]. *)
Theorem transpose_twice_is_identity {T : Type} `{Scalar T} (w : state T)
    (A AT A2 : nat) (n : Z) (a t c : block T) :
  blocks w !! A = Some a -> blocks w !! AT = Some t -> blocks w !! A2 = Some c ->
  shape (Z.to_nat n) (Z.to_nat n) a ->
  shape (Z.to_nat n) (Z.to_nat n) t ->
  shape (Z.to_nat n) (Z.to_nat n) c ->
  A <> AT -> AT <> A2 ->
  exists w1 w2,
    matrix_transpose A AT n w = Done w1
    /\ matrix_transpose AT A2 n w1 = Done w2
    /\ blocks w2 !! A2 = Some a
    /\ forall i j, (i < Z.to_nat n)%nat -> (j < Z.to_nat n)%nat ->
         load AT i j w1 = Done (get a j i) /\ load A2 i j w2 = Done (get a i j).
Proof.
  intros HA HAT HA2 Ha Ht Hc Hne Hne2.
  eexists _, _. split; [by eapply matrix_transpose_run|].
  assert (Hback : table (Z.to_nat n) (Z.to_nat n)
                    (fun i j => get (table (Z.to_nat n) (Z.to_nat n)
                                       (fun i j => get a j i)) j i) = a).
  { transitivity (table (Z.to_nat n) (Z.to_nat n) (get a));
      [|by apply table_get].
    apply table_ext. intros i j Hi Hj. by rewrite get_table. }
  split.
  { eapply matrix_transpose_run;
      [apply lookup_with_block_eq|by rewrite lookup_with_block_ne
      |apply shape_table|done..]. }
  split; [by rewrite lookup_with_block_eq, Hback|].
  intros i j Hi Hj. split.
  - erewrite load_get; [|apply lookup_with_block_eq|apply shape_table|done..].
    by rewrite get_table.
  - erewrite load_get; [|apply lookup_with_block_eq|apply shape_table|done..].
    by rewrite Hback.
Qed.

Lemma transpose_twice_is_identity_witness :
  exists w1 w2,
    matrix_transpose 0 2 2 bench_raw = Done w1
    /\ matrix_transpose 2 0 2 w1 = Done w2
    /\ blocks w1 !! 2%nat = Some [[5; 7]; [6; 8]]%float
    /\ blocks w2 !! 0%nat = Some [[5; 6]; [7; 8]]%float.
Proof.
  destruct (transpose_twice_is_identity bench_raw 0 2 0 2
              [[5; 6]; [7; 8]]%float [[9; 9]; [9; 9]]%float [[5; 6]; [7; 8]]%float
              eq_refl eq_refl eq_refl
              (shape_2_2 _ _ _ _) (shape_2_2 _ _ _ _) (shape_2_2 _ _ _ _)
              ltac:(lia) ltac:(lia))
    as (w1 & w2 & Hfirst & Hsecond & Hblock & _).
  exists w1, w2. split; [exact Hfirst|]. split; [exact Hsecond|].
  split; [|exact Hblock].
  vm_compute in Hfirst. injection Hfirst as <-. reflexivity.
Defined.

Lemma table_const {T : Type} (rows cols : nat) (v : T) :
  table rows cols (fun _ _ => v) = repeat (repeat v cols) rows.
Proof.
  assert (Hconst : forall (X Y : Type) (y : Y) (l : list X),
            map (fun _ => y) l = repeat y (length l)).
  { intros X Y y l. induction l as [|x l IH]; [done|]. simpl. by rewrite IH. }
  unfold table. by rewrite !Hconst, !length_seq.
Qed.

(** C10. Let [M1] point to a [rows] x [cols] block in one state and [M2]
    to a [rows] x [cols] block in another, whatever the two blocks hold.
    Then [initialize_matrix_local] with the value [v] returns in both, and
    both blocks are afterwards the same block, every cell of which holds
    [v]. [initialize_matrix] of the serial program does the same with
    [rows = cols]. So the operand [B] of two ranks of a run, each filled by
    its own rank in storage of its own, is the same block in both: [n] rows
    of [n] cells holding 2.0. *)
Theorem initialize_forgets_the_contents {T : Type} `{Scalar T} (w1 w2 : state T)
    (M1 M2 : nat) (rows cols : Z) (v : T) (c1 c2 : block T) :
  blocks w1 !! M1 = Some c1 -> blocks w2 !! M2 = Some c2 ->
  shape (Z.to_nat rows) (Z.to_nat cols) c1 ->
  shape (Z.to_nat rows) (Z.to_nat cols) c2 ->
  (exists w1' w2',
     initialize_matrix_local M1 rows cols v w1 = Done w1'
     /\ initialize_matrix_local M2 rows cols v w2 = Done w2'
     /\ blocks w1' !! M1 = blocks w2' !! M2
     /\ blocks w1' !! M1 = Some (repeat (repeat v (Z.to_nat cols)) (Z.to_nat rows))
     /\ (forall i j, (i < Z.to_nat rows)%nat -> (j < Z.to_nat cols)%nat ->
           load M1 i j w1' = Done v /\ load M2 i j w2' = Done v)
     /\ (rows = cols ->
         initialize_matrix M1 cols v w1 = Done w1'
         /\ initialize_matrix M2 cols v w2 = Done w2'))
  /\ (forall (rank1 rank2 size : Z) (argn : option Z) (n : Z)
             (h1 h2 : nat -> option (nat -> T)),
        size_arg argn n ->
        (forall k, is_Some (h1 k)) -> (forall k, is_Some (h2 k)) ->
        exists fr1 u1 fr2 u2,
          mpi_main_compute rank1 size argn (initial h1) = Done (fr1, u1)
          /\ mpi_main_compute rank2 size argn (initial h2) = Done (fr2, u2)
          /\ blocks u1 !! fr_B fr1 = blocks u2 !! fr_B fr2
          /\ blocks u1 !! fr_B fr1
             = Some (repeat (repeat s_two (Z.to_nat n)) (Z.to_nat n))).
Proof.
  intros H1 H2 Hc1 Hc2. split.
  - eexists _, _. split; [by eapply initialize_matrix_local_run|].
    split; [by eapply initialize_matrix_local_run|].
    split; [by rewrite !lookup_with_block_eq|].
    split; [by rewrite lookup_with_block_eq, table_const|].
    split.
    + intros i j Hi Hj. split.
      * erewrite load_get; [|apply lookup_with_block_eq|apply shape_table|done..].
        by rewrite get_table.
      * erewrite load_get; [|apply lookup_with_block_eq|apply shape_table|done..].
        by rewrite get_table.
    + intros ->. rewrite !initialize_matrix_eq.
      split; by eapply initialize_matrix_local_run.
  - intros rank1 rank2 size argn n h1 h2 Hn Hh1 Hh2.
    destruct (mpi_main_compute_run rank1 size argn n (initial h1) Hn Hh1)
      as (u1 & Hrun1 & _ & _ & HB1 & _).
    destruct (mpi_main_compute_run rank2 size argn n (initial h2) Hn Hh2)
      as (u2 & Hrun2 & _ & _ & HB2 & _).
    eexists _, u1, _, u2. split; [exact Hrun1|]. split; [exact Hrun2|].
    unfold twos in HB1, HB2. rewrite table_const in HB1, HB2.
    split; [|exact HB1].
    etransitivity; [exact HB1|]. symmetry. exact HB2.
Qed.

Lemma initialize_forgets_the_contents_witness :
  exists w1' w2',
    initialize_matrix_local 1 2 2 2%float bench = Done w1'
    /\ initialize_matrix_local 3 2 2 2%float bench_raw = Done w2'
    /\ blocks w1' !! 1%nat = blocks w2' !! 3%nat
    /\ blocks w2' !! 3%nat = Some [[2; 2]; [2; 2]]%float.
Proof.
  destruct (initialize_forgets_the_contents bench bench_raw 1 3 2 2 2%float
              [[2; 2]; [2; 2]]%float [[7; 0.5]; [-3; 1024]]%float
              eq_refl eq_refl (shape_2_2 _ _ _ _) (shape_2_2 _ _ _ _))
    as ((w1' & w2' & Hrun1 & Hrun2 & Hsame & Hblock & _) & _).
  exists w1', w2'. split; [exact Hrun1|]. split; [exact Hrun2|].
  split; [exact Hsame|]. rewrite <- Hsame. exact Hblock.
Defined.

(** ** Allocation *)

Lemma float_one_is_not_zero : 1%float <> 0%float.
Proof.
  intros Heq. apply (f_equal (fun x => PrimFloat.eqb x 0%float)) in Heq.
  vm_compute in Heq. discriminate.
Qed.

Lemma stale_allocation :
  exists w',
    allocate_matrix_local 1 1 (initial stale_heap) = Done (0%nat, w')
    /\ load 0 0 0 w' = Done 1%float.
Proof. eexists. split; vm_compute; reflexivity. Qed.

(** C4, as it fails: with a [malloc] that hands out storage holding 1.0,
    the allocation of a 1 x 1 block succeeds in both programs, and the
    cell of the block returned holds 1.0, not 0.0. *)
Lemma allocate_leaves_stale_cells :
  exists w',
    allocate_matrix_local 1 1 (initial stale_heap) = Done (0%nat, w')
    /\ allocate_matrix 1 (initial stale_heap) = Done (0%nat, w')
    /\ load 0 0 0 w' = Done 1%float
    /\ load 0 0 0 w' <> Done 0%float.
Proof.
  destruct stale_allocation as (w' & Hrun & Hload). exists w'.
  split; [exact Hrun|]. split; [exact Hrun|]. split; [exact Hload|].
  rewrite Hload.
  intros Heq. apply float_one_is_not_zero.
  exact (f_equal (fun o => match o with Done x => x | _ => 0%float end) Heq).
Qed.

(** C4, amended. When [allocate_matrix_local rows cols] returns, it
    returns a new block of [rows] rows of [cols] cells, and cell [(i, j)]
    holds what the storage [malloc] handed out for row [i] held at [j]:
    the cells are not cleared. Every cell holds 0.0 once
    [initialize_matrix_local] has been run on the block with 0.0.
    [allocate_matrix n] of the serial program is the same with
    [rows = cols = n]. *)
Theorem allocate_returns_uncleared_block {T : Type} `{Scalar T}
    (rows cols : Z) (w w' : state T) (p : nat) :
  allocate_matrix_local rows cols w = Done (p, w') ->
  p = brk w
  /\ (exists b, blocks w' !! p = Some b /\ shape (Z.to_nat rows) (Z.to_nat cols) b)
  /\ (forall i j, (i < Z.to_nat rows)%nat -> (j < Z.to_nat cols)%nat ->
        exists g, heap w (brk w + 1 + i)%nat = Some g /\ load p i j w' = Done (g j))
  /\ (exists w'',
        initialize_matrix_local p rows cols s_zero w' = Done w''
        /\ forall i j, (i < Z.to_nat rows)%nat -> (j < Z.to_nat cols)%nat ->
             load p i j w'' = Done s_zero)
  /\ (rows = cols -> allocate_matrix cols w = Done (p, w')).
Proof.
  intros Hrun.
  pose proof (allocate_matrix_local_served w rows cols p w' Hrun) as Hserved.
  pose proof Hrun as Hrun'.
  rewrite (allocate_matrix_local_succeeds w rows cols Hserved) in Hrun'.
  injection Hrun' as <- <-.
  pose proof (shape_fresh_block_served w _ (Z.to_nat cols) Hserved) as Hshape.
  split; [done|]. split; [|split; [|split]].
  - eexists. split; [apply lookup_allocated_eq|done].
  - intros i j Hi Hj.
    destruct (Hserved (brk w + 1 + i)%nat ltac:(lia)) as [g Hg].
    exists g. split; [done|].
    erewrite load_get; [|apply lookup_allocated_eq|done..].
    f_equal. unfold get, fresh_block.
    rewrite list_lookup_fmap, lookup_seq_lt by done. cbn [fmap option_fmap option_map Nat.add].
    rewrite (fresh_row_Some _ _ _ g Hg).
    by rewrite list_lookup_fmap, lookup_seq_lt.
  - eexists. split.
    + eapply initialize_matrix_local_run; [apply lookup_allocated_eq|done].
    + intros i j Hi Hj.
      erewrite load_get; [|apply lookup_with_block_eq|apply shape_table|done..].
      by rewrite get_table.
  - intros ->. by rewrite allocate_matrix_eq.
Qed.

Lemma allocate_returns_uncleared_block_witness :
  exists w',
    allocate_matrix_local 1 1 (initial stale_heap) = Done (0%nat, w')
    /\ (exists g, stale_heap 1 = Some g /\ load 0 0 0 w' = Done (g 0%nat))
    /\ exists w'',
         initialize_matrix_local 0 1 1 0%float w' = Done w''
         /\ load 0 0 0 w'' = Done 0%float.
Proof.
  destruct stale_allocation as (w' & Hrun & _).
  destruct (allocate_returns_uncleared_block 1 1 (initial stale_heap) w' 0 Hrun)
    as (_ & _ & Hcells & (w'' & Hinit & Hzero) & _).
  exists w'. split; [exact Hrun|]. split.
  - apply (Hcells 0%nat 0%nat); simpl; lia.
  - exists w''. split; [exact Hinit|]. apply (Hzero 0%nat 0%nat); simpl; lia.
Defined.

(** ** The smallest run *)

(** C5. On IEEE binary64 numbers, with [n = 2], [A] filled with 1.0, [B]
    filled with 2.0 and [C] holding anything: the multiplication leaves 4.0
    in every cell of [C], the sum of squares of [C] is 64.0, and its square
    root is 8.0. Both programs, run with the argument 2, print 8.0 as
    [||C||_F]. *)
Theorem two_by_two_run (c00 c01 c10 c11 : float) :
  let w := State (<[2%nat := [[c00; c01]; [c10; c11]]]>
                    (<[1%nat := [[2; 2]; [2; 2]]%float]>
                       (<[0%nat := [[1; 1]; [1; 1]]%float]> ∅)))
                 (fun _ => None) 3 [] [] in
  (exists w',
     matrix_multiply_local 0 1 2 2 2 w = Done w'
     /\ matrix_multiply 0 1 2 2 w = Done w'
     /\ blocks w' !! 2%nat = Some [[4; 4]; [4; 4]]%float
     /\ compute_local_norm 2 2 2 w' = Done 64%float
     /\ compute_frobenius_norm 2 2 w' = Done 8%float)
  /\ PrimFloat.sqrt 64 = 8%float
  /\ map printed (mpi_program (fun _ => stale_heap) 1 (Some 2))
     = [[PrintNorm "||C||_F" 8%float]]
  /\ map printed (mpi_program (fun _ => stale_heap) 2 (Some 2))
     = [[PrintNorm "||C||_F" 8%float]; []]
  /\ printed (Ended (serial_program stale_heap (Some 2)))
     = [PrintNorm "||C||_F" 8%float; PrintNorm "||D||_F" 10%float].
Proof.
  split; [|split; [|split; [|split]]].
  - eexists. split; [vm_compute; reflexivity|]. by vm_compute.
  - by vm_compute.
  - by vm_compute.
  - by vm_compute.
  - by vm_compute.
Qed.

(** ** The argument check *)

(** C7. When the size argument is [n <= 0]:
    - every rank of the distributed program leaves [main] with status 1
      before its first allocation; rank 0 has printed the error line and
      the other ranks nothing;
    - the serial program leaves [main] with status 1 after printing the
      error line;
    - in both, no block was allocated and no cell stored to, and no norm
      line is printed. *)
Theorem nonpositive_size_is_rejected {T : Type} `{Scalar T} (n : Z) :
  n <= 0 ->
  (forall (rank size : Z) (w : state T),
     exists w',
       mpi_main_compute rank size (Some n) w = Exit 1 w'
       /\ memory_untouched w w'
       /\ console_out w' = console_out w ++ (if rank =? 0 then [size_error] else []))
  /\ (forall w : state T,
        exists w',
          serial_main (Some n) w = Exit 1 w'
          /\ memory_untouched w w'
          /\ console_out w' = console_out w ++ [size_error])
  /\ (forall heaps (size : nat),
        mpi_program heaps size (Some n)
        = map (fun rank =>
                 Ended (Exit 1 (match rank with
                                | O => print size_error (initial (heaps rank))
                                | S _ => initial (heaps rank)
                                end)))
              (seq 0 size))
  /\ (forall h, serial_program h (Some n) = Exit 1 (print size_error (initial h))).
Proof.
  intros Hn.
  assert (Hmpi : forall (rank size : Z) (w : state T),
            mpi_main_compute rank size (Some n) w
            = Exit 1 (if rank =? 0 then print size_error w else w)).
  { intros rank size w. unfold mpi_main_compute.
    destruct (Z.leb_spec n 0); [done|lia]. }
  assert (Hserial : forall w : state T,
            serial_main (Some n) w = Exit 1 (print size_error w)).
  { intros w. unfold serial_main. destruct (Z.leb_spec n 0); [done|lia]. }
  split; [|split; [|split]].
  - intros rank size w. eexists. split; [apply Hmpi|].
    destruct (rank =? 0); [done|]. split; [done|]. by rewrite app_nil_r.
  - intros w. eexists. split; [apply Hserial|]. done.
  - intros heaps size. unfold mpi_program.
    rewrite (map_ext _ (fun rank =>
               Exit 1 (if Z.of_nat rank =? 0
                       then print size_error (initial (heaps rank))
                       else initial (heaps rank)))) by (intros; apply Hmpi).
    destruct (seq 0 size) as [|rank ranks]; [done|].
    cbn [map gather]. f_equal.
    + by destruct rank.
    + rewrite map_map. apply map_ext. intros rank'. by destruct rank'.
  - intros h. apply Hserial.
Qed.

Lemma nonpositive_size_is_rejected_witness :
  map printed (mpi_program (fun _ => stale_heap) 2 (Some 0))
  = [[size_error]; []]
  /\ serial_program stale_heap (Some (-3)) = Exit 1 (print size_error (initial stale_heap)).
Proof.
  split.
  - rewrite (proj1 (proj2 (proj2 (nonpositive_size_is_rejected 0 ltac:(lia))))).
    reflexivity.
  - apply (nonpositive_size_is_rejected (-3) ltac:(lia)).
Defined.

(** ** The distributed run against the serial run *)

(** C6. Take a run of the distributed program on [size >= 1] ranks and a
    run of the serial program, with the same argument, giving a matrix
    size [n >= 1], and in which no [malloc] fails. Every rank returns 0
    and so does the serial program; rank 0 alone prints a norm line, with
    the square root of the reduced sum, and the serial program prints the
    square root of the sum of squares of the whole product.
    - When the addition of cells is associative with [0.0] as its neutral
      element, the two values are the same, for every [size]; and for any
      [n] x [n] operands [a] and [b], the reduction of the sums of squares
      of the workers' blocks of the product, each worker multiplying its
      rows of [a] by [b], is the sum of squares of the whole product. When
      the addition is commutative as well, the reduction may combine the
      ranks' contributions in any order.
    - When [size = 1], the two values are the same with no assumption on
      the arithmetic, so also on IEEE binary64 numbers. *)
Theorem distributed_norm_is_serial_norm {T : Type} `{Scalar T}
    (heaps : nat -> nat -> option (nat -> T)) (h : nat -> option (nat -> T))
    (size : nat) (argn : option Z) (n : Z) :
  size_arg argn n -> (1 <= size)%nat ->
  (forall rank k, is_Some (heaps rank k)) -> (forall k, is_Some (h k)) ->
  exists (finals : list (state T)) (ws : state T) (v_mpi v_serial v_D : T),
    mpi_program heaps size argn = map (fun w => Ended (Done (0, w))) finals
    /\ length finals = size
    /\ (forall rank w, finals !! rank = Some w ->
          console_out w = match rank with
                          | O => [PrintNorm "||C||_F" v_mpi]
                          | S _ => []
                          end)
    /\ serial_program h argn = Done (0, ws)
    /\ console_out ws = [PrintNorm "||C||_F" v_serial; PrintNorm "||D||_F" v_D]
    /\ v_mpi = s_sqrt (MPI_Reduce_SUM (map (contribution size n) (seq 0 size)))
    /\ v_serial
       = s_sqrt (sum_squares
                   (concat (product (ones (Z.to_nat n) (Z.to_nat n))
                                    (twos (Z.to_nat n) (Z.to_nat n))
                                    (Z.to_nat n) (Z.to_nat n))))
    /\ (size = 1%nat -> v_mpi = v_serial)
    /\ ((forall x y z : T, x ⊕ (y ⊕ z) = (x ⊕ y) ⊕ z) ->
        (forall x : T, s_zero ⊕ x = x) -> (forall x : T, x ⊕ s_zero = x) ->
        v_mpi = v_serial
        /\ (forall a b : block T,
             MPI_Reduce_SUM
               (map (fun rank =>
                       sum_squares
                         (concat
                            (product (rank_slice size n rank a) b
                               (Z.to_nat (Partition.local_rows (Z.of_nat rank)
                                            (Z.of_nat size) n))
                               (Z.to_nat n))))
                    (seq 0 size))
             = sum_squares (concat (product a b (Z.to_nat n) (Z.to_nat n))))
        /\ ((forall x y : T, x ⊕ y = y ⊕ x) ->
            forall sendbufs : list T,
              Permutation sendbufs (map (contribution size n) (seq 0 size)) ->
              s_sqrt (MPI_Reduce_SUM sendbufs) = v_serial)).
Proof.
  intros Hn Hsize Hheaps Hh.
  assert (Hpos : 0 <= n) by (destruct Hn as [[_ ?]|[_ ->]]; lia).
  destruct (mpi_program_run heaps size argn n Hn Hheaps)
    as (finals & Hmpi & Hlen & Hout).
  destruct (serial_main_run argn n (initial h) Hn Hh) as (ws & Hserial & Hsout).
  exists finals, ws. do 3 eexists.
  split; [exact Hmpi|]. split; [exact Hlen|]. split; [exact Hout|].
  split; [exact Hserial|]. split; [exact Hsout|].
  split; [reflexivity|]. split; [reflexivity|]. split.
  - intros ->. cbn [seq map MPI_Reduce_SUM fold_left]. unfold contribution.
    assert (Hrows : Partition.local_rows (Z.of_nat 0) (Z.of_nat 1) n = n).
    { unfold Partition.local_rows, Partition.local_end, Partition.local_start,
        Partition.compute_local_chunk. cbn [fst snd].
      change (Z.of_nat 1) with 1. change (Z.of_nat 0) with 0.
      rewrite Z.quot_1_r, Z.rem_1_r. rewrite Z.ltb_irrefl. lia. }
    by rewrite Hrows.
  - intros Hassoc Hzl Hzr. split; [|split].
    + f_equal. by apply reduced_contributions.
    + intros a b. by apply distributed_sum_squares.
    + intros Hcomm sendbufs Hperm. f_equal.
      rewrite (reduce_permutation Hassoc Hzl Hcomm _ _ Hperm).
      by apply reduced_contributions.
Qed.

Lemma distributed_norm_is_serial_norm_witness :
  exists (finals : list (state Z)) (ws : state Z) (v v_D : Z),
    mpi_program (fun _ => clean_heap) 3 (Some 4)
    = map (fun w => Ended (Done (0, w))) finals
    /\ finals !! 0%nat ≫= (fun w => Some (console_out w))
       = Some [PrintNorm "||C||_F" v]
    /\ serial_program clean_heap (Some 4) = Done (0, ws)
    /\ console_out ws = [PrintNorm "||C||_F" v; PrintNorm "||D||_F" v_D].
Proof.
  assert (Harg : size_arg (Some 4) 4) by (left; split; [reflexivity|lia]).
  assert (Hsize : (1 <= 3)%nat) by lia.
  assert (Hheap : forall k, is_Some (clean_heap k)) by (intros k; by eexists).
  destruct (distributed_norm_is_serial_norm (T := Z) (fun _ => clean_heap)
              clean_heap 3 (Some 4) 4 Harg Hsize (fun _ => Hheap) Hheap)
    as (finals & ws & v_mpi & v_serial & v_D & Hmpi & Hlen & Hout & Hserial
        & Hsout & _ & _ & _ & Hlaws).
  destruct (Hlaws ltac:(intros; cbn; lia) ltac:(intros; cbn; lia)
              ltac:(intros; cbn; lia)) as [Heq _].
  exists finals, ws, v_serial, v_D.
  split; [exact Hmpi|]. split; [|split; [exact Hserial|exact Hsout]].
  destruct finals as [|w0 finals]; [discriminate Hlen|].
  cbn. f_equal. rewrite (Hout 0%nat w0 eq_refl). by rewrite Heq.
Defined.

(** * Further properties *)

(** ** Loops *)

Section LoopFacts.
Context {T : Type}.

Lemma for_loop_split {St : Type} (body : nat -> St -> outcome T St)
    (count1 count2 i0 : nat) (s : St) :
  for_loop (count1 + count2) i0 body s
  = bind (for_loop count1 i0 body s) (for_loop count2 (i0 + count1) body).
Proof.
  revert i0 s. induction count1 as [|count1 IH]; intros i0 s; simpl.
  - by rewrite Nat.add_0_r.
  - destruct (body i0 s) as [s1| |]; simpl; [|done..].
    rewrite IH. do 2 f_equal. lia.
Qed.

(** A loop whose body leaves the state as it is does the same. *)
Lemma for_loop_idle {St : Type} (body : nat -> St -> outcome T St)
    (count i0 : nat) (s : St) :
  (forall i, (i0 <= i < i0 + count)%nat -> body i s = Done s) ->
  for_loop count i0 body s = Done s.
Proof. intros Hbody. by apply (for_loop_closed (fun _ => s)). Qed.

(** A loop whose body always returns returns. *)
Lemma for_loop_returns {St : Type} (body : nat -> St -> outcome T St)
    (count i0 : nat) (s : St) :
  (forall i s, (i0 <= i < i0 + count)%nat -> exists s', body i s = Done s') ->
  exists s', for_loop count i0 body s = Done s'.
Proof.
  revert i0 s. induction count as [|count IH]; intros i0 s Hbody; simpl.
  - by eexists.
  - destruct (Hbody i0 s ltac:(lia)) as [s1 ->]. cbn [bind].
    apply IH. intros i s2 Hi. apply Hbody. lia.
Qed.

(** A loop is undefined when it reaches an iteration that is. *)
Lemma for_loop_undefined {St : Type} (body : nat -> St -> outcome T St)
    (count i0 bad : nat) (s : St) :
  (i0 <= bad < i0 + count)%nat ->
  (forall i s, (i0 <= i < bad)%nat -> exists s', body i s = Done s') ->
  (forall s, body bad s = Undefined) ->
  for_loop count i0 body s = Undefined.
Proof.
  intros Hbad Hbefore Hfail.
  replace count with ((bad - i0) + (count - (bad - i0)))%nat by lia.
  rewrite for_loop_split.
  destruct (for_loop_returns body (bad - i0) i0 s) as [s1 ->].
  { intros i s2 Hi. apply Hbefore. lia. }
  cbn [bind]. replace (i0 + (bad - i0))%nat with bad by lia.
  destruct (count - (bad - i0))%nat as [|rest] eqn:Hrest; [lia|].
  simpl. by rewrite Hfail.
Qed.

End LoopFacts.

(** ** The kernels on empty and on shared blocks *)

Section KernelFacts2.
Context {T : Type} `{Scalar T}.
Open Scope cell_scope.
Implicit Types (w : state T) (a b c : block T).

Lemma for_int_nonpos {St : Type} (bound : Z) (body : nat -> St -> outcome T St)
    (s : St) :
  bound <= 0 -> for_int bound body s = Done s.
Proof. intros Hle. unfold for_int. by replace (Z.to_nat bound) with 0%nat by lia. Qed.

Lemma for_int_idle {St : Type} (bound : Z) (body : nat -> St -> outcome T St)
    (s : St) :
  (forall i, body i s = Done s) -> for_int bound body s = Done s.
Proof. intros Hbody. unfold for_int. apply for_loop_idle. intros; apply Hbody. Qed.

Lemma length_flat_map_const {X Y : Type} (g : X -> list Y) (l : list X) (k : nat) :
  (forall x, length (g x) = k) -> length (flat_map g l) = (length l * k)%nat.
Proof.
  intros Hg. induction l as [|x l IH]; [done|].
  simpl. rewrite length_app, Hg, IH. lia.
Qed.

Lemma length_product_writes C a b rows n :
  length (product_writes C a b rows n) = (rows * (n * S n))%nat.
Proof.
  unfold product_writes.
  rewrite (length_flat_map_const _ _ (n * S n)), length_seq; [done|].
  intros i. rewrite (length_flat_map_const _ _ (S n)), length_seq; [done|].
  intros j. simpl. by rewrite length_map, length_seq.
Qed.

Lemma length_sum_writes C a b rows cols :
  length (sum_writes C a b rows cols) = (rows * cols)%nat.
Proof.
  unfold sum_writes.
  rewrite (length_flat_map_const _ _ cols), length_seq; [done|].
  intros i. rewrite (length_flat_map_const _ _ 1), length_seq; [lia|done].
Qed.

Lemma length_fill_writes M rows cols (v : T) :
  length (fill_writes M rows cols v) = (rows * cols)%nat.
Proof.
  unfold fill_writes.
  rewrite (length_flat_map_const _ _ cols), length_seq; [done|].
  intros i. rewrite (length_flat_map_const _ _ 1), length_seq; [lia|done].
Qed.

(** One row of a loop nest that stores [f j] into cell [(i, j)], where
    the body may read the cell it is about to store to. *)
Lemma fill_row_keep w C rows cols (body : nat -> state T -> outcome T (state T))
    (f : nat -> T) (ev : nat -> list (write_event T)) i b tr row :
  (forall b' tr' j row',
      shape rows cols b' -> b' !! i = Some row' -> (j < cols)%nat ->
      row' !! j = row !! j ->
      body j (with_block w C b' tr')
      = Done (with_block w C (<[i := <[j := f j]> row']> b') (tr' ++ ev j))) ->
  shape rows cols b -> b !! i = Some row ->
  for_loop cols 0 body (with_block w C b tr)
  = Done (with_block w C (<[i := map f (seq 0 cols)]> b)
            (tr ++ flat_map ev (seq 0 cols))).
Proof.
  intros Hbody Hb Hrow.
  pose proof (shape_lookup _ _ _ _ _ Hb Hrow) as Hlen.
  pose proof (lookup_lt_Some _ _ _ Hrow) as Hi.
  pose (st := fun j => with_block w C (<[i := map f (seq 0 j) ++ drop j row]> b)
                         (tr ++ flat_map ev (seq 0 j))).
  assert (H0 : st 0%nat = with_block w C b tr).
  { unfold st. simpl. by rewrite list_insert_id, app_nil_r. }
  assert (Hend : st cols = with_block w C (<[i := map f (seq 0 cols)]> b)
                             (tr ++ flat_map ev (seq 0 cols))).
  { unfold st. by rewrite drop_ge, app_nil_r by lia. }
  rewrite <- H0, <- Hend. apply (for_loop_closed st body cols 0).
  intros j Hj. unfold st.
  erewrite Hbody; [| |by apply list_lookup_insert_eq|lia|apply lookup_prefix].
  - rewrite list_insert_insert_eq, insert_prefix by lia.
    by rewrite flat_map_seq_S, app_assoc.
  - apply shape_insert; [done|].
    rewrite length_app, length_map, length_seq, length_drop. lia.
Qed.

(** The whole nest: cell [(i, j)] still holds what it held at the start
    when the body reaches it. *)
Lemma fill_rows_keep w C rows cols
    (body : nat -> nat -> state T -> outcome T (state T))
    (f : nat -> nat -> T) (ev : nat -> nat -> list (write_event T)) c :
  (forall b tr i j row row0,
      shape rows cols b -> b !! i = Some row -> (i < rows)%nat -> (j < cols)%nat ->
      c !! i = Some row0 -> row !! j = row0 !! j ->
      body i j (with_block w C b tr)
      = Done (with_block w C (<[i := <[j := f i j]> row]> b) (tr ++ ev i j))) ->
  blocks w !! C = Some c -> shape rows cols c ->
  for_loop rows 0 (fun i => for_loop cols 0 (body i)) w
  = Done (with_block w C (table rows cols f)
            (flat_map (fun i => flat_map (ev i) (seq 0 cols)) (seq 0 rows))).
Proof.
  intros Hbody HC Hc.
  set (rowf := fun i => map (f i) (seq 0 cols)).
  set (rowev := fun i => flat_map (ev i) (seq 0 cols)).
  pose (st := fun i => with_block w C (map rowf (seq 0 i) ++ drop i c)
                         (flat_map rowev (seq 0 i))).
  assert (Hrowf : forall i, length (rowf i) = cols).
  { intros i. unfold rowf. by rewrite length_map, length_seq. }
  assert (H0 : st 0%nat = w).
  { unfold st. simpl. by apply with_block_id. }
  assert (Hend : st rows = with_block w C (table rows cols f) (flat_map rowev (seq 0 rows))).
  { unfold st. destruct Hc as [Hl _]. by rewrite drop_ge, app_nil_r by lia. }
  rewrite <- H0 at 1. rewrite <- Hend.
  apply (for_loop_closed st _ rows 0).
  intros i Hi. unfold st.
  pose proof (shape_prefix rows cols c rowf i Hc Hrowf ltac:(lia)) as Hs.
  destruct (shape_row _ _ _ i Hc ltac:(lia)) as (row & Hrow & Hlen).
  rewrite (fill_row_keep w C rows cols (body i) (f i) (ev i) i _ _ row).
  - fold (rowf i). fold (rowev i).
    rewrite (insert_prefix rowf) by (destruct Hc; lia).
    by rewrite flat_map_seq_S.
  - intros b' tr' j row' Hb' Hrow' Hj Hkeep.
    apply (Hbody b' tr' i j row' row); [done..|lia|done|done|done].
  - done.
  - by rewrite lookup_prefix.
Qed.

(** Reading cell [(i, j)] of block [A] while block [C] is being filled,
    also when [A] is [C], as long as the cell has not been stored to. *)
Lemma load_while_filling w A C rows cols a c b tr i j row row0 :
  blocks w !! A = Some a -> blocks w !! C = Some c ->
  shape rows cols a -> shape rows cols b ->
  b !! i = Some row -> c !! i = Some row0 -> row !! j = row0 !! j ->
  (i < rows)%nat -> (j < cols)%nat ->
  load A i j (with_block w C b tr) = Done (get a i j).
Proof.
  intros HA HC Ha Hb Hrow Hrow0 Hkeep Hi Hj.
  destruct (decide (A = C)) as [->|Hne].
  - assert (a = c) as -> by congruence.
    destruct (lookup_lt_is_Some_2 row j) as [x Hx];
      [rewrite (shape_lookup _ _ _ _ _ Hb Hrow); lia|].
    rewrite (load_with_block_eq w C b tr i j row x Hrow Hx). f_equal.
    symmetry. apply (get_lookup c i j row0 x Hrow0). by rewrite <- Hkeep.
  - rewrite load_with_block_ne by done. by eapply load_get.
Qed.

(** [matrix_add_local] with any three pointers, equal or not. *)
Lemma matrix_add_local_shared w A B C rows cols a b c :
  blocks w !! A = Some a -> blocks w !! B = Some b -> blocks w !! C = Some c ->
  shape (Z.to_nat rows) (Z.to_nat cols) a ->
  shape (Z.to_nat rows) (Z.to_nat cols) b ->
  shape (Z.to_nat rows) (Z.to_nat cols) c ->
  matrix_add_local A B C rows cols w
  = Done (with_block w C
            (table (Z.to_nat rows) (Z.to_nat cols) (fun i j => get a i j ⊕ get b i j))
            (sum_writes C a b (Z.to_nat rows) (Z.to_nat cols))).
Proof.
  intros HA HB HC Ha Hb Hc. unfold matrix_add_local, for_int.
  apply (fill_rows_keep w C _ _
           (fun i j w => bind (load A i j w) (fun x =>
                         bind (load B i j w) (fun y => store C i j (x ⊕ y) w)))
           (fun i j => get a i j ⊕ get b i j)
           (fun i j => [(C, i, j, get a i j ⊕ get b i j)]) c); [|done..].
  intros b' tr i j row row0 Hb' Hrow Hi Hj Hrow0 Hkeep.
  rewrite (load_while_filling w A C _ _ a c b' tr i j row row0) by done.
  rewrite (load_while_filling w B C _ _ b c b' tr i j row row0) by done.
  cbn [bind].
  apply store_with_block; [done|]. by rewrite (shape_lookup _ _ _ _ _ Hb' Hrow).
Qed.

End KernelFacts2.

(** X1. With [rows <= 0] or [n <= 0] the kernels of mpi_example.c do
    nothing: multiplication, addition and initialisation return the state
    they were given, and the norm is 0.0. No cell is read, so this holds
    whatever the pointers are, also for pointers to no block. The kernels
    of serial_example.c do the same for [n <= 0]. *)
Theorem kernels_do_nothing_on_empty {T : Type} `{Scalar T} (A B C : nat)
    (rows n : Z) (v : T) (w : state T) :
  rows <= 0 \/ n <= 0 ->
  matrix_multiply_local A B C rows n w = Done w
  /\ matrix_add_local A B C rows n w = Done w
  /\ initialize_matrix_local C rows n v w = Done w
  /\ compute_local_norm A rows n w = Done s_zero
  /\ (n <= 0 ->
      matrix_multiply A B C n w = Done w
      /\ matrix_add A B C n w = Done w
      /\ matrix_transpose A C n w = Done w
      /\ initialize_matrix C n v w = Done w
      /\ compute_frobenius_norm A n w = Done (s_sqrt s_zero)).
Proof.
  intros Hempty.
  assert (Hnest : forall (St : Type) (body : nat -> nat -> St -> outcome T St) (s : St),
            for_int rows (fun i => for_int n (body i)) s = Done s).
  { intros St body s. destruct Hempty as [Hrows|Hn].
    - by apply for_int_nonpos.
    - apply for_int_idle. intros i. by apply for_int_nonpos. }
  do 4 (split; [apply Hnest|]).
  intros Hn. do 4 (split; [by apply for_int_nonpos|]).
  unfold compute_frobenius_norm. by rewrite for_int_nonpos.
Qed.

Lemma kernels_do_nothing_on_empty_witness :
  matrix_multiply_local 7 8 9 0 5 bench = Done bench
  /\ compute_local_norm 7 3 0 bench = Done 0%float.
Proof.
  split.
  - apply (kernels_do_nothing_on_empty 7 8 9 0 5 0%float bench). left. lia.
  - assert (Hempty : 3 <= 0 \/ 0 <= 0) by (right; lia).
    destruct (kernels_do_nothing_on_empty 7 8 9 3 0 0%float bench Hempty)
      as (_ & _ & _ & Hnorm & _).
    exact Hnorm.
Defined.

(** X2. [matrix_add_local A B C] works whatever pointers are equal: when
    the three blocks are [rows] x [cols], it returns and leaves in [C] the
    cell-wise sum of what [A] and [B] held before the call, also when [C]
    is [A] or [B] (an addition in place). [matrix_add] of the serial
    program does the same with [rows = cols]. *)
Theorem add_may_share_its_blocks {T : Type} `{Scalar T} (w : state T)
    (A B C : nat) (rows cols : Z) (a b c : block T) :
  blocks w !! A = Some a -> blocks w !! B = Some b -> blocks w !! C = Some c ->
  shape (Z.to_nat rows) (Z.to_nat cols) a ->
  shape (Z.to_nat rows) (Z.to_nat cols) b ->
  shape (Z.to_nat rows) (Z.to_nat cols) c ->
  exists w',
    matrix_add_local A B C rows cols w = Done w'
    /\ (forall i j, (i < Z.to_nat rows)%nat -> (j < Z.to_nat cols)%nat ->
          load C i j w' = Done (get a i j ⊕ get b i j))
    /\ touches_only C w w'
    /\ (rows = cols -> matrix_add A B C cols w = Done w').
Proof.
  intros HA HB HC Ha Hb Hc.
  pose proof (matrix_add_local_shared w A B C rows cols a b c HA HB HC Ha Hb Hc)
    as Hrun.
  eexists. split; [exact Hrun|]. split; [|split].
  - intros i j Hi Hj.
    erewrite load_get; [|apply lookup_with_block_eq|apply shape_table|done..].
    by rewrite get_table.
  - by eapply matrix_add_local_touches.
  - intros ->. by rewrite matrix_add_eq.
Qed.

Lemma add_may_share_its_blocks_witness :
  exists w',
    matrix_add_local 0 1 0 2 2 bench = Done w'
    /\ load 0 1 1 w' = Done 3%float.
Proof.
  destruct (add_may_share_its_blocks bench 0 1 0 2 2
              [[1; 1]; [1; 1]]%float [[2; 2]; [2; 2]]%float [[1; 1]; [1; 1]]%float
              eq_refl eq_refl eq_refl
              (shape_2_2 _ _ _ _) (shape_2_2 _ _ _ _) (shape_2_2 _ _ _ _))
    as (w' & Hrun & Hcell & _).
  exists w'. split; [exact Hrun|].
  rewrite (Hcell 1%nat 1%nat) by (simpl; lia). reflexivity.
Defined.

(** X3. The number of stores to matrix cells a kernel makes, on blocks of
    the sizes it is called with: the multiplication makes
    [rows * n * (n + 1)] (one of 0.0 and [n] of running sums per cell),
    the addition and the initialisation [rows * n] each. *)
Theorem kernel_store_counts {T : Type} `{Scalar T} (w : state T)
    (A B C : nat) (rows n : Z) (v : T) (a b c : block T) :
  blocks w !! A = Some a -> blocks w !! B = Some b -> blocks w !! C = Some c ->
  shape (Z.to_nat rows) (Z.to_nat n) a ->
  shape (Z.to_nat n) (Z.to_nat n) b ->
  shape (Z.to_nat rows) (Z.to_nat n) c ->
  A <> C -> B <> C ->
  exists w1 w2 w3,
    matrix_multiply_local A B C rows n w = Done w1
    /\ length (writes w1)
       = (length (writes w) + Z.to_nat rows * (Z.to_nat n * S (Z.to_nat n)))%nat
    /\ matrix_add_local C A C rows n w = Done w2
    /\ length (writes w2) = (length (writes w) + Z.to_nat rows * Z.to_nat n)%nat
    /\ initialize_matrix_local C rows n v w = Done w3
    /\ length (writes w3) = (length (writes w) + Z.to_nat rows * Z.to_nat n)%nat.
Proof.
  intros HA HB HC Ha Hb Hc HAC HBC.
  eexists _, _, _.
  split; [by eapply matrix_multiply_local_run|].
  split; [cbn [writes with_block]; by rewrite length_app, length_product_writes|].
  split; [by eapply matrix_add_local_shared|].
  split; [cbn [writes with_block]; by rewrite length_app, length_sum_writes|].
  split; [by eapply initialize_matrix_local_run|].
  cbn [writes with_block]. by rewrite length_app, length_fill_writes.
Qed.

Lemma kernel_store_counts_witness :
  exists w1,
    matrix_multiply_local 0 1 2 2 2 bench = Done w1
    /\ length (writes w1) = 12%nat.
Proof.
  destruct (kernel_store_counts bench 0 1 2 2 2 0%float
              [[1; 1]; [1; 1]]%float [[2; 2]; [2; 2]]%float [[0; 0]; [0; 0]]%float
              eq_refl eq_refl eq_refl
              (shape_2_2 _ _ _ _) (shape_2_2 _ _ _ _) (shape_2_2 _ _ _ _)
              ltac:(lia) ltac:(lia))
    as (w1 & _ & _ & Hrun & Hcount & _).
  exists w1. split; [exact Hrun|exact Hcount].
Defined.

(** ** Allocation and release *)

Section AllocationFacts2.
Context {T : Type} `{Scalar T}.
Implicit Types (w : state T).

(** Either a run of [count] [malloc] calls all succeed, or there is a
    first one that fails. *)
Lemma first_failure {X : Type} (h : nat -> option X) (lo count : nat) :
  (forall k, (lo <= k < lo + count)%nat -> is_Some (h k))
  \/ exists j, (j < count)%nat /\ h (lo + j)%nat = None
               /\ forall k, (lo <= k < lo + j)%nat -> is_Some (h k).
Proof.
  induction count as [|count IH]; [left; intros k Hk; lia|].
  destruct IH as [Hall|(j & Hj & Hnone & Hbefore)].
  - destruct (h (lo + count)%nat) as [x|] eqn:Hlast.
    + left. intros k Hk. destruct (decide (k = lo + count)%nat) as [->|Hne].
      * by eexists.
      * apply Hall. lia.
    + right. exists count. split; [lia|]. split; [done|].
      intros k Hk. apply Hall. lia.
  - right. exists j. split; [lia|]. by split.
Qed.

(** The row loop of an allocation, up to a row before which every
    [malloc] succeeds. *)
Lemma allocation_loop_prefix w (cols j : nat) :
  heap_serves w j ->
  for_loop j 0 (fun (i : nat) w' =>
    match heap w' (brk w') with
    | None => Exit 1 (print (Stderr "Memory allocation failed") w')
    | Some g =>
        Done (State (alter (fun b => b ++ [map g (seq 0 cols)]) (brk w) (blocks w'))
                    (heap w') (S (brk w')) (writes w') (console_out w'))
    end)
    (State (<[brk w := []]> (blocks w)) (heap w) (S (brk w)) (writes w)
           (console_out w))
  = Done (allocated w j cols).
Proof.
  intros Hheap. set (p := brk w) in *.
  pose (st := fun i =>
    State (<[p := map (fun i => fresh_row w (p + 1 + i) cols) (seq 0 i)]> (blocks w))
          (heap w) (S p + i) (writes w) (console_out w)).
  replace (State (<[p:=[]]> (blocks w)) (heap w) (S p) (writes w) (console_out w))
    with (st 0%nat) by (unfold st; simpl; by rewrite Nat.add_0_r).
  rewrite (for_loop_closed st _ j 0).
  - unfold st, allocated, fresh_block. fold p. do 2 f_equal. lia.
  - intros i Hi. unfold st. cbn [heap brk blocks writes console_out].
    destruct (Hheap (S p + i)%nat ltac:(lia)) as [g Hg]. rewrite Hg.
    rewrite alter_insert_eq, seq_S, map_app. cbn [map].
    rewrite (fresh_row_Some w (p + 1 + (0 + i)) cols g)
      by (rewrite <- Hg; f_equal; lia).
    do 2 f_equal. lia.
Qed.

(** [malloc] failing for row [j]: the rows before stay allocated. *)
Lemma allocate_matrix_local_exits w rows cols (j : nat) :
  heap_serves w j -> heap w (brk w + 1 + j)%nat = None -> (j < Z.to_nat rows)%nat ->
  allocate_matrix_local rows cols w
  = Exit 1 (print alloc_error (allocated w j (Z.to_nat cols))).
Proof.
  intros Hheap Hnone Hj. unfold allocate_matrix_local.
  destruct (Hheap (brk w) ltac:(lia)) as [g0 ->]. unfold for_int.
  replace (Z.to_nat rows) with (j + S (Z.to_nat rows - S j))%nat by lia.
  rewrite for_loop_split, (allocation_loop_prefix w (Z.to_nat cols) j Hheap).
  cbn [bind for_loop Nat.add allocated heap brk].
  by rewrite Hnone.
Qed.

Lemma below_brk_allocated w rows cols :
  below_brk w -> below_brk (allocated w rows cols).
Proof.
  intros Hw q Hq. cbn [allocated brk blocks] in *.
  rewrite lookup_insert_ne by lia. apply Hw. lia.
Qed.

End AllocationFacts2.

(** The two ways an allocation ends. *)
Lemma allocate_matrix_local_outcome {T : Type} `{Scalar T} (rows cols : Z)
    (w : state T) :
  (heap_serves w (Z.to_nat rows)
   /\ allocate_matrix_local rows cols w
      = Done (brk w, allocated w (Z.to_nat rows) (Z.to_nat cols)))
  \/ (exists (j : nat) (w' : state T),
        (j <= Z.to_nat rows)%nat
        /\ heap w (brk w + j)%nat = None
        /\ (forall k, (brk w <= k < brk w + j)%nat -> is_Some (heap w k))
        /\ allocate_matrix_local rows cols w = Exit 1 w'
        /\ console_out w' = console_out w ++ [alloc_error]
        /\ brk w' = (brk w + j)%nat
        /\ writes w' = writes w
        /\ forall q, q <> brk w -> blocks w' !! q = blocks w !! q).
Proof.
  destruct (first_failure (heap w) (brk w) (S (Z.to_nat rows)))
    as [Hall|(j & Hj & Hnone & Hbefore)].
  - left. assert (Hserves : heap_serves w (Z.to_nat rows)).
    { intros k Hk. apply Hall. lia. }
    split; [done|]. by apply allocate_matrix_local_succeeds.
  - right. exists j. destruct j as [|j].
    + rewrite Nat.add_0_r in Hnone. exists (print alloc_error w).
      split; [lia|]. split; [by rewrite Nat.add_0_r|]. split; [done|].
      split; [by apply allocate_matrix_local_fails|].
      split; [done|]. split; [cbn; lia|]. done.
    + assert (Hserves : heap_serves w j).
      { intros k Hk. apply Hbefore. lia. }
      replace (brk w + S j)%nat with (brk w + 1 + j)%nat in Hnone by lia.
      exists (print alloc_error (allocated w j (Z.to_nat cols))).
      split; [lia|].
      split; [by replace (brk w + S j)%nat with (brk w + 1 + j)%nat by lia|].
      split; [done|].
      split; [apply allocate_matrix_local_exits; (done || lia)|].
      split; [done|]. split; [cbn; lia|]. split; [done|].
      intros q Hq. cbn. by rewrite lookup_insert_ne.
Qed.

(** X4. What an allocation does, whatever [malloc] does. Either the
    [rows + 1] calls of [malloc] it makes all succeed, and it returns a
    new block; or one of them fails, and it prints "Memory allocation
    failed" and leaves the process with status 1, without releasing what
    the calls before had handed out and without storing to any cell. It
    is never undefined. [allocate_matrix] of the serial program is the
    same with [rows = cols]. *)
Theorem allocation_returns_or_exits {T : Type} `{Scalar T} (rows cols : Z)
    (w : state T) :
  (heap_serves w (Z.to_nat rows)
   /\ allocate_matrix_local rows cols w
      = Done (brk w, allocated w (Z.to_nat rows) (Z.to_nat cols)))
  \/ (exists (j : nat) (w' : state T),
        (j <= Z.to_nat rows)%nat
        /\ heap w (brk w + j)%nat = None
        /\ (forall k, (brk w <= k < brk w + j)%nat -> is_Some (heap w k))
        /\ allocate_matrix_local rows cols w = Exit 1 w'
        /\ (rows = cols -> allocate_matrix cols w = Exit 1 w')
        /\ console_out w' = console_out w ++ [alloc_error]
        /\ brk w' = (brk w + j)%nat
        /\ writes w' = writes w
        /\ forall q, q <> brk w -> blocks w' !! q = blocks w !! q).
Proof.
  destruct (allocate_matrix_local_outcome rows cols w)
    as [Hdone|(j & w' & Hj & Hnone & Hbefore & Hexit & Hrest)].
  - by left.
  - right. exists j, w'. do 4 (split; [done|]).
    split; [|done]. intros ->. by rewrite allocate_matrix_eq.
Qed.

(** X5. Pointers are fresh, and release undoes allocation. In a state
    where no block lives at or above the next [malloc] number (as in a
    process that starts), an allocation that returns gives a pointer at
    which there was no block, and [free_matrix_local] of that pointer
    with the same [rows] returns and leaves the same blocks as before the
    allocation; no cell was stored to, and the pointers still to be
    handed out are free again. *)
Theorem allocate_then_free_restores {T : Type} `{Scalar T} (rows cols : Z)
    (w w1 : state T) (p : nat) :
  below_brk w ->
  allocate_matrix_local rows cols w = Done (p, w1) ->
  blocks w !! p = None
  /\ below_brk w1
  /\ exists w2,
       free_matrix_local p rows w1 = Done w2
       /\ blocks w2 = blocks w
       /\ writes w2 = writes w
       /\ brk w2 = (brk w + 1 + Z.to_nat rows)%nat
       /\ below_brk w2.
Proof.
  intros Hbelow Hrun.
  pose proof (allocate_matrix_local_served w rows cols p w1 Hrun) as Hserved.
  rewrite (allocate_matrix_local_succeeds w rows cols Hserved) in Hrun.
  injection Hrun as <- <-.
  assert (Hfresh : blocks w !! brk w = None) by (apply Hbelow; lia).
  split; [done|]. split; [by apply below_brk_allocated|].
  exists (freed (allocated w (Z.to_nat rows) (Z.to_nat cols)) (brk w)).
  split.
  { eapply free_matrix_local_run;
      [apply lookup_allocated_eq|by apply shape_fresh_block_served|lia]. }
  split; [cbn; by apply delete_insert_id|]. split; [done|]. split; [done|].
  intros q Hq. cbn in *. rewrite lookup_delete_ne by lia.
  rewrite lookup_insert_ne by lia. apply Hbelow. lia.
Qed.

Lemma allocate_then_free_restores_witness :
  exists w1 w2,
    allocate_matrix_local 1 1 (initial stale_heap) = Done (0%nat, w1)
    /\ free_matrix_local 0 1 w1 = Done w2
    /\ blocks w2 = ∅.
Proof.
  destruct stale_allocation as (w1 & Hrun & _).
  assert (Hbelow : below_brk (initial stale_heap)).
  { intros q _. apply lookup_empty. }
  destruct (allocate_then_free_restores 1 1 (initial stale_heap) w1 0 Hbelow Hrun)
    as (_ & _ & w2 & Hfree & Hblocks & _).
  exists w1, w2. split; [exact Hrun|]. split; [exact Hfree|exact Hblocks].
Defined.



(** ** The programs, whatever [malloc] does *)

Section ProgramFacts2.
Context {T : Type} `{Scalar T}.
Open Scope cell_scope.
Implicit Types (w : state T).
Local Set Warnings "-clear-no-such-hyp".

Lemma lookup_print_lines w lines q :
  blocks (print_lines lines w) !! q = blocks w !! q.
Proof. reflexivity. Qed.

Ltac ptr := cbv [allocated with_block freed print print_lines brk initial]; lia.

Ltac blk :=
  repeat first
    [ rewrite lookup_print
    | rewrite lookup_print_lines
    | rewrite lookup_with_block_at by ptr
    | rewrite lookup_allocated_at by ptr
    | rewrite lookup_with_block_ne by ptr
    | rewrite lookup_allocated_ne by ptr
    | rewrite lookup_freed_ne by ptr ];
  reflexivity.

Ltac shp :=
  first [ apply shape_table
        | apply shape_fresh_block_served; assumption ].

(** An allocation that fails in a state that has printed and stored
    nothing leaves with the failure line alone. *)
Ltac leave_by E Hc Hb Hw Hnone :=
  right; eexists; rewrite E; cbn [bind];
  split; [reflexivity|];
  split; [rewrite Hc; reflexivity|];
  split; [rewrite Hw; reflexivity|];
  split; [rewrite Hb; ptr|];
  rewrite Hb; exact Hnone.

(** The state [main] of the distributed program returns in. *)
Lemma mpi_main_finish_state rank n lrZ pA pB pC pD norm recv w bA bB bC bD :
  blocks w !! pA = Some bA -> blocks w !! pB = Some bB ->
  blocks w !! pC = Some bC -> blocks w !! pD = Some bD ->
  shape (Z.to_nat lrZ) (Z.to_nat n) bA -> shape (Z.to_nat n) (Z.to_nat n) bB ->
  shape (Z.to_nat lrZ) (Z.to_nat n) bC -> shape (Z.to_nat lrZ) (Z.to_nat n) bD ->
  pA <> pB -> pA <> pC -> pA <> pD -> pB <> pC -> pB <> pD -> pC <> pD ->
  (rank = 0 -> is_Some recv) ->
  mpi_main_finish rank (Frame n lrZ pA pB pC pD norm) recv w
  = Done (0, freed (freed (freed (freed (print_lines (norm_lines rank recv) w)
                                        pA) pB) pC) pD).
Proof.
  intros HA HB HC HD SA SB SC SD ? ? ? ? ? ? Hrecv. unfold mpi_main_finish.
  cbn [fr_A_local fr_B fr_C_local fr_D_local fr_local_rows fr_global_n].
  assert ((if rank =? 0
           then match recv with
                | Some g => Done (print (PrintNorm "||C||_F" (s_sqrt g)) w)
                | None => Undefined
                end
           else Done w) = Done (print_lines (norm_lines rank recv) w)) as ->.
  { unfold norm_lines. destruct (Z.eqb_spec rank 0) as [Hr|Hr].
    - by destruct (Hrecv Hr) as [g ->].
    - destruct w as [bs hp k ws out]. unfold print_lines. cbn.
      destruct recv; by rewrite app_nil_r. }
  cbn [bind].
  erewrite free_matrix_local_run; [|exact HA|exact SA|lia]. cbn [bind].
  erewrite free_matrix_local_run;
    [|rewrite lookup_freed_ne by done; exact HB|exact SB|lia]. cbn [bind].
  erewrite free_matrix_local_run;
    [|rewrite !lookup_freed_ne by done; exact HC|exact SC|lia]. cbn [bind].
  erewrite free_matrix_local_run;
    [|rewrite !lookup_freed_ne by done; exact HD|exact SD|lia]. cbn [bind].
  reflexivity.
Qed.

Lemma mpi_rank_outcome rank size argn n h recv :
  size_arg argn n -> (rank = 0 -> is_Some recv) ->
  let lr := Z.to_nat (Partition.local_rows rank size n) in
  let nn := Z.to_nat n in
  ((forall k, (k < 4 + 3 * lr + nn)%nat -> is_Some (h k))
   /\ exists fr w' w'',
        mpi_main_compute rank size argn (initial h) = Done (fr, w')
        /\ fr_local_norm fr = sum_squares (concat (ones_times_twos lr nn))
        /\ console_out w' = []
        /\ mpi_main_finish rank fr recv w' = Done (0, w'')
        /\ blocks w'' = ∅
        /\ brk w'' = (4 + 3 * lr + nn)%nat
        /\ length (writes w'') = (nn * nn + lr * nn * (nn + 5))%nat
        /\ console_out w''
           = match recv with
             | Some g => if rank =? 0 then [PrintNorm "||C||_F" (s_sqrt g)] else []
             | None => []
             end)
  \/ (exists w',
        mpi_main_compute rank size argn (initial h) = Exit 1 w'
        /\ console_out w' = [alloc_error]
        /\ writes w' = []
        /\ (brk w' < 4 + 3 * lr + nn)%nat
        /\ h (brk w') = None).
Proof.
  intros Hn Hrecv lr nn. unfold mpi_main_compute.
  assert (Hparse : match argn with
                   | Some v => if v <=? 0
                               then Exit 1 (if rank =? 0
                                 then print (Stderr "Matrix size must be positive")
                                        (initial h)
                                 else initial h)
                               else Done v
                   | None => Done 500
                   end = Done (T:=T) n).
  { destruct Hn as [[-> Hpos]|[-> ->]]; [|done].
    destruct (Z.leb_spec n 0); [lia|done]. }
  rewrite Hparse. cbn [bind]. rewrite chunk_eq. cbv beta iota zeta.
  fold (Partition.local_rows rank size n).
  set (lrZ := Partition.local_rows rank size n) in *.
  destruct (allocate_matrix_local_outcome lrZ n (initial h))
    as [[S0 E]|(j & w' & Hj & Hnone & _ & E & Hc & Hb & Hw & _)];
    [|leave_by E Hc Hb Hw Hnone].
  rewrite E. cbn [bind]. fold lr nn in S0 |- *.
  destruct (allocate_matrix_local_outcome n n (allocated (initial h) lr nn))
    as [[S1 E1]|(j & w' & Hj & Hnone & _ & E1 & Hc & Hb & Hw & _)];
    [|leave_by E1 Hc Hb Hw Hnone].
  rewrite E1. cbn [bind]. fold nn in S1 |- *.
  destruct (allocate_matrix_local_outcome lrZ n
              (allocated (allocated (initial h) lr nn) nn nn))
    as [[S2 E2]|(j & w' & Hj & Hnone & _ & E2 & Hc & Hb & Hw & _)];
    [|leave_by E2 Hc Hb Hw Hnone].
  rewrite E2. cbn [bind]. fold lr nn in S2 |- *.
  destruct (allocate_matrix_local_outcome lrZ n
              (allocated (allocated (allocated (initial h) lr nn) nn nn) lr nn))
    as [[S3 E3]|(j & w' & Hj & Hnone & _ & E3 & Hc & Hb & Hw & _)];
    [|leave_by E3 Hc Hb Hw Hnone].
  rewrite E3. cbn [bind]. fold lr nn in S3 |- *.
  left. split.
  { intros k Hk.
    destruct (Nat.lt_ge_cases k (1 + lr)); [apply S0; ptr|].
    destruct (Nat.lt_ge_cases k (2 + lr + nn)); [apply S1; ptr|].
    destruct (Nat.lt_ge_cases k (3 + 2 * lr + nn)); [apply S2; ptr|].
    apply S3; ptr. }
  do 4 (erewrite initialize_matrix_local_run; [|blk|shp]; cbn [bind]).
  erewrite matrix_multiply_local_run; [|blk|blk|blk|shp|shp|shp|ptr|ptr].
  cbn [bind].
  erewrite matrix_add_local_run; [|blk|blk|blk|shp|shp|shp|ptr|ptr].
  cbn [bind].
  erewrite compute_local_norm_run; [|blk|shp]. cbn [bind].
  eexists _, _, _. split; [reflexivity|]. split; [reflexivity|].
  split; [reflexivity|]. cbn [fst snd].
  split.
  { eapply mpi_main_finish_state; [blk|blk|blk|blk|shp|shp|shp|shp|ptr..|exact Hrecv]. }
  split.
  { cbn [blocks freed print_lines with_block allocated initial].
    apply (dom_empty_iff_L (D := gset nat)).
    rewrite !dom_delete_L, !dom_insert_L, dom_empty_L. set_solver. }
  split; [cbv [allocated with_block freed print_lines brk initial]; lia|].
  split.
  { cbn [writes freed print_lines with_block allocated initial].
    rewrite !length_app, !length_fill_writes, length_product_writes,
      length_sum_writes.
    fold lr nn. cbn [length]. lia. }
  reflexivity.
Qed.

Lemma serial_main_outcome argn n h :
  size_arg argn n ->
  let nn := Z.to_nat n in
  ((forall k, (k < 5 * (nn + 1))%nat -> is_Some (h k))
   /\ exists w',
        serial_main argn (initial h) = Done (0, w')
        /\ blocks w' = ∅
        /\ brk w' = (5 * (nn + 1))%nat
        /\ length (writes w') = (nn * nn * (nn + 8))%nat
        /\ console_out w'
           = [PrintNorm "||C||_F" (s_sqrt (sum_squares (concat (ones_times_twos nn nn))));
              PrintNorm "||D||_F"
                (s_sqrt (sum_squares (concat (product_plus_ones nn nn))))])
  \/ (exists w',
        serial_main argn (initial h) = Exit 1 w'
        /\ console_out w' = [alloc_error]
        /\ writes w' = []
        /\ (brk w' < 5 * (nn + 1))%nat
        /\ h (brk w') = None).
Proof.
  intros Hn nn. unfold serial_main.
  assert (Hparse : match argn with
                   | Some v => if v <=? 0
                               then Exit 1 (print (Stderr "Matrix size must be positive")
                                              (initial h))
                               else Done v
                   | None => Done 500
                   end = Done (T:=T) n).
  { destruct Hn as [[-> Hpos]|[-> ->]]; [|done].
    destruct (Z.leb_spec n 0); [lia|done]. }
  rewrite Hparse. cbn [bind]. rewrite allocate_matrix_eq.
  destruct (allocate_matrix_local_outcome n n (initial h))
    as [[S0 E]|(j & w' & Hj & Hnone & _ & E & Hc & Hb & Hw & _)];
    [|leave_by E Hc Hb Hw Hnone].
  rewrite E. cbn [bind]. fold nn in S0 |- *. rewrite allocate_matrix_eq.
  destruct (allocate_matrix_local_outcome n n (allocated (initial h) nn nn))
    as [[S1 E1]|(j & w' & Hj & Hnone & _ & E1 & Hc & Hb & Hw & _)];
    [|leave_by E1 Hc Hb Hw Hnone].
  rewrite E1. cbn [bind]. fold nn in S1 |- *. rewrite allocate_matrix_eq.
  destruct (allocate_matrix_local_outcome n n
              (allocated (allocated (initial h) nn nn) nn nn))
    as [[S2 E2]|(j & w' & Hj & Hnone & _ & E2 & Hc & Hb & Hw & _)];
    [|leave_by E2 Hc Hb Hw Hnone].
  rewrite E2. cbn [bind]. fold nn in S2 |- *. rewrite allocate_matrix_eq.
  destruct (allocate_matrix_local_outcome n n
              (allocated (allocated (allocated (initial h) nn nn) nn nn) nn nn))
    as [[S3 E3]|(j & w' & Hj & Hnone & _ & E3 & Hc & Hb & Hw & _)];
    [|leave_by E3 Hc Hb Hw Hnone].
  rewrite E3. cbn [bind]. fold nn in S3 |- *. rewrite allocate_matrix_eq.
  destruct (allocate_matrix_local_outcome n n
              (allocated (allocated (allocated (allocated (initial h) nn nn) nn nn)
                            nn nn) nn nn))
    as [[S4 E4]|(j & w' & Hj & Hnone & _ & E4 & Hc & Hb & Hw & _)];
    [|leave_by E4 Hc Hb Hw Hnone].
  rewrite E4. cbn [bind]. fold nn in S4 |- *.
  left. split.
  { intros k Hk.
    destruct (Nat.lt_ge_cases k (1 * (nn + 1))); [apply S0; ptr|].
    destruct (Nat.lt_ge_cases k (2 * (nn + 1))); [apply S1; ptr|].
    destruct (Nat.lt_ge_cases k (3 * (nn + 1))); [apply S2; ptr|].
    destruct (Nat.lt_ge_cases k (4 * (nn + 1))); [apply S3; ptr|].
    apply S4; ptr. }
  do 5 (rewrite initialize_matrix_eq;
        erewrite initialize_matrix_local_run; [|blk|shp]; cbn [bind]).
  rewrite matrix_multiply_eq.
  erewrite matrix_multiply_local_run; [|blk|blk|blk|shp|shp|shp|ptr|ptr].
  cbn [bind]. rewrite matrix_add_eq.
  erewrite matrix_add_local_run; [|blk|blk|blk|shp|shp|shp|ptr|ptr].
  cbn [bind].
  erewrite matrix_transpose_run; [|blk|blk|shp|shp|ptr]. cbn [bind].
  do 2 (rewrite compute_frobenius_norm_eq;
        erewrite compute_local_norm_run; [|blk|shp]; cbn [bind]).
  cbv zeta.
  do 5 (rewrite free_matrix_eq;
        erewrite free_matrix_local_run; [|blk|shp|fold nn; lia]; cbn [bind]).
  eexists. split; [reflexivity|].
  split.
  { cbn [blocks freed print with_block allocated initial].
    apply (dom_empty_iff_L (D := gset nat)).
    rewrite !dom_delete_L, !dom_insert_L, dom_empty_L. set_solver. }
  split; [cbv [allocated with_block freed print brk initial]; lia|].
  split.
  { cbn [writes freed print with_block allocated initial].
    rewrite !length_app, !length_fill_writes, length_product_writes,
      length_sum_writes, !length_flat_map_const with (k := nn);
      [|intros; rewrite (length_flat_map_const _ _ 1), length_seq; [lia|done]].
    rewrite !length_seq. fold nn. cbn [length]. lia. }
  reflexivity.
Qed.

End ProgramFacts2.


(** X7. Every run of the serial program ends in one of three ways, and is
    never undefined.
    - The argument is not positive: the program leaves with status 1
      (see C7).
    - The size is [n] and the first [5 * (n + 1)] calls of [malloc]
      succeed: the program returns 0, having printed the two norm lines,
      made [n * n * (n + 8)] stores to matrix cells, and released every
      block it allocated.
    - One of these calls fails: the program prints "Memory allocation
      failed" and leaves with status 1 at that call, before any cell has
      been stored to and without printing a norm. *)
Theorem serial_program_outcome {T : Type} `{Scalar T} (h : nat -> option (nat -> T))
    (argn : option Z) :
  (exists v, argn = Some v /\ v <= 0
             /\ serial_program h argn = Exit 1 (print size_error (initial h)))
  \/ (exists n,
        size_arg argn n
        /\ (((forall k, (k < 5 * (Z.to_nat n + 1))%nat -> is_Some (h k))
             /\ exists w',
                  serial_program h argn = Done (0, w')
                  /\ blocks w' = ∅
                  /\ brk w' = (5 * (Z.to_nat n + 1))%nat
                  /\ length (writes w')
                     = (Z.to_nat n * Z.to_nat n * (Z.to_nat n + 8))%nat
                  /\ exists v_C v_D,
                       console_out w'
                       = [PrintNorm "||C||_F" v_C; PrintNorm "||D||_F" v_D])
            \/ (exists w',
                  serial_program h argn = Exit 1 w'
                  /\ console_out w' = [alloc_error]
                  /\ writes w' = []
                  /\ (brk w' < 5 * (Z.to_nat n + 1))%nat
                  /\ h (brk w') = None))).
Proof.
  assert (Hcases : (exists v, argn = Some v /\ v <= 0) \/ exists n, size_arg argn n).
  { destruct argn as [v|]; [|right; exists 500; by right].
    destruct (Z.le_gt_cases v 0); [left; by exists v|].
    right. exists v. left. split; [done|lia]. }
  destruct Hcases as [(v & -> & Hv)|(n & Hn)].
  - left. exists v. split; [done|]. split; [done|].
    unfold serial_program, serial_main. by destruct (Z.leb_spec v 0); [|lia].
  - right. exists n. split; [done|]. unfold serial_program.
    destruct (serial_main_outcome argn n h Hn)
      as [(Hall & w' & Hrun & Hblocks & Hbrk & Hcount & Hout)|Hexit].
    + left. split; [done|]. exists w'. do 4 (split; [done|]). by eexists _, _.
    + by right.
Qed.





Section ConstantFacts.
Context {T : Type} `{Scalar T}.
Open Scope cell_scope.

Lemma table_constant rows cols (v : T) :
  table rows cols (fun _ _ => v) = replicate rows (replicate cols v).
Proof.
  unfold table.
  assert (Hrep : forall {X Y} (y : Y) (l : list X),
             map (fun _ => y) l = replicate (length l) y).
  { intros X Y y l. induction l as [|x l IH]; [done|]. simpl. by rewrite IH. }
  by rewrite !Hrep, !length_seq.
Qed.

Lemma dot_upto_constant rows n k i j :
  (i < rows)%nat -> (j < n)%nat -> (k <= n)%nat ->
  dot_upto (ones rows n) (twos n n) k i j = constant_dot k.
Proof.
  intros Hi Hj. unfold dot_upto, constant_dot.
  induction k as [|k IH]; intros Hk; [done|].
  rewrite seq_S, fold_left_app. simpl. rewrite IH by lia.
  unfold ones, twos. by rewrite !get_table by lia.
Qed.

Lemma ones_times_twos_constant rows n :
  ones_times_twos rows n = replicate rows (replicate n (constant_dot n)).
Proof.
  unfold ones_times_twos, product. rewrite <- table_constant.
  apply table_ext. intros i j Hi Hj. by apply dot_upto_constant.
Qed.

Lemma product_plus_ones_constant rows n :
  product_plus_ones rows n
  = replicate rows (replicate n (constant_dot n ⊕ s_one)).
Proof.
  unfold product_plus_ones. rewrite <- table_constant.
  apply table_ext. intros i j Hi Hj.
  rewrite ones_times_twos_constant, <- table_constant.
  unfold ones. by rewrite !get_table.
Qed.

Lemma concat_replicate_replicate rows n (v : T) :
  concat (replicate rows (replicate n v)) = replicate (rows * n) v.
Proof.
  induction rows as [|rows IH]; [done|].
  simpl. by rewrite IH, replicate_add.
Qed.

Lemma sum_squares_replicate count (v : T) :
  sum_squares (replicate count v) = square_sum count v.
Proof.
  unfold sum_squares, square_sum. generalize (s_zero (T := T)) as s.
  induction count as [|count IH]; intros s; [done|].
  simpl. rewrite IH. clear IH. induction count as [|count IH]; [done|].
  simpl. by rewrite IH.
Qed.

Lemma sum_squares_constant rows n (v : T) :
  sum_squares (concat (replicate rows (replicate n v))) = square_sum (rows * n) v.
Proof. by rewrite concat_replicate_replicate, sum_squares_replicate. Qed.

End ConstantFacts.

Lemma constant_dot_exact n : constant_dot (T := Z) n = 2 * Z.of_nat n.
Proof.
  unfold constant_dot. induction n as [|n IH]; [done|].
  rewrite Nat.iter_succ, IH. simpl. lia.
Qed.

Lemma square_sum_exact count v : square_sum (T := Z) count v = Z.of_nat count * (v * v).
Proof.
  unfold square_sum. induction count as [|count IH]; [done|].
  rewrite Nat.iter_succ, IH. simpl. lia.
Qed.

(** X10. With the operands the programs initialise ([A] all 1.0, [B] all
    2.0) and every call of [malloc] served, every cell of the product is
    the [n]-term running sum [constant_dot n], so the sum of squares a rank
    sends to the reduction is the running sum of [local_rows * n] equal
    squares: it depends on the rank only through its number of rows. The
    serial program prints the square roots of such sums of [n * n] squares,
    of [constant_dot n] for [C] and of [constant_dot n + 1.0] for [D]. *)
Theorem norms_of_the_constant_operands {T : Type} `{Scalar T} (rank size : Z)
    (argn : option Z) (n : Z) (h : nat -> option (nat -> T)) :
  size_arg argn n -> (forall k, is_Some (h k)) ->
  (exists fr w,
     mpi_main_compute rank size argn (initial h) = Done (fr, w)
     /\ fr_local_norm fr
        = square_sum (Z.to_nat (Partition.local_rows rank size n) * Z.to_nat n)
                     (constant_dot (Z.to_nat n)))
  /\ (exists w,
        serial_program h argn = Done (0, w)
        /\ console_out w
           = [PrintNorm "||C||_F"
                (s_sqrt (square_sum (Z.to_nat n * Z.to_nat n)
                                    (constant_dot (Z.to_nat n))));
              PrintNorm "||D||_F"
                (s_sqrt (square_sum (Z.to_nat n * Z.to_nat n)
                                    (constant_dot (Z.to_nat n) ⊕ s_one)%cell))]).
Proof.
  intros Hn Hserved. split.
  - destruct (mpi_rank_outcome rank size argn n h (Some s_zero) Hn
                ltac:(intros _; by eexists))
      as [(_ & fr & w' & _ & Hrun & Hnorm & _)|(w' & _ & _ & _ & _ & Hnone)].
    + exists fr, w'. split; [exact Hrun|].
      by rewrite Hnorm, ones_times_twos_constant, sum_squares_constant.
    + destruct (Hserved (brk w')) as [g Hg]. congruence.
  - unfold serial_program.
    destruct (serial_main_outcome argn n h Hn)
      as [(_ & w' & Hrun & _ & _ & _ & Hout)|(w' & _ & _ & _ & _ & Hnone)].
    + exists w'. split; [exact Hrun|]. rewrite Hout.
      by rewrite ones_times_twos_constant, product_plus_ones_constant,
        !sum_squares_constant.
    + destruct (Hserved (brk w')) as [g Hg]. congruence.
Qed.

Lemma norms_of_the_constant_operands_witness :
  exists w,
    serial_program stale_heap (Some 2) = Done (0, w)
    /\ console_out w = [PrintNorm "||C||_F" 8%float; PrintNorm "||D||_F" 10%float].
Proof.
  assert (Harg : size_arg (Some 2) 2) by (left; split; [reflexivity|lia]).
  assert (Hserved : forall k : nat, is_Some (stale_heap k))
    by (intros k; eexists; reflexivity).
  destruct (proj2 (norms_of_the_constant_operands 0 1 (Some 2) 2 stale_heap
                     Harg Hserved))
    as (w & Hrun & Hout).
  exists w. split; [exact Hrun|]. rewrite Hout. vm_compute. reflexivity.
Defined.

(** X11. A rank that has no row ([n <= rank < size], more ranks than
    rows) still allocates its four arrays of row pointers and the [n] rows
    of [B], and fills [B] with [n * n] stores; it sends 0.0 to the
    reduction, prints nothing and returns 0. *)
Theorem idle_rank_contributes_nothing {T : Type} `{Scalar T} (rank size : Z)
    (argn : option Z) (n : Z) (h : nat -> option (nat -> T)) :
  size_arg argn n -> n <= rank < size ->
  (forall k, (k < 4 + Z.to_nat n)%nat -> is_Some (h k)) ->
  Partition.local_rows rank size n = 0
  /\ exists fr w' w'',
       mpi_main_compute rank size argn (initial h) = Done (fr, w')
       /\ fr_local_norm fr = s_zero
       /\ mpi_main_finish rank fr None w' = Done (0, w'')
       /\ brk w'' = (4 + Z.to_nat n)%nat
       /\ length (writes w'') = (Z.to_nat n * Z.to_nat n)%nat
       /\ console_out w'' = []
       /\ blocks w'' = ∅.
Proof.
  intros Hn Hrank Hserved.
  assert (Hpos : 0 < n) by (destruct Hn as [[_ Hn]|[_ ->]]; lia).
  assert (Hrows : Partition.local_rows rank size n = 0).
  { assert (Hsize : 1 <= size) by lia. assert (Hn0 : 0 <= n) by lia.
    pose proof (PartitionFacts.local_start_le_end size n Hsize Hn0 rank) as Hle.
    pose proof (PartitionFacts.local_start_mono size n Hsize Hn0 n rank ltac:(lia))
      as Hmono.
    pose proof (PartitionFacts.local_end_le_n size n Hsize Hn0 rank ltac:(lia))
      as Hend.
    assert (Partition.local_start n size n = n).
    { rewrite PartitionFacts.local_start_eq.
      rewrite (Z.quot_small n size), (Z.rem_small n size) by lia.
      rewrite Z.ltb_irrefl. lia. }
    unfold Partition.local_rows. lia. }
  split; [exact Hrows|].
  destruct (mpi_rank_outcome rank size argn n h None Hn ltac:(lia))
    as [(_ & fr & w' & w'' & Hrun & Hnorm & _ & Hfin & Hblocks & Hbrk & Hcount & Hout)
       |(w' & _ & _ & _ & Hlt & Hnone)].
  - rewrite Hrows in *. exists fr, w', w''.
    split; [exact Hrun|]. split; [exact Hnorm|]. split; [exact Hfin|].
    split; [rewrite Hbrk; simpl; lia|]. split; [rewrite Hcount; simpl; lia|].
    by split.
  - rewrite Hrows in Hlt. destruct (Hserved (brk w')) as [g Hg]; [simpl in Hlt; lia|].
    congruence.
Qed.

Lemma idle_rank_contributes_nothing_witness :
  Partition.local_rows 2 3 2 = 0
  /\ exists fr w',
       mpi_main_compute 2 3 (Some 2) (initial stale_heap) = Done (fr, w')
       /\ fr_local_norm fr = 0%float.
Proof.
  assert (Harg : size_arg (Some 2) 2) by (left; split; [reflexivity|lia]).
  assert (Hserved : forall k : nat, (k < 4 + Z.to_nat 2)%nat -> is_Some (stale_heap k))
    by (intros k _; eexists; reflexivity).
  destruct (idle_rank_contributes_nothing 2 3 (Some 2) 2 stale_heap Harg
              ltac:(lia) Hserved)
    as (Hrows & fr & w' & _ & Hrun & Hnorm & _).
  split; [exact Hrows|]. exists fr, w'. split; [exact Hrun|exact Hnorm].
Defined.

(** X12. Over exact arithmetic, with every call of [malloc] served, the
    serial program prints [2 * n * n] for the norm of [C] and
    [n * (2 * n + 1)] for the norm of [D], and rank [rank] of [size] sends
    [local_rows * n * (2 * n) * (2 * n)] to the reduction. *)
Theorem exact_norms (rank size : Z) (argn : option Z) (n : Z)
    (h : nat -> option (nat -> Z)) :
  size_arg argn n -> (forall k, is_Some (h k)) -> 0 <= rank < size ->
  (exists w,
     serial_program h argn = Done (0, w)
     /\ console_out w
        = [PrintNorm "||C||_F" (2 * n * n); PrintNorm "||D||_F" (n * (2 * n + 1))])
  /\ (exists fr w,
        mpi_main_compute rank size argn (initial h) = Done (fr, w)
        /\ fr_local_norm fr
           = Partition.local_rows rank size n * n * ((2 * n) * (2 * n))).
Proof.
  intros Hn Hserved Hrank.
  assert (Hpos : 0 < n) by (destruct Hn as [[_ Hn]|[_ ->]]; lia).
  split.
  - unfold serial_program.
    destruct (serial_main_outcome argn n h Hn)
      as [(_ & w' & Hrun & _ & _ & _ & Hout)|(w' & _ & _ & _ & _ & Hnone)].
    + exists w'. split; [exact Hrun|]. rewrite Hout.
      rewrite ones_times_twos_constant, product_plus_ones_constant,
        !sum_squares_constant, !square_sum_exact, constant_dot_exact.
      cbn [s_sqrt s_add s_one exact]. rewrite Nat2Z.inj_mul, !Z2Nat.id by lia.
      replace (n * n * (2 * n * (2 * n))) with ((2 * n * n) * (2 * n * n)) by lia.
      replace (n * n * ((2 * n + 1) * (2 * n + 1)))
        with ((n * (2 * n + 1)) * (n * (2 * n + 1))) by lia.
      rewrite !Z.sqrt_square by nia. reflexivity.
    + destruct (Hserved (brk w')) as [g Hg]. congruence.
  - destruct (mpi_rank_outcome rank size argn n h (Some s_zero) Hn
                ltac:(intros _; by eexists))
      as [(_ & fr & w' & _ & Hrun & Hnorm & _)|(w' & _ & _ & _ & _ & Hnone)].
    + exists fr, w'. split; [exact Hrun|]. rewrite Hnorm.
      rewrite ones_times_twos_constant, sum_squares_constant, square_sum_exact,
        constant_dot_exact.
      pose proof (PartitionFacts.local_start_le_end size n ltac:(lia) ltac:(lia) rank).
      unfold Partition.local_rows.
      rewrite Nat2Z.inj_mul, !Z2Nat.id by lia. reflexivity.
    + destruct (Hserved (brk w')) as [g Hg]. congruence.
Qed.

Lemma exact_norms_witness :
  exists w,
    serial_program clean_heap (Some 3) = Done (0, w)
    /\ console_out w = [PrintNorm "||C||_F" 18; PrintNorm "||D||_F" 21].
Proof.
  assert (Harg : size_arg (Some 3) 3) by (left; split; [reflexivity|lia]).
  assert (Hserved : forall k : nat, is_Some (clean_heap k))
    by (intros k; eexists; reflexivity).
  destruct (proj1 (exact_norms 0 1 (Some 3) 3 clean_heap Harg Hserved ltac:(lia)))
    as (w & Hrun & Hout).
  exists w. split; [exact Hrun|exact Hout].
Defined.

(** ** The helper functions *)

Section HelperFacts.
Context {T : Type}.

Lemma as_int_in_range (z : Z) :
  - Partition.INT_MAX - 1 <= z <= Partition.INT_MAX -> as_int (T := T) z = Done z.
Proof.
  intros Hz. unfold as_int.
  destruct (Z.leb_spec (- Partition.INT_MAX - 1) z); [|lia].
  by destruct (Z.leb_spec z Partition.INT_MAX); [|lia].
Qed.

Lemma as_int_above (z : Z) : Partition.INT_MAX < z -> as_int (T := T) z = Undefined.
Proof.
  intros Hz. unfold as_int.
  destruct (Z.leb_spec z Partition.INT_MAX); [lia|]. by rewrite andb_false_r.
Qed.

Lemma triangle_step (i : nat) :
  Z.of_nat i * (Z.of_nat i - 1) / 2 + Z.of_nat i
  = Z.of_nat (S i) * (Z.of_nat (S i) - 1) / 2.
Proof.
  rewrite <- Z.div_add by lia. f_equal. lia.
Qed.

Lemma triangle_bounds (k : Z) :
  0 <= k <= 65536 -> 0 <= k * (k - 1) / 2 <= 2147450880.
Proof.
  intros Hk. split.
  - apply Z.div_pos; nia.
  - change 2147450880 with (65536 * 65535 / 2). apply Z.div_le_mono; nia.
Qed.

Lemma lightweight_loop (count : nat) :
  Z.of_nat count <= 65536 ->
  for_loop (T := T) count 0 (fun i sum => as_int (sum + Z.of_nat i)) 0
  = Done (Z.of_nat count * (Z.of_nat count - 1) / 2).
Proof.
  intros Hcount.
  apply (for_loop_closed (fun i => Z.of_nat i * (Z.of_nat i - 1) / 2)
           (fun i sum => as_int (sum + Z.of_nat i)) count 0).
  intros i Hi. rewrite triangle_step. apply as_int_in_range.
  pose proof (triangle_bounds (Z.of_nat (S i)) ltac:(lia)).
  unfold Partition.INT_MAX. lia.
Qed.

Lemma print_row (matrix : nat) (w : state T) (b : list (list T)) (row : list T)
    (i : nat) (n : nat) :
  blocks w !! matrix = Some b -> b !! i = Some row -> length row = n ->
  for_loop n 0 (fun j acc => bind (load matrix i j w) (fun x => Done (acc ++ [x])))
           []
  = Done row.
Proof.
  intros Hb Hrow Hlen.
  transitivity (Done (T := T) (take (0 + n) row)); [|by rewrite take_ge by (simpl; lia)].
  apply (for_loop_closed (fun j => take j row)
           (fun j acc => bind (load matrix i j w) (fun x => Done (acc ++ [x]))) n 0).
  intros j Hj. destruct (lookup_lt_is_Some_2 row j) as [x Hx]; [lia|].
  unfold load. rewrite Hb, Hrow, Hx. simpl. by erewrite take_S_r.
Qed.

End HelperFacts.

Lemma busy_row_returns (i : nat) (result : float) :
  Z.of_nat i <= 2149633 -> exists result', busy_row i result = Done result'.
Proof.
  intros Hi. unfold busy_row, for_int. apply for_loop_returns.
  intros j r Hj. rewrite as_int_in_range; [by eexists|].
  change (Z.to_nat 1000) with 1000%nat in Hj.
  assert (0 <= Z.of_nat i * Z.of_nat j <= 2149633 * 999)
    by (split; [apply Z.mul_nonneg_nonneg; lia|apply Z.mul_le_mono_nonneg; lia]).
  unfold Partition.INT_MAX. lia.
Qed.

Lemma busy_row_undefined (i : nat) (result : float) :
  Z.of_nat i = 2149634 -> busy_row i result = Undefined.
Proof.
  intros Hi. unfold busy_row, for_int.
  apply (for_loop_undefined _ _ _ 999).
  - change (Z.to_nat 1000) with 1000%nat. lia.
  - intros j r Hj. rewrite as_int_in_range; [by eexists|].
    rewrite Hi. unfold Partition.INT_MAX. lia.
  - intros r. rewrite as_int_above; [done|].
    rewrite Hi. unfold Partition.INT_MAX. lia.
Qed.

(** X13. [lightweight_function] adds up [0 + 1 + ... + (iterations - 1)]
    in an [int]: for [iterations <= 65536] the sum is
    [iterations * (iterations - 1) / 2] (0 when [iterations <= 0]) and the
    function returns; for a larger argument the sum leaves the range of
    [int], which is undefined behaviour. The argument of [main], 1000, is
    in range. *)
Theorem lightweight_function_sums {T : Type} (iterations : Z) :
  (iterations <= 0 -> lightweight_function (T := T) iterations = Done 0)
  /\ (0 <= iterations <= 65536 ->
      lightweight_function (T := T) iterations
      = Done (iterations * (iterations - 1) / 2))
  /\ (65536 < iterations -> lightweight_function (T := T) iterations = Undefined)
  /\ lightweight_function (T := T) 1000 = Done 499500.
Proof.
  assert (Hrange : forall k, 0 <= k <= 65536 ->
            lightweight_function (T := T) k = Done (k * (k - 1) / 2)).
  { intros k Hk. unfold lightweight_function, for_int.
    rewrite lightweight_loop by lia. by rewrite Z2Nat.id by lia. }
  split; [|split; [exact (Hrange iterations)|split; [|by rewrite Hrange by lia]]].
  - intros Hle. unfold lightweight_function. by apply for_int_nonpos.
  - intros Hgt. unfold lightweight_function, for_int.
    replace (Z.to_nat iterations)
      with (Z.to_nat 65536 + S (Z.to_nat (iterations - 65537)))%nat by lia.
    rewrite for_loop_split, lightweight_loop by lia.
    cbn [bind for_loop]. rewrite Nat.add_0_l, Z2Nat.id by lia.
    by rewrite as_int_above by (unfold Partition.INT_MAX; vm_compute; reflexivity).
Qed.

Lemma lightweight_function_sums_witness :
  lightweight_function (T := float) 10 = Done 45
  /\ lightweight_function (T := float) 65537 = Undefined.
Proof.
  destruct (lightweight_function_sums (T := float) 10) as (_ & Hsum & _).
  destruct (lightweight_function_sums (T := float) 65537) as (_ & _ & Hover & _).
  split; [apply Hsum; lia|apply Hover; lia].
Defined.

(** X14. [busy_wait_compute] and [busy_wait_function] are the same
    function. The product [i * j] is computed in [int] before the
    conversion to [double]: the call returns for
    [iterations <= 2149634] (also for [iterations <= 0], with no
    iteration), and for a larger argument [i * j] leaves the range of
    [int] at [i = 2149634], [j = 999], which is undefined behaviour. The
    argument of both [main]s, 10000, is in range. *)
Theorem busy_wait_range (iterations : Z) :
  busy_wait_function iterations = busy_wait_compute iterations
  /\ (iterations <= 0 -> busy_wait_compute iterations = Done 0%float)
  /\ (iterations <= 2149634 ->
      exists result, busy_wait_compute iterations = Done result)
  /\ (2149634 < iterations -> busy_wait_compute iterations = Undefined)
  /\ exists result, busy_wait_compute 10000 = Done result.
Proof.
  assert (Hloop : forall k, busy_wait_compute k
                            = for_loop (Z.to_nat k) 0 busy_row 0%float)
    by reflexivity.
  assert (Hrange : forall k, k <= 2149634 ->
            exists result, busy_wait_compute k = Done result).
  { intros k Hk. rewrite Hloop. apply for_loop_returns.
    intros i r Hi. apply busy_row_returns. lia. }
  split; [reflexivity|].
  split; [|split; [exact (Hrange iterations)|split; [|apply Hrange; lia]]].
  - intros Hle. rewrite Hloop. by replace (Z.to_nat iterations) with 0%nat by lia.
  - intros Hgt. rewrite Hloop.
    apply (for_loop_undefined busy_row _ _ (Z.to_nat 2149634)).
    + lia.
    + intros i r Hi. apply busy_row_returns. lia.
    + intros r. apply busy_row_undefined. lia.
Qed.

Lemma busy_wait_range_witness :
  busy_wait_compute 2 = Done 499.5%float
  /\ busy_wait_compute 2149635 = Undefined.
Proof.
  split.
  - vm_compute. reflexivity.
  - destruct (busy_wait_range 2149635) as (_ & _ & _ & Hover & _).
    apply Hover. lia.
Defined.

(** X15. [print_matrix] reads the matrix only when [n <= 10]. For
    [n > 10] it prints the one line saying the matrix is too large and
    reads no cell, so it returns whatever the pointer is. For [n <= 0] it
    prints the name and no cell. For [0 < n <= 10] and a pointer to an
    [n] x [n] block it prints the name and then every cell of the block
    once, row by row, in the order the block holds them; on a pointer to
    no block it is undefined. *)
Theorem print_matrix_dumps_small_blocks {T : Type} (matrix : nat) (n : Z)
    (name : string) (w : state T) :
  (10 < n -> print_matrix matrix n name w = Done (TooLarge name n))
  /\ (n <= 0 -> print_matrix matrix n name w = Done (Cells name []))
  /\ (forall b, n <= 10 -> blocks w !! matrix = Some b ->
        length b = Z.to_nat n ->
        Forall (fun row => length row = Z.to_nat n) b ->
        print_matrix matrix n name w = Done (Cells name b))
  /\ (0 < n <= 10 -> blocks w !! matrix = None ->
      print_matrix matrix n name w = Undefined).
Proof.
  split; [|split; [|split]].
  - intros Hn. unfold print_matrix. by destruct (Z.ltb_spec 10 n); [|lia].
  - intros Hn. unfold print_matrix. destruct (Z.ltb_spec 10 n); [lia|].
    by rewrite for_int_nonpos.
  - intros b Hn Hb Hlen Hrows. unfold print_matrix.
    destruct (Z.ltb_spec 10 n); [lia|]. unfold for_int.
    set (body := fun (i : nat) (rows : list (list T)) => bind _ _).
    assert (Hloop : for_loop (Z.to_nat n) 0 body [] = Done (take (0 + Z.to_nat n) b)).
    { apply (for_loop_closed (fun i => take i b) body (Z.to_nat n) 0).
      intros i Hi. destruct (lookup_lt_is_Some_2 b i) as [row Hrow]; [lia|].
      unfold body. rewrite (print_row matrix w b row i (Z.to_nat n) Hb Hrow).
      - simpl. by erewrite take_S_r.
      - by eapply (proj1 (Forall_lookup _ _) Hrows). }
    rewrite Hloop. simpl. by rewrite take_ge by lia.
  - intros Hn Hnone. unfold print_matrix. destruct (Z.ltb_spec 10 n); [lia|].
    unfold for_int. destruct (Z.to_nat n) as [|k] eqn:Hk; [lia|].
    simpl. unfold load. by rewrite Hnone.
Qed.

Lemma print_matrix_dumps_small_blocks_witness :
  print_matrix 1 2 "B" bench = Done (Cells "B" [[2; 2]; [2; 2]]%float)
  /\ print_matrix 9 11 "A" bench = Done (TooLarge "A" 11).
Proof.
  destruct (print_matrix_dumps_small_blocks 1 2 "B" bench) as (_ & _ & Hsmall & _).
  destruct (print_matrix_dumps_small_blocks 9 11 "A" bench) as (Hlarge & _).
  split.
  - apply (Hsmall [[2; 2]; [2; 2]]%float); [lia|reflexivity|reflexivity|].
    repeat constructor.
  - apply Hlarge. lia.
Defined.

(** X16. The signed arithmetic of [compute_local_chunk] never overflows
    on the inputs [main] gives it: for [1 <= size], [0 <= rank < size] and
    [0 <= n <= INT_MAX], the quotient, the remainder, the product
    [rank * rows_per_rank], the two sums and both results lie in
    [[0, INT_MAX]]. *)
Theorem chunk_arithmetic_stays_in_int (rank size n : Z) :
  0 <= rank < size -> 0 <= n <= Partition.INT_MAX ->
  0 <= n ÷ size <= Partition.INT_MAX
  /\ 0 <= Z.rem n size <= Partition.INT_MAX
  /\ 0 <= rank * (n ÷ size) <= Partition.INT_MAX
  /\ 0 <= Partition.local_start rank size n <= Partition.INT_MAX
  /\ 0 <= Partition.local_start rank size n + n ÷ size <= Partition.INT_MAX
  /\ 0 <= Partition.local_end rank size n <= Partition.INT_MAX
  /\ 0 <= Partition.local_rows rank size n <= Partition.INT_MAX.
Proof.
  intros Hrank Hn.
  pose proof (PartitionFacts.chunk_within_int size n ltac:(lia) ltac:(lia) rank
                Hrank ltac:(lia)) as (Hq & Hm & Hmul & Hstart & Hsum & Hend).
  pose proof (PartitionFacts.local_start_le_end size n ltac:(lia) ltac:(lia) rank).
  do 6 (split; [assumption|]). unfold Partition.local_rows. lia.
Qed.

Lemma chunk_arithmetic_stays_in_int_witness :
  0 <= Partition.local_end 2 3 Partition.INT_MAX <= Partition.INT_MAX.
Proof.
  destruct (chunk_arithmetic_stays_in_int 2 3 Partition.INT_MAX
              ltac:(lia) ltac:(unfold Partition.INT_MAX; lia))
    as (_ & _ & _ & _ & _ & Hend & _).
  exact Hend.
Defined.

(** ** Filling a block in place *)

Section InPlace.
Context {T : Type} `{Scalar T}.
Implicit Types (w : state T) (c : block T) (f : nat -> nat -> T).

Lemma partly_filled_start f c cols : partly_filled f c cols 0 0 = c.
Proof. unfold partly_filled. by destruct c. Qed.

Lemma partly_filled_row_done f c rows cols i :
  shape rows cols c -> (i < rows)%nat ->
  partly_filled f c cols i cols = partly_filled f c cols (S i) 0.
Proof.
  intros Hc Hi. destruct (shape_row _ _ _ i Hc Hi) as (row0 & Hrow0 & Hlen).
  unfold partly_filled. rewrite Hrow0, drop_ge, app_nil_r by lia.
  rewrite seq_S, map_app, <- app_assoc. simpl. do 2 f_equal.
  destruct (c !! S i) as [row1|] eqn:Hrow1.
  - by rewrite (drop_S c row1 (S i) Hrow1).
  - apply drop_ge. by apply lookup_ge_None.
Qed.

Lemma partly_filled_end f c rows cols :
  length c = rows -> partly_filled f c cols rows 0 = table rows cols f.
Proof.
  intros Hlen. unfold partly_filled, table.
  rewrite (proj2 (lookup_ge_None c rows)) by lia. by rewrite app_nil_r.
Qed.

Lemma partly_filled_row f c cols i j row0 :
  c !! i = Some row0 ->
  partly_filled f c cols i j !! i = Some (map (f i) (seq 0 j) ++ drop j row0).
Proof.
  intros Hrow0. unfold partly_filled. rewrite Hrow0.
  rewrite lookup_app_r; rewrite length_map, length_seq; [|lia].
  by rewrite Nat.sub_diag.
Qed.

Lemma get_partly_filled f c rows cols i j r k :
  shape rows cols c -> (i < rows)%nat -> (j <= cols)%nat ->
  (r < rows)%nat -> (k < cols)%nat ->
  get (partly_filled f c cols i j) r k
  = if (r <? i)%nat || ((r =? i)%nat && (k <? j)%nat) then f r k else get c r k.
Proof.
  intros Hc Hi Hj Hr Hk.
  destruct (shape_row _ _ _ i Hc Hi) as (row0 & Hrow0 & Hlen).
  unfold get at 1. unfold partly_filled. rewrite Hrow0.
  destruct (Nat.ltb_spec r i) as [Hlt|Hge]; simpl.
  - rewrite lookup_app_l by (rewrite length_map, length_seq; lia).
    rewrite list_lookup_fmap, lookup_seq_lt by lia. simpl.
    by rewrite list_lookup_fmap, lookup_seq_lt by lia.
  - rewrite lookup_app_r; rewrite length_map, length_seq; [|lia].
    destruct (Nat.eqb_spec r i) as [->|Hne]; simpl.
    + rewrite Nat.sub_diag. simpl. destruct (Nat.ltb_spec k j) as [Hkj|Hkj].
      * rewrite lookup_app_l by (rewrite length_map, length_seq; lia).
        by rewrite list_lookup_fmap, lookup_seq_lt by lia.
      * rewrite lookup_app_r; rewrite length_map, length_seq; [|lia].
        rewrite lookup_drop. replace (j + (k - j))%nat with k by lia.
        unfold get. by rewrite Hrow0.
    + replace (r - i)%nat with (S (r - S i)) by lia. simpl.
      rewrite lookup_drop. replace (S i + (r - S i))%nat with r by lia.
      reflexivity.
Qed.

Lemma store_partly_filled w C f c rows cols i j tr :
  shape rows cols c -> (i < rows)%nat -> (j < cols)%nat ->
  store C i j (f i j) (with_block w C (partly_filled f c cols i j) tr)
  = Done (with_block w C (partly_filled f c cols i (S j)) (tr ++ [(C, i, j, f i j)])).
Proof.
  intros Hc Hi Hj.
  destruct (shape_row _ _ _ i Hc Hi) as (row0 & Hrow0 & Hlen).
  rewrite (store_with_block w C _ tr i j (f i j) _ (partly_filled_row f c cols i j row0 Hrow0)).
  - do 2 f_equal. unfold partly_filled. rewrite Hrow0.
    rewrite insert_app_r_alt; rewrite length_map, length_seq; [|lia].
    rewrite Nat.sub_diag. simpl. by rewrite (insert_prefix (f i)) by lia.
  - rewrite length_app, length_map, length_seq, length_drop. lia.
Qed.

(** A row-major loop over the cells of block [C] that stores [f i j] to
    cell [(i, j)], whatever it reads on the way. *)
Lemma fill_rows_in_place w C rows cols
    (body : nat -> nat -> state T -> outcome T (state T)) f c :
  (forall tr i j, (i < rows)%nat -> (j < cols)%nat ->
      body i j (with_block w C (partly_filled f c cols i j) tr)
      = store C i j (f i j) (with_block w C (partly_filled f c cols i j) tr)) ->
  blocks w !! C = Some c -> shape rows cols c ->
  for_loop rows 0 (fun i => for_loop cols 0 (body i)) w
  = Done (with_block w C (table rows cols f) (fill_cells C rows cols f)).
Proof.
  intros Hbody HC Hc. unfold fill_cells.
  set (ev := fun i j => [(C, i, j, f i j)]).
  set (rowev := fun i => flat_map (ev i) (seq 0 cols)).
  pose (st := fun i => with_block w C (partly_filled f c cols i 0)
                         (flat_map rowev (seq 0 i))).
  assert (H0 : st 0%nat = w).
  { unfold st. rewrite partly_filled_start. simpl. by apply with_block_id. }
  assert (Hend : st rows = with_block w C (table rows cols f)
                             (flat_map rowev (seq 0 rows))).
  { unfold st. by rewrite (partly_filled_end f c rows cols) by (by destruct Hc). }
  transitivity (Done (T := T) (st (0 + rows)%nat)); [|cbn [Nat.add]; by rewrite Hend].
  rewrite <- H0 at 1.
  apply (for_loop_closed st _ rows 0).
  intros i Hi. unfold st.
  pose (stj := fun j => with_block w C (partly_filled f c cols i j)
                          (flat_map rowev (seq 0 i) ++ flat_map (ev i) (seq 0 j))).
  assert (Hj0 : stj 0%nat
                = with_block w C (partly_filled f c cols i 0) (flat_map rowev (seq 0 i))).
  { unfold stj. simpl. by rewrite app_nil_r. }
  assert (Hjend : stj cols
                  = with_block w C (partly_filled f c cols (S i) 0)
                      (flat_map rowev (seq 0 (S i)))).
  { unfold stj. rewrite (partly_filled_row_done f c rows cols i Hc) by lia.
    by rewrite flat_map_seq_S. }
  rewrite <- Hj0, <- Hjend. apply (for_loop_closed stj (body i) cols 0).
  intros j Hj. unfold stj.
  rewrite Hbody by lia. rewrite (store_partly_filled w C f c rows cols) by (done || lia).
  by rewrite flat_map_seq_S, app_assoc.
Qed.

Lemma matrix_transpose_in_place w A n a :
  blocks w !! A = Some a -> shape (Z.to_nat n) (Z.to_nat n) a ->
  matrix_transpose A A n w
  = Done (with_block w A (mirrored a (Z.to_nat n))
            (fill_cells A (Z.to_nat n) (Z.to_nat n)
               (fun i j => if (i <? j)%nat then get a j i else get a i j))).
Proof.
  intros HA Ha. unfold matrix_transpose, for_int, mirrored.
  apply (fill_rows_in_place w A _ _
           (fun i j w => bind (load A j i w) (fun x => store A i j x w))
           (fun i j => if (i <? j)%nat then get a j i else get a i j) a);
    [|done..].
  intros tr i j Hi Hj.
  set (f := fun i j : nat => if (i <? j)%nat then get a j i else get a i j).
  assert (Hs : shape (Z.to_nat n) (Z.to_nat n) (partly_filled f a (Z.to_nat n) i j)).
  { destruct (shape_row _ _ _ i Ha Hi) as (row0 & Hrow0 & Hlen).
    unfold partly_filled. rewrite Hrow0.
    pose proof (shape_prefix _ _ a (fun r => map (f r) (seq 0 (Z.to_nat n))) i Ha
                  ltac:(intros; cbv beta; by rewrite length_map, length_seq) ltac:(lia)) as Hp.
    rewrite (drop_S a row0 i Hrow0) in Hp.
    destruct Hp as [Hl Hall]. split.
    - by rewrite length_app in *.
    - apply Forall_app in Hall as [Hall1 Hall2]. apply Forall_app. split; [done|].
      apply Forall_cons in Hall2 as [_ Hall2]. apply Forall_cons. split; [|done].
      rewrite length_app, length_map, length_seq, length_drop. lia. }
  rewrite (load_get _ A (partly_filled f a (Z.to_nat n) i j) _ _ j i
             (lookup_with_block_eq _ _ _ _) Hs Hj Hi).
  cbn [bind]. f_equal.
  rewrite (get_partly_filled f a _ _ i j j i Ha) by lia.
  unfold f. destruct (Nat.ltb_spec j i) as [Hji|Hji]; simpl.
  - destruct (Nat.ltb_spec i j); [lia|done].
  - destruct (Nat.eqb_spec j i) as [->|Hne]; simpl.
    + rewrite Nat.ltb_irrefl. by destruct (Nat.ltb_spec i i); [lia|].
    + by destruct (Nat.ltb_spec i j); [|lia].
Qed.

End InPlace.

(** X17. [matrix_transpose A A n], with one [n] x [n] block as operand and
    result, returns but does not transpose: it keeps the cells on and below
    the diagonal and overwrites every cell above the diagonal with its
    mirror image, so the block it leaves is symmetric and the cells that
    were above the diagonal are lost. It makes [n * n] stores, all to that
    block. ([main] passes two different blocks, see C9.) *)
Theorem transpose_in_place_mirrors {T : Type} `{Scalar T} (w : state T)
    (A : nat) (n : Z) (a : block T) :
  blocks w !! A = Some a -> shape (Z.to_nat n) (Z.to_nat n) a ->
  exists w',
    matrix_transpose A A n w = Done w'
    /\ blocks w' !! A = Some (mirrored a (Z.to_nat n))
    /\ (forall i j, (j <= i < Z.to_nat n)%nat -> load A i j w' = Done (get a i j))
    /\ (forall i j, (i < j < Z.to_nat n)%nat -> load A i j w' = Done (get a j i))
    /\ (forall i j, (i < Z.to_nat n)%nat -> (j < Z.to_nat n)%nat ->
          load A i j w' = load A j i w')
    /\ (forall q, q <> A -> blocks w' !! q = blocks w !! q)
    /\ length (writes w') = (length (writes w) + Z.to_nat n * Z.to_nat n)%nat.
Proof.
  intros HA Ha. eexists. split; [by apply matrix_transpose_in_place|].
  assert (Hcell : forall i j, (i < Z.to_nat n)%nat -> (j < Z.to_nat n)%nat ->
            load A i j (with_block w A (mirrored a (Z.to_nat n))
                          (fill_cells A (Z.to_nat n) (Z.to_nat n)
                             (fun i j => if (i <? j)%nat then get a j i else get a i j)))
            = Done (if (i <? j)%nat then get a j i else get a i j)).
  { intros i j Hi Hj.
    erewrite load_get; [|apply lookup_with_block_eq|apply shape_table|done..].
    unfold mirrored. by rewrite get_table. }
  split; [apply lookup_with_block_eq|]. split; [|split; [|split; [|split]]].
  - intros i j Hij. rewrite Hcell by lia. by destruct (Nat.ltb_spec i j); [lia|].
  - intros i j Hij. rewrite Hcell by lia. by destruct (Nat.ltb_spec i j); [|lia].
  - intros i j Hi Hj. rewrite !Hcell by lia.
    destruct (Nat.ltb_spec i j), (Nat.ltb_spec j i); try done; try lia.
    by replace j with i by lia.
  - intros q Hq. by apply lookup_with_block_ne.
  - cbn [writes with_block]. rewrite length_app. f_equal.
    unfold fill_cells.
    rewrite (length_flat_map_const _ _ (Z.to_nat n)); [by rewrite length_seq|].
    intros i. by rewrite (length_flat_map_const _ _ 1), length_seq, Nat.mul_1_r.
Qed.

Lemma transpose_in_place_mirrors_witness :
  exists w',
    matrix_transpose 3 3 2 bench_raw = Done w'
    /\ blocks w' !! 3%nat = Some [[7; -3]; [-3; 1024]]%float.
Proof.
  destruct (transpose_in_place_mirrors bench_raw 3 2 [[7; 0.5]; [-3; 1024]]%float
              eq_refl (shape_2_2 _ _ _ _))
    as (w' & Hrun & Hblock & _).
  exists w'. split; [exact Hrun|]. rewrite Hblock. reflexivity.
Defined.
